(** * Weighted BACON regression (cbacon): a shallow embedding of
      src/wbacon_reg.c and src/fitwls.c.

    Conventions of the embedding.
    - Every C array is a [list]; a C array [double *a] read as [a[i]] is
      [get a i], a write [a[i] = v] is [set_nth a i v] (out of range the
      list is left unchanged; in C such a write is undefined).
    - Matrices are stored column-major, exactly as in the source:
      element (i, j) of an n-by-p matrix is entry [i + j * n].
    - A C [double] is an element of a type [F] with the operations of the
      class [DoubleArith]. Two instances are given: the real numbers [R]
      (exact arithmetic, for general theorems) and Rocq's primitive
      binary64 floats (IEEE double precision, the arithmetic of the C
      program, for concrete runs).
    - LAPACK/BLAS routines (dgels, dtrtri) and R's [qt] are parameters of
      the sections that use them. *)

From Stdlib Require Import PrimFloat.
From Stdlib Require Uint63.
From Stdlib Require Import ZArith Lia List Reals Lra Permutation.
Import ListNotations.

(** ** Double-precision arithmetic *)

Class DoubleArith (F : Type) := {
  f0 : F;
  f1 : F;
  fadd : F -> F -> F;
  fsub : F -> F -> F;
  fmul : F -> F -> F;
  fdiv : F -> F -> F;
  fsqrt : F -> F;
  fabs : F -> F;
  (** C's [hypot] *)
  fhypot : F -> F -> F;
  (** C's [<] and [<=] on doubles *)
  fltb : F -> F -> bool;
  fleb : F -> F -> bool;
  (** conversion [(double) k] of a C [int] *)
  fofZ : Z -> F;
  DBL_EPSILON : F
}.

Definition Rltb (x y : R) : bool := if Rlt_dec x y then true else false.
Definition Rleb (x y : R) : bool := if Rle_dec x y then true else false.

#[global] Instance R_arith : DoubleArith R := {
  f0 := 0%R;
  f1 := 1%R;
  fadd := Rplus;
  fsub := Rminus;
  fmul := Rmult;
  fdiv := Rdiv;
  fsqrt := sqrt;
  fabs := Rabs;
  fhypot := fun a b => sqrt (a * a + b * b)%R;
  fltb := Rltb;
  fleb := Rleb;
  fofZ := IZR;
  DBL_EPSILON := (/ IZR (2 ^ 52))%R
}.

(** (double) of an int: exact for |k| < 2^53 *)
Definition float_of_Z (k : Z) : float :=
  match k with
  | Z0 => 0%float
  | Zpos q => PrimFloat.of_uint63 (Uint63.of_Z (Zpos q))
  | Zneg q => (- PrimFloat.of_uint63 (Uint63.of_Z (Zpos q)))%float
  end.

(** binary64; [hypot] is [sqrt(a*a + b*b)], which agrees with C's [hypot]
    away from overflow and underflow. *)
#[global] Instance float_arith : DoubleArith float := {
  f0 := 0%float;
  f1 := 1%float;
  fadd := PrimFloat.add;
  fsub := PrimFloat.sub;
  fmul := PrimFloat.mul;
  fdiv := PrimFloat.div;
  fsqrt := PrimFloat.sqrt;
  fabs := PrimFloat.abs;
  fhypot := fun a b => PrimFloat.sqrt (a * a + b * b)%float;
  fltb := PrimFloat.ltb;
  fleb := PrimFloat.leb;
  fofZ := float_of_Z;
  DBL_EPSILON := 0x1p-52%float
}.

(** ** Arrays *)

Fixpoint set_nth {A} (l : list A) (i : nat) (v : A) : list A :=
  match l, i with
  | [], _ => []
  | _ :: t, O => v :: t
  | h :: t, S i' => h :: set_nth t i' v
  end.

Section Arrays.
Context {F : Type} `{DoubleArith F}.

Definition get (a : list F) (i : nat) : F := nth i a f0.

End Arrays.

(** [Memcpy(dst, src, k)]: the first [k] entries of [src] over [dst] *)
Definition memcpy {A} (dst src : list A) (k : nat) : list A :=
  firstn k src ++ skipn k dst.

(** src/wbacon_error.h *)
Inductive wbacon_error_type :=
| WBACON_ERROR_OK
| WBACON_ERROR_RANK_DEFICIENT
| WBACON_ERROR_TRIANG_MAT_SINGULAR
| WBACON_ERROR_CONVERGENCE_FAILURE.

(** ** Rank-one update and downdate of the Cholesky factor
    ([chol_update], [chol_downdate]); [L] is p-by-p, [u] has length p. *)

Section Cholesky.
Context {F : Type} `{DoubleArith F}.

Definition sq (v : F) : F := fmul v v.

(** body of the inner [j] loop of [chol_update] at column [i] *)
Definition chol_update_inner (p i : nat) (b c : F)
    (Lu : list F * list F) (j : nat) : list F * list F :=
  let '(L, u) := Lu in
  let L := set_nth L (p * i + j) (fadd (get L (p * i + j)) (fmul c (get u j))) in
  let L := set_nth L (p * i + j) (fdiv (get L (p * i + j)) b) in
  let u := set_nth u j (fsub (fmul b (get u j)) (fmul c (get L (p * i + j)))) in
  (L, u).

(** one iteration [i] of the outer loop of [chol_update] *)
Definition chol_update_col (p : nat) (Lu : list F * list F) (i : nat)
    : list F * list F :=
  let '(L, u) := Lu in
  let tmp := get L (i * (p + 1)) in
  let a := fhypot tmp (get u i) in
  let b := fdiv a tmp in
  let c := fdiv (get u i) tmp in
  let L := set_nth L (i * (p + 1)) a in
  fold_left (chol_update_inner p i b c) (seq (S i) (p - 1 - i)) (L, u).

Definition chol_update (L u : list F) (p : nat) : list F * list F :=
  let '(L, u) := fold_left (chol_update_col p) (seq 0 (p - 1)) (L, u) in
  (set_nth L (p * p - 1)
     (fsqrt (fadd (sq (get L (p * p - 1))) (sq (get u (p - 1))))), u).

(** body of the inner [j] loop of [chol_downdate] at column [i] *)
Definition chol_downdate_inner (p i : nat) (b c : F)
    (Lu : list F * list F) (j : nat) : list F * list F :=
  let '(L, u) := Lu in
  let L := set_nth L (p * i + j) (fsub (get L (p * i + j)) (fmul c (get u j))) in
  let L := set_nth L (p * i + j) (fdiv (get L (p * i + j)) b) in
  let u := set_nth u j (fsub (fmul b (get u j)) (fmul c (get L (p * i + j)))) in
  (L, u).

(** the quantity [a = L[i,i]^2 - u[i]^2] tested at column [i] *)
Definition downdate_radicand (p i : nat) (Lu : list F * list F) : F :=
  let '(L, u) := Lu in
  fsub (sq (get L (i * (p + 1)))) (sq (get u i)).

(** one iteration [i] of the outer loop of [chol_downdate];
    [None] is the early [return WBACON_ERROR_RANK_DEFICIENT] *)
Definition chol_downdate_col (p : nat) (Lu : list F * list F) (i : nat)
    : option (list F * list F) :=
  let a := downdate_radicand p i Lu in
  if fltb a f0 then None else
  let '(L, u) := Lu in
  let tmp := get L (i * (p + 1)) in
  let a := fsqrt a in
  let b := fdiv a tmp in
  let c := fdiv (get u i) tmp in
  let L := set_nth L (i * (p + 1)) a in
  Some (fold_left (chol_downdate_inner p i b c) (seq (S i) (p - 1 - i)) (L, u)).

(** the first [k] iterations of the outer loop of [chol_downdate]; on an
    early return the arrays are left as the failing iteration found them *)
Fixpoint chol_downdate_loop (p k : nat) (Lu : list F * list F)
    : wbacon_error_type * (list F * list F) :=
  match k with
  | O => (WBACON_ERROR_OK, Lu)
  | S k' =>
      match chol_downdate_loop p k' Lu with
      | (WBACON_ERROR_OK, s) =>
          match chol_downdate_col p s k' with
          | Some s' => (WBACON_ERROR_OK, s')
          | None => (WBACON_ERROR_RANK_DEFICIENT, s)
          end
      | r => r
      end
  end.

Definition chol_downdate (L u : list F) (p : nat)
    : wbacon_error_type * (list F * list F) :=
  match chol_downdate_loop p (p - 1) (L, u) with
  | (WBACON_ERROR_OK, (L, u)) =>
      let a := fsub (sq (get L (p * p - 1))) (sq (get u (p - 1))) in
      if fltb a f0 then (WBACON_ERROR_RANK_DEFICIENT, (L, u))
      else (WBACON_ERROR_OK, (set_nth L (p * p - 1) (fsqrt a), u))
  | r => r
  end.

End Cholesky.

(** ** [update_chol_xty]: move the factor and [xty] from [subset0] to
    [subset1]. [x] is the n-by-p design matrix, [y] the response and
    [weight] the weights ([dat->x], [dat->y], [dat->w]). *)

Section UpdateCholXty.
Context {F : Type} `{DoubleArith F}.

(** the buffers [update_chol_xty] reads and writes *)
Record chol_xty_state := mk_chol_xty_state {
  cx_L : list F;        (** est->L, p*p *)
  cx_xty : list F;      (** est->xty, p *)
  cx_work_pp : list F;  (** work->work_pp, p*p: snapshot of L *)
  cx_work_np : list F;  (** work->work_np, n*p: snapshot of xty *)
  cx_work_p : list F;   (** work->work_p = xtx_update, p *)
  cx_iarray : list nat  (** work->iarray = stack, n *)
}.

Definition set_L_xty (st : chol_xty_state) (L xty xtx : list F) : chol_xty_state :=
  mk_chol_xty_state L xty (cx_work_pp st) (cx_work_np st) xtx (cx_iarray st).

Variables (n p : nat) (x y weight : list F).

(** [for (j = 0; j < p; j++) { xtx_update[j] = x[i + j*n] * sqrt(weight[i]);
    xty[j] += x[i + j*n] * y[i] * weight[i]; }]; with [fadd] replaced by
    [fsub] in the second pass *)
Definition xty_obs (op : F -> F -> F) (i : nat) (xtx xty : list F)
    : list F * list F :=
  fold_left (fun acc j =>
    let '(xtx, xty) := acc in
    (set_nth xtx j (fmul (get x (i + j * n)) (fsqrt (get weight i))),
     set_nth xty j (op (get xty j)
                       (fmul (fmul (get x (i + j * n)) (get y i)) (get weight i)))))
    (seq 0 p) (xtx, xty).

(** one iteration [i] of the first pass: updates, and downdates pushed onto
    the stack; the accumulator is (state, n_update, n_downdate) *)
Definition first_pass_step (subset0 subset1 : list Z)
    (acc : chol_xty_state * nat * nat) (i : nat) : chol_xty_state * nat * nat :=
  let '(st, n_update, n_downdate) := acc in
  if Z.gtb (nth i subset1 0%Z) (nth i subset0 0%Z) then
    let '(xtx, xty) := xty_obs fadd i (cx_work_p st) (cx_xty st) in
    let '(L, xtx) := chol_update (cx_L st) xtx p in
    (set_L_xty st L xty xtx, S n_update, n_downdate)
  else if Z.ltb (nth i subset1 0%Z) (nth i subset0 0%Z) then
    (mk_chol_xty_state (cx_L st) (cx_xty st) (cx_work_pp st) (cx_work_np st)
       (cx_work_p st) (set_nth (cx_iarray st) n_downdate i),
     n_update, S n_downdate)
  else (st, n_update, n_downdate).

(** the second pass over [stack[0 .. n_downdate-1]]; on a failed downdate
    the snapshots are copied back and the error is returned *)
Fixpoint second_pass (ks : list nat) (st : chol_xty_state)
    : wbacon_error_type * chol_xty_state :=
  match ks with
  | [] => (WBACON_ERROR_OK, st)
  | k :: ks =>
      let at_ := nth k (cx_iarray st) 0 in
      let '(xtx, xty) := xty_obs fsub at_ (cx_work_p st) (cx_xty st) in
      match chol_downdate (cx_L st) xtx p with
      | (WBACON_ERROR_OK, (L, xtx)) => second_pass ks (set_L_xty st L xty xtx)
      | (err, (L, xtx)) =>
          (err, set_L_xty st (memcpy L (cx_work_pp st) (p * p))
                             (memcpy xty (cx_work_np st) p) xtx)
      end
  end.

Definition update_chol_xty (subset0 subset1 : list Z) (st : chol_xty_state)
    : wbacon_error_type * chol_xty_state :=
  let st := mk_chol_xty_state (cx_L st) (cx_xty st)
              (memcpy (cx_work_pp st) (cx_L st) (p * p))
              (memcpy (cx_work_np st) (cx_xty st) p)
              (cx_work_p st) (cx_iarray st) in
  let '(st, _, n_downdate) :=
    fold_left (first_pass_step subset0 subset1) (seq 0 n) (st, 0, 0) in
  second_pass (seq 0 n_downdate) st.

End UpdateCholXty.

Arguments chol_xty_state F : clear implicits.

(** ** Selection of the subset ([select_subset]) *)

Section Select.
Context {F : Type} `{DoubleArith F}.

Definition swap (x : list F) (i j : nat) : list F :=
  set_nth (set_nth x i (get x j)) j (get x i).

(** Lomuto partition of [x[lo..hi]] around the pivot [x[hi]] *)
Definition partition (x : list F) (lo hi : nat) : list F * nat :=
  let pivot := get x hi in
  let '(x, i) :=
    fold_left (fun acc j =>
      let '(x, i) := acc in
      if fltb (get x j) pivot then (swap x i j, S i) else (x, i))
      (seq lo (hi - lo)) (x, lo) in
  (swap x i hi, i).

Fixpoint quickselect (fuel : nat) (x : list F) (lo hi k : nat) : list F :=
  match fuel with
  | O => x
  | S fuel =>
      if Nat.leb hi lo then x else
      let '(x, q) := partition x lo hi in
      if Nat.eqb k q then x
      else if Nat.ltb k q then quickselect fuel x lo (q - 1) k
      else quickselect fuel x (S q) hi k
  end.

(** Modelled from the spec: [select_k(x, lo, hi, k)] of partial_sort.c,
    which is not in src/. The spec calls it "a partial-selection procedure
    (expected linear time, e.g. quickselect)" that locates the order
    statistic; [select_subset] reads the threshold as [x[m - 1]] right after
    the call, so the procedure rearranges [x[lo..hi]] in place and leaves
    the [(k - lo + 1)]-th smallest value at position [k]: a quickselect. *)
Definition select_k (x : list F) (lo hi k : nat) : list F :=
  quickselect (S (hi - lo)) x lo hi k.

(** [select_subset(x, subset, m, n)], for any in-place selection routine
    [selk] in the place of [select_k]; the result is the pair of the arrays
    [x] and [subset] on return *)
Definition select_subset (selk : list F -> nat -> nat -> nat -> list F)
    (x : list F) (subset : list Z) (m n : nat) : list F * list Z :=
  let x := selk x 0 (n - 1) (m - 1) in
  let threshold := get x (m - 1) in
  (x, fold_left (fun subset i =>
         set_nth subset i (if fleb (get x i) threshold then 1%Z else 0%Z))
       (seq 0 n) subset).

End Select.

(** ** Weighted least squares ([fitwls], src/fitwls.c) *)

Section Fitwls.
Context {F : Type} `{DoubleArith F}.

(** the buffers [fitwls] writes: [dat->wx], [dat->wy], [beta], [resid] *)
Record fit_state := mk_fit_state {
  fs_wx : list F;
  fs_wy : list F;
  fs_beta : list F;
  fs_resid : list F
}.

(** LAPACK: [dgels("N", n, p, 1, wx, n, wy, n, work, lwork, info)] returns
    the QR factorization of [wx] (R in its upper triangle) and the
    solution in the first [p] entries of [wy]; [dgels_query] is the
    workspace query ([lwork = -1]). *)
Variables (dgels : nat -> nat -> list F -> list F -> list F * list F)
          (dgels_query : nat -> nat -> Z).

(** STEP 1 of [fitwls]: [wy = sqrt(w) * y], [wx = sqrt(w) * x] *)
Definition fitwls_weighting (n p : nat) (x y weight wx wy : list F)
    : list F * list F :=
  let '(wx, wy) :=
    fold_left (fun acc i =>
      let '(wx, wy) := acc in
      let tmp := fsqrt (get weight i) in
      (set_nth wx i (fmul tmp (get x i)), set_nth wy i (fmul tmp (get y i))))
      (seq 0 n) (wx, wy) in
  (fold_left (fun wx j =>
     fold_left (fun wx i =>
       set_nth wx (i + n * j) (fmul (fsqrt (get weight i)) (get x (i + n * j))))
       (seq 0 n) wx)
     (seq 1 (p - 1)) wx, wy).

(** the rank check: some [|R[i,i]| = |wx[(n + 1) * i]| < sqrt(DBL_EPSILON)] *)
Definition rank_deficient (n p : nat) (wx : list F) : bool :=
  existsb (fun i => fltb (fabs (get wx ((n + 1) * i))) (fsqrt DBL_EPSILON))
    (seq 0 p).

(** BLAS [dgemv("N", n, p, -1, x, n, beta, 1, 1, resid, 1)]:
    [resid = resid - x * beta], column by column *)
Definition dgemv_resid (n p : nat) (x beta resid : list F) : list F :=
  fold_left (fun r j =>
    let temp := fmul (fofZ (-1)) (get beta j) in
    fold_left (fun r i => set_nth r i (fadd (get r i) (fmul temp (get x (i + n * j)))))
      (seq 0 n) r)
    (seq 0 p) resid.

Definition fitwls (n p : nat) (x y weight : list F) (lwork : Z) (st : fit_state)
    : Z * fit_state :=
  if Z.ltb lwork 0 then (dgels_query n p, st) else
  let '(wx, wy) := fitwls_weighting n p x y weight (fs_wx st) (fs_wy st) in
  let '(wx, wy) := dgels n p wx wy in
  if rank_deficient n p wx then (1%Z, mk_fit_state wx wy (fs_beta st) (fs_resid st))
  else
    let beta := memcpy (fs_beta st) wy p in
    let resid := dgemv_resid n p x beta (memcpy (fs_resid st) y n) in
    (0%Z, mk_fit_state wx wy beta resid).

End Fitwls.

Arguments fit_state F : clear implicits.

(** The values LAPACK's [dgels] returns for a 1-by-1 system [a * b = c]:
    dgeqrf leaves a 1-by-1 matrix as its own R (tau = 0), and the
    solution [c / a] overwrites [c]. Used only for [n = p = 1]. *)
Definition dgels_1x1 {F : Type} `{DoubleArith F} (n p : nat) (wx wy : list F)
    : list F * list F :=
  (wx, set_nth wy 0 (fdiv (get wy 0) (get wx 0))).

(** ** Discrepancies ([hat_matrix], [compute_ti]) *)

Section Discrepancy.
Context {F : Type} `{DoubleArith F}.

(** LAPACK [dtrtri("L", "N", p, A, p, info)]: the inverse of the lower
    triangular [A], or [None] when [info != 0] *)
Variable dtrtri : nat -> list F -> option (list F).

Variables (n p : nat) (x weight : list F).

(** BLAS [dtrmm("R", "L", "T", "N", n, p, 1, A, p, B, n)]: [B := B * A^T]
    for lower triangular [A]; entry (i, j) is the sum over [l <= j] of
    [B[i, l] * A[j, l]] *)
Definition dtrmm_rlt (A B : list F) : list F :=
  map (fun k =>
    let i := k mod n in
    let j := k / n in
    fold_left (fun acc l => fadd acc (fmul (get B (i + l * n)) (get A (j + l * p))))
      (seq 0 (S j)) f0)
    (seq 0 (n * p)).

(** [hat_matrix(dat, work, L, hat)]; the buffers [work_pp] and [work_np]
    are given at entry, the new [hat] is returned *)
Definition hat_matrix (L work_pp work_np hat : list F) : option (list F) :=
  match dtrtri p (memcpy work_pp L (p * p)) with
  | None => None
  | Some Linv =>
      let work_np := dtrmm_rlt Linv (memcpy work_np x (n * p)) in
      let hat := fold_left (fun hat i => set_nth hat i (sq (get work_np i)))
                   (seq 0 n) hat in
      let hat := fold_left (fun hat j =>
                   fold_left (fun hat i =>
                     set_nth hat i (fadd (get hat i) (sq (get work_np (i + j * n)))))
                     (seq 0 n) hat)
                   (seq 1 (p - 1)) hat in
      Some (fold_left (fun hat i => set_nth hat i (fmul (get hat i) (get weight i)))
              (seq 0 n) hat)
  end.

(** the score of observation [i] from its residual and hat value:
    [fabs(resid[i]) / (sigma * sqrt(1 + (double)(1 - 2 * subset[i]) * hat[i]))] *)
Definition ti_value (sigma : F) (resid hat : list F) (subset : list Z) (i : nat) : F :=
  fdiv (fabs (get resid i))
       (fmul sigma (fsqrt (fadd f1 (fmul (fofZ (1 - 2 * nth i subset 0%Z)) (get hat i))))).

(** [compute_ti(dat, work, est, subset, m, tis)]: [None] is
    [WBACON_ERROR_TRIANG_MAT_SINGULAR]; otherwise the new [tis]. The
    source reads [est->sigma], which no function of src/ assigns: here it
    is the argument [sigma]. *)
Definition compute_ti (L work_pp work_np hat : list F) (sigma : F) (resid : list F)
    (subset : list Z) (tis : list F) : option (list F) :=
  match hat_matrix L work_pp work_np hat with
  | None => None
  | Some hat =>
      Some (fold_left (fun tis i => set_nth tis i (ti_value sigma resid hat subset i))
              (seq 0 n) tis)
  end.

End Discrepancy.

(** ** Algorithm 5 (the refinement phase, [algorithm_5]) *)

Section Algorithm5.
Context {F : Type} `{DoubleArith F}.

Variables (dgels : nat -> nat -> list F -> list F -> list F * list F)
          (dgels_query : nat -> nat -> Z)
          (dtrtri : nat -> list F -> option (list F))
          (** Rmath's [qt(p, df, lower_tail, log_p)] *)
          (qt : F -> F -> Z -> Z -> F).

Variables (n p : nat) (x y w : list F) (sigma alpha : F) (lwork : Z).

(** Modelled from the spec: the call [fitwls(dat, est, subset, work, lwork)]
    of wbacon_reg.c has a signature that src/fitwls.c does not provide. The
    spec describes the solver as a weighted least-squares fit with a
    "per-observation effective weight (zero weight excludes an observation
    from the fit)": it is [fitwls] of src/fitwls.c with weight [w[i]] for
    the members of [subset] and [0] for the others. *)
Definition fitwls_subset (subset : list Z) (st : fit_state F) : Z * fit_state F :=
  fitwls dgels dgels_query n p x y
    (map (fun i => if Z.eqb (nth i subset 0%Z) 0 then f0 else get w i) (seq 0 n))
    lwork st.

(** [for (i = 0; i < p; i++) for (j = i; j < p; j++) L[j + i*p] = wx[i + j*n];] *)
Definition extract_L (wx L : list F) : list F :=
  fold_left (fun L i =>
    fold_left (fun L j => set_nth L (j + i * p) (get wx (i + j * n)))
      (seq i (p - i)) L)
    (seq 0 p) L.

(** [cutoff = qt( *alpha / (double)(2 * ( *m + 1)), *m - p, 0, 0)] *)
Definition a5_cutoff (m : Z) : F :=
  qt (fdiv alpha (fofZ (2 * (m + 1)))) (fofZ (m - Z.of_nat p)) 0 0.

(** the loop that forms the new [subset1] and counts it in [*m] *)
Definition new_subset (dist : list F) (cutoff : F) (subset1 : list Z) : list Z * Z :=
  fold_left (fun acc i =>
    let '(s, m) := acc in
    if fltb (get dist i) cutoff then (set_nth s i 1%Z, (m + 1)%Z)
    else (set_nth s i 0%Z, m))
    (seq 0 n) (subset1, 0%Z).

(** the loop [for (i = 0; i < n; i++) if (subset0[i] ^ subset1[i]) break;]
    ends with [i == n] *)
Definition subsets_identical (subset0 subset1 : list Z) : bool :=
  forallb (fun i => Z.eqb (Z.lxor (nth i subset0 0%Z) (nth i subset1 0%Z)) 0)
    (seq 0 n).

(** the buffers [algorithm_5] reads and writes *)
Record a5_state := mk_a5_state {
  a5_subset0 : list Z;
  a5_subset1 : list Z;
  a5_m : Z;
  a5_maxiter : Z;
  a5_fit : fit_state F;   (** dat->wx, dat->wy, est->beta, est->resid *)
  a5_L : list F;
  a5_dist : list F;
  a5_work_pp : list F;
  a5_work_np : list F;
  a5_work_n : list F
}.

Inductive a5_outcome :=
| A5_return (e : wbacon_error_type)
| A5_next.

(** one pass through the body of [while (iter <= *maxiter)] *)
Definition a5_body (iter : Z) (st : a5_state) : a5_outcome * a5_state :=
  let '(info, fs) := fitwls_subset (a5_subset0 st) (a5_fit st) in
  let st := mk_a5_state (a5_subset0 st) (a5_subset1 st) (a5_m st) (a5_maxiter st)
              fs (a5_L st) (a5_dist st) (a5_work_pp st) (a5_work_np st) (a5_work_n st) in
  if negb (Z.eqb info 0) then (A5_return WBACON_ERROR_RANK_DEFICIENT, st) else
  let L := extract_L (fs_wx fs) (a5_L st) in
  match compute_ti dtrtri n p x w L (a5_work_pp st) (a5_work_np st) (a5_work_n st)
          sigma (fs_resid fs) (a5_subset0 st) (a5_dist st) with
  | None =>
      (A5_return WBACON_ERROR_TRIANG_MAT_SINGULAR,
       mk_a5_state (a5_subset0 st) (a5_subset1 st) (a5_m st) (a5_maxiter st)
         fs L (a5_dist st) (a5_work_pp st) (a5_work_np st) (a5_work_n st))
  | Some dist =>
      let cutoff := a5_cutoff (a5_m st) in
      let '(subset1, m) := new_subset dist cutoff (a5_subset1 st) in
      if subsets_identical (a5_subset0 st) subset1 then
        (A5_return WBACON_ERROR_OK,
         mk_a5_state (a5_subset0 st) subset1 m iter
           fs L dist (a5_work_pp st) (a5_work_np st) (a5_work_n st))
      else
        (A5_next,
         mk_a5_state (memcpy (a5_subset0 st) subset1 n) subset1 m (a5_maxiter st)
           fs L dist (a5_work_pp st) (a5_work_np st) (a5_work_n st))
  end.

(** the loop, with [fuel] bounding the number of passes *)
Fixpoint a5_loop (fuel : nat) (iter : Z) (st : a5_state)
    : wbacon_error_type * a5_state :=
  match fuel with
  | O => (WBACON_ERROR_CONVERGENCE_FAILURE, st)
  | S fuel =>
      if Z.leb iter (a5_maxiter st) then
        match a5_body iter st with
        | (A5_return e, st) => (e, st)
        | (A5_next, st) => a5_loop fuel (iter + 1) st
        end
      else (WBACON_ERROR_CONVERGENCE_FAILURE, st)
  end.

(** [iter] runs from 1 and [*maxiter] is only changed on return, so
    [*maxiter] passes of the loop are enough *)
Definition algorithm_5 (st : a5_state) : wbacon_error_type * a5_state :=
  a5_loop (Z.to_nat (a5_maxiter st)) 1 st.

(** STEP 2 of [wbacon_reg]: [*success] (1 at entry) becomes 0 when
    [algorithm_5] returns an error *)
Definition wbacon_reg_step2 (success : Z) (st : a5_state) : Z * a5_state :=
  let '(err, st) := algorithm_5 st in
  match err with
  | WBACON_ERROR_OK => (success, st)
  | _ => (0%Z, st)
  end.

(** [k] passes of the loop, numbered from [iter], none of which
    converges or fails: the state after the [k]-th, or [None] when one of
    them returns *)
Fixpoint a5_run_next (k : nat) (iter : Z) (st : a5_state) : option a5_state :=
  match k with
  | O => Some st
  | S k =>
      match a5_body iter st with
      | (A5_next, st) => a5_run_next k (iter + 1) st
      | (A5_return _, _) => None
      end
  end.

End Algorithm5.

Arguments a5_state F : clear implicits.

(** ** Algorithm 4 (the growing phase, [algorithm_4]): the transition and
    the retry loop that enlarges [subset1] when it fails *)

Section Algorithm4.
Context {F : Type} `{DoubleArith F}.

Variables (n p collect : nat) (x y w : list F).

(** [for (;;) { ( *m)++; subset1[iarray[*m - 1]] = 1; err = update_chol_xty(..);
    if (err == WBACON_ERROR_OK) break; if ( *m == p * *collect) return err; }]
    The result is the error, [*m], [subset1] and the buffers of
    [update_chol_xty]; [None] when [*m - 1] reaches [n], where the source
    reads [iarray] out of bounds. [fuel = n] is enough: [*m] grows by one per
    pass. *)
Fixpoint a4_grow (fuel m : nat) (subset0 subset1 : list Z) (st : chol_xty_state F)
    : option (wbacon_error_type * nat * list Z * chol_xty_state F) :=
  match fuel with
  | O => None
  | S fuel =>
      let m := S m in
      if Nat.ltb n m then None else
      let subset1 := set_nth subset1 (nth (m - 1) (cx_iarray st) 0) 1%Z in
      match update_chol_xty n p x y w subset0 subset1 st with
      | (WBACON_ERROR_OK, st) => Some (WBACON_ERROR_OK, m, subset1, st)
      | (err, st) =>
          if Nat.eqb m (p * collect) then Some (err, m, subset1, st)
          else a4_grow fuel m subset0 subset1 st
      end
  end.

(** the first statements of the body of the loop of [algorithm_4]: the
    transition [subset0 => subset1], and the retry loop when it fails *)
Definition a4_transition (m : nat) (subset0 subset1 : list Z) (st : chol_xty_state F)
    : option (wbacon_error_type * nat * list Z * chol_xty_state F) :=
  match update_chol_xty n p x y w subset0 subset1 st with
  | (WBACON_ERROR_OK, st) => Some (WBACON_ERROR_OK, m, subset1, st)
  | (_, st) => a4_grow n m subset0 subset1 st
  end.

(** The rule of the spec for growing the candidate subset, written from the
    spec's words for comparison with [a4_grow]: the observation with the
    smallest current score [dist[i]] among those not in [subset] (the first
    one on ties), or [None] when every observation is in [subset]. *)
Definition smallest_outside (dist : list F) (subset : list Z) : option nat :=
  fold_left (fun best i =>
    if Z.eqb (nth i subset 0%Z) 0 then
      match best with
      | None => Some i
      | Some b => if fltb (get dist i) (get dist b) then Some i else Some b
      end
    else best)
    (seq 0 n) None.

End Algorithm4.

(** The values LAPACK's [dtrtri] returns for a 1-by-1 matrix [a]: info = 1
    when [a] is exactly zero, and [1 / a] otherwise. Used only for
    [p = 1]. *)
Definition dtrtri_1x1 {F : Type} `{DoubleArith F} (p : nat) (A : list F)
    : option (list F) :=
  if fleb (fabs (get A 0)) f0 then None else Some (set_nth A 0 (fdiv f1 (get A 0))).

(** ** Sums in exact arithmetic *)

(** [sumR f k = f 0 + ... + f (k - 1)] *)
Fixpoint sumR (f : nat -> R) (k : nat) : R :=
  match k with
  | O => 0%R
  | S k => (sumR f k + f k)%R
  end.

(** ** Generic forms of the inner loops of [chol_update] and [chol_downdate] *)

(** the inner loop of [chol_update] ([op = +]) and [chol_downdate] ([op = -]) *)
Definition inner_gen (op : R -> R -> R) (p i : nat) (b c : R)
    (Lu : list R * list R) (j : nat) : list R * list R :=
  let '(L, u) := Lu in
  let L := set_nth L (p * i + j) (op (get L (p * i + j)) (c * get u j))%R in
  let L := set_nth L (p * i + j) (get L (p * i + j) / b)%R in
  let u := set_nth u j (b * get u j - c * get L (p * i + j))%R in
  (L, u).

(** ** Terms of [update_chol_xty] *)

(** the term [x[i + j*n] * y[i] * weight[i]] that observation [i] adds to
    (or subtracts from) [xty[j]] *)
Definition xty_term (n : nat) (x y weight : list R) (i j : nat) : R :=
  (get x (i + j * n) * get y i * get weight i)%R.

(** observation [i] enters: [subset1[i] > subset0[i]] *)
Definition is_up (s0 s1 : list Z) (i : nat) : bool := Z.gtb (nth i s1 0%Z) (nth i s0 0%Z).

(** observation [i] leaves: [subset1[i] < subset0[i]] *)
Definition is_down (s0 s1 : list Z) (i : nat) : bool :=
  negb (is_up s0 s1 i) && Z.ltb (nth i s1 0%Z) (nth i s0 0%Z).

(** ** Least squares from the Cholesky factor ([cholesky_reg]) *)

Section Trsm.
Context {F : Type} `{DoubleArith F}.
Variable p : nat.

(** reference BLAS [dtrsm("L", "L", "N", "N", p, 1, 1.0, A, p, B, p)]:
    forward substitution [A * X = B] for lower triangular [A];
    [DO K = 1, M: IF (B(K) .NE. ZERO) THEN B(K) = B(K)/A(K,K);
     DO I = K+1, M: B(I) = B(I) - B(K)*A(I,K)] *)
Definition dtrsm_llnn_step (A B : list F) (k : nat) : list F :=
  if negb (fleb (get B k) f0 && fleb f0 (get B k)) then
    let B := set_nth B k (fdiv (get B k) (get A (k + k * p))) in
    fold_left (fun B i => set_nth B i (fsub (get B i) (fmul (get B k) (get A (i + k * p)))))
      (seq (S k) (p - S k)) B
  else B.

Definition dtrsm_llnn (A B : list F) : list F :=
  fold_left (dtrsm_llnn_step A) (seq 0 p) B.

(** reference BLAS [dtrsm("L", "L", "T", "N", p, 1, 1.0, A, p, B, p)]:
    back substitution [A^T * X = B]; [DO I = M, 1, -1: TEMP = B(I);
    DO K = I+1, M: TEMP = TEMP - A(K,I)*B(K); TEMP = TEMP/A(I,I); B(I) = TEMP] *)
Definition dtrsm_lltn_step (A B : list F) (i : nat) : list F :=
  let temp := fold_left (fun temp k => fsub temp (fmul (get A (k + i * p)) (get B k)))
                (seq (S i) (p - S i)) (get B i) in
  set_nth B i (fdiv temp (get A (i + i * p))).

Definition dtrsm_lltn (A B : list F) : list F :=
  fold_left (dtrsm_lltn_step A) (rev (seq 0 p)) B.

End Trsm.

(** [cholesky_reg(L, x, xty, beta, n, p)]: the new [beta]; [x] and [n] are
    not read *)
Definition cholesky_reg {F : Type} `{DoubleArith F} (L x xty beta : list F) (n p : nat)
    : list F :=
  let beta := memcpy beta xty p in
  let beta := dtrsm_llnn p L beta in
  dtrsm_lltn p L beta.

(** [sum over i <= k < p of A(k, i) * B(k)]: row [i] of [A^T * B] *)
Definition upper_dot (p : nat) (A B : list R) (i : nat) : R :=
  sumR (fun t => get A (i + t + i * p) * get B (i + t))%R (p - i).

(** ** Initial subset ([initial_reg]) *)

Section InitialReg.
Context {F : Type} `{DoubleArith F}.

Variables (dgels : nat -> nat -> list F -> list F -> list F * list F)
          (dgels_query : nat -> nat -> Z)
          (dtrtri : nat -> list F -> option (list F))
          (** [psort_array(array, index, n, k)] of partial_sort.h, not in
              src/: any result for the arrays [dist] and [iarray] *)
          (psort_array : list F -> list nat -> nat -> nat -> list F * list nat).

Variables (n p : nat) (x y w : list F) (sigma : F) (lwork : Z).

(** the buffers [initial_reg] reads and writes *)
Record ir_state := mk_ir_state {
  ir_subset : list Z;
  ir_m : nat;
  ir_fit : fit_state F;   (** dat->wx, dat->wy, est->beta, est->resid *)
  ir_L : list F;
  ir_xty : list F;
  ir_dist : list F;
  ir_iarray : list nat;
  ir_work_pp : list F;
  ir_work_np : list F;
  ir_work_n : list F
}.

(** [while ( *m < n) { ( *m)++; subset[iarray[*m - 1]] = 1;
    info = fitwls(..); if (info == 0) { status = WBACON_ERROR_OK; break; } }];
    [fuel = n - m] is enough: [*m] grows by one per pass *)
Fixpoint ir_grow (fuel : nat) (iarray : list nat) (status : wbacon_error_type)
    (m : nat) (subset : list Z) (fs : fit_state F)
    : wbacon_error_type * nat * list Z * fit_state F :=
  match fuel with
  | O => (status, m, subset, fs)
  | S fuel =>
      if Nat.ltb m n then
        let m := S m in
        let subset := set_nth subset (nth (m - 1) iarray 0) 1%Z in
        let '(info, fs) := fitwls_subset dgels dgels_query n p x y w lwork subset fs in
        if Z.eqb info 0 then (WBACON_ERROR_OK, m, subset, fs)
        else ir_grow fuel iarray status m subset fs
      else (status, m, subset, fs)
  end.

(** [for (i = 0; i < p; i++) for (j = 0; j < n; j++)
    if (subset[j]) xty[i] += w[j] * x[j + i * n] * y[j];] *)
Definition ir_xty_loop (subset : list Z) (xty : list F) : list F :=
  fold_left (fun xty i =>
    fold_left (fun xty j =>
      if Z.eqb (nth j subset 0%Z) 0 then xty
      else set_nth xty i (fadd (get xty i) (fmul (fmul (get w j) (get x (j + i * n))) (get y j))))
      (seq 0 n) xty)
    (seq 0 p) xty.

(** [initial_reg(dat, work, est, subset, m, verbose)] *)
Definition initial_reg (st : ir_state) : wbacon_error_type * ir_state :=
  let status := WBACON_ERROR_OK in
  let '(info, fs) := fitwls_subset dgels dgels_query n p x y w lwork (ir_subset st) (ir_fit st) in
  let '(status, m, subset, fs, dist, iarray) :=
    if negb (Z.eqb info 0) then
      let status := WBACON_ERROR_RANK_DEFICIENT in
      let '(dist, iarray) := psort_array (ir_dist st) (ir_iarray st) n n in
      let '(status, m, subset, fs) :=
        ir_grow (n - ir_m st) iarray status (ir_m st) (ir_subset st) fs in
      (status, m, subset, fs, dist, iarray)
    else (status, ir_m st, ir_subset st, fs, ir_dist st, ir_iarray st) in
  let L := extract_L n p (fs_wx fs) (ir_L st) in
  let xty := ir_xty_loop subset (ir_xty st) in
  let st := mk_ir_state subset m fs L xty dist iarray
              (ir_work_pp st) (ir_work_np st) (ir_work_n st) in
  match compute_ti dtrtri n p x w L (ir_work_pp st) (ir_work_np st) (ir_work_n st)
          sigma (fs_resid fs) subset dist with
  | None => (WBACON_ERROR_TRIANG_MAT_SINGULAR, st)
  | Some dist =>
      (WBACON_ERROR_OK,
       mk_ir_state subset m fs L xty dist iarray (ir_work_pp st) (ir_work_np st) (ir_work_n st))
  end.

End InitialReg.

Arguments ir_state F : clear implicits.

(** [subset] with [subset[iarray[q]] = 1] for [m0 <= q < m0 + k]: the
    entries the retry loop of [initial_reg] sets *)
Definition marked (iarray : list nat) (m0 k : nat) (subset : list Z) (i : nat) : Z :=
  if existsb (fun q => Nat.eqb (nth q iarray 0) i) (seq m0 k) then 1%Z
  else nth i subset 0%Z.

(** ** The loop of [algorithm_4] *)

Section Algorithm4Loop.
Context {F : Type} `{DoubleArith F}.

Variables (dtrtri : nat -> list F -> option (list F)).
Variables (n p collect : nat) (x y w : list F) (sigma : F).

(** the buffers [algorithm_4] reads and writes *)
Record a4_state := mk_a4_state {
  a4_subset0 : list Z;
  a4_subset1 : list Z;
  a4_m : nat;
  a4_cx : chol_xty_state F;   (** est->L, est->xty, the work arrays, iarray *)
  a4_beta : list F;
  a4_resid : list F;
  a4_dist : list F;
  a4_work_n : list F
}.

Inductive a4_outcome :=
| A4_return (e : wbacon_error_type)
| A4_next.

(** one pass through the body of [for (;;)] in [algorithm_4]; [None] when
    the source reads out of bounds: [iarray[*m - 1]] in the retry loop, or
    [dist[*m - 1]] in [select_subset] once [*m > n] *)
Definition a4_body (st : a4_state) : option (a4_outcome * a4_state) :=
  match a4_transition n p collect x y w (a4_m st) (a4_subset0 st) (a4_subset1 st) (a4_cx st) with
  | None => None
  | Some (err, m, subset1, cx) =>
      let st := mk_a4_state (a4_subset0 st) subset1 m cx (a4_beta st) (a4_resid st)
                  (a4_dist st) (a4_work_n st) in
      match err with
      | WBACON_ERROR_OK =>
          let subset0 := memcpy (a4_subset0 st) subset1 n in
          let beta := cholesky_reg (cx_L cx) x (cx_xty cx) (a4_beta st) n p in
          let resid := dgemv_resid n p x beta (memcpy (a4_resid st) y n) in
          let st := mk_a4_state subset0 subset1 m cx beta resid (a4_dist st) (a4_work_n st) in
          match compute_ti dtrtri n p x w (cx_L cx) (cx_work_pp cx) (cx_work_np cx)
                  (a4_work_n st) sigma resid subset1 (a4_dist st) with
          | None => Some (A4_return WBACON_ERROR_TRIANG_MAT_SINGULAR, st)
          | Some dist =>
              let m := S m in
              if Nat.eqb m (p * collect + 1) then
                Some (A4_return WBACON_ERROR_OK,
                      mk_a4_state subset0 subset1 m cx beta resid dist (a4_work_n st))
              else if Nat.ltb n m then None
              else
                let '(dist, subset1) := select_subset select_k dist subset1 m n in
                Some (A4_next, mk_a4_state subset0 subset1 m cx beta resid dist (a4_work_n st))
          end
      | err => Some (A4_return err, st)
      end
  end.

Fixpoint a4_loop (fuel : nat) (st : a4_state) : option (wbacon_error_type * a4_state) :=
  match fuel with
  | O => None
  | S fuel =>
      match a4_body st with
      | None => None
      | Some (A4_return e, st) => Some (e, st)
      | Some (A4_next, st) => a4_loop fuel st
      end
  end.

(** [algorithm_4(dat, work, est, subset0, subset1, m, verbose, collect)];
    every pass that goes on increments [*m], and a pass with [*m > n] reads
    out of bounds, so [n + 1] passes are enough *)
Definition algorithm_4 (st : a4_state) : option (wbacon_error_type * a4_state) :=
  a4_loop (S n) st.

End Algorithm4Loop.

Arguments a4_state F : clear implicits.

(** ** The driver ([wbacon_reg]) *)

Section WbaconReg.
Context {F : Type} `{DoubleArith F}.

Variables (dgels : nat -> nat -> list F -> list F -> list F * list F)
          (dgels_query : nat -> nat -> Z)
          (dtrtri : nat -> list F -> option (list F))
          (qt : F -> F -> Z -> Z -> F)
          (psort_array : list F -> list nat -> nat -> nat -> list F * list nat)
          (** [est->sigma], which no function of src/ assigns *)
          (sigma : F).

(** the arrays and scalars [wbacon_reg] returns through its pointer
    arguments *)
Record wbacon_out := mk_wbacon_out {
  wo_x : list F;
  wo_resid : list F;
  wo_beta : list F;
  wo_subset0 : list Z;
  wo_dist : list F;
  wo_m : Z;
  wo_success : Z;
  wo_maxiter : Z
}.

(** where [wbacon_reg] stands after its steps 0 and 1: either it has
    returned ([WF_done]: the outputs, or [None] when [algorithm_4] reads out
    of bounds), or it calls [algorithm_5] ([WF_step2]) with [work->lwork]
    and the state the buffers then hold *)
Inductive wbacon_front :=
| WF_done (o : option wbacon_out)
| WF_step2 (lwork : Z) (st : a5_state F).

(** [wbacon_reg(x, y, w, resid, beta, subset0, dist, n, p, m, verbose,
    success, collect, alpha, maxiter)] up to the call of [algorithm_5]; the
    [Calloc]ed arrays start at zero; [w_sqrt] is computed but read by no
    function of src/, and is left out. *)
Definition wbacon_reg_front (x y w resid beta : list F) (subset0 : list Z) (dist : list F)
    (n p m collect : nat) (maxiter : Z) : wbacon_front :=
  let subset1 := repeat 0%Z n in
  let fit := mk_fit_state (repeat f0 (n * p)) (repeat f0 n) beta resid in
  let L := repeat f0 (p * p) in
  let xty := repeat f0 p in
  let work_p := repeat f0 p in
  let work_pp := repeat f0 (p * p) in
  let work_np := repeat f0 (n * p) in
  let work_n := repeat f0 n in
  let iarray := repeat 0 n in
  let lwork := fst (fitwls_subset dgels dgels_query n p x y w (-1) subset0 fit) in
  (* STEP 0 *)
  let '(err, ir) := initial_reg dgels dgels_query dtrtri psort_array n p x y w sigma lwork
                      (mk_ir_state subset0 m fit L xty dist iarray work_pp work_np work_n) in
  match err with
  | WBACON_ERROR_OK =>
      let m := p + 1 in
      let '(dist, subset1) := select_subset select_k (ir_dist ir) subset1 m n in
      (* STEP 1 *)
      match algorithm_4 dtrtri n p collect x y w sigma
              (mk_a4_state (ir_subset ir) subset1 m
                 (mk_chol_xty_state (ir_L ir) (ir_xty ir) (ir_work_pp ir) (ir_work_np ir)
                    work_p (ir_iarray ir))
                 (fs_beta (ir_fit ir)) (fs_resid (ir_fit ir)) dist (ir_work_n ir)) with
      | None => WF_done None
      | Some (WBACON_ERROR_OK, a4) =>
          (* algorithm_5(.., subset1, subset0, .., m, maxiter, ..) *)
          WF_step2 lwork
            (mk_a5_state (a4_subset1 a4) (a4_subset0 a4) (Z.of_nat (a4_m a4)) maxiter
               (mk_fit_state (fs_wx (ir_fit ir)) (fs_wy (ir_fit ir)) (a4_beta a4) (a4_resid a4))
               (cx_L (a4_cx a4)) (a4_dist a4) (cx_work_pp (a4_cx a4)) (cx_work_np (a4_cx a4))
               (a4_work_n a4))
      | Some (_, a4) =>
          WF_done (Some (mk_wbacon_out x (a4_resid a4) (a4_beta a4) (a4_subset0 a4) (a4_dist a4)
                           (Z.of_nat (a4_m a4)) 0%Z maxiter))
      end
  | _ =>
      WF_done (Some (mk_wbacon_out x (fs_resid (ir_fit ir)) (fs_beta (ir_fit ir)) (ir_subset ir)
                       (ir_dist ir) (Z.of_nat (ir_m ir)) 0%Z maxiter))
  end.

(** the outputs after STEP 2: [*success] and the buffers [algorithm_5]
    leaves (its [subset1] is the caller's [subset0]), and
    [Memcpy(x, wx, n * p)] *)
Definition wbacon_reg_output (x : list F) (n p : nat) (r : Z * a5_state F) : wbacon_out :=
  let '(success, a5) := r in
  let fs := a5_fit a5 in
  mk_wbacon_out (memcpy x (fs_wx fs) (n * p)) (fs_resid fs) (fs_beta fs)
    (a5_subset1 a5) (a5_dist a5) (a5_m a5) success (a5_maxiter a5).

(** [wbacon_reg]: [None] when [algorithm_4] reads out of bounds *)
Definition wbacon_reg (x y w resid beta : list F) (subset0 : list Z) (dist : list F)
    (n p m collect : nat) (alpha : F) (maxiter : Z) : option wbacon_out :=
  match wbacon_reg_front x y w resid beta subset0 dist n p m collect maxiter with
  | WF_done o => o
  | WF_step2 lwork st =>
      (* STEP 2; *success is 1 at entry *)
      Some (wbacon_reg_output x n p
              (wbacon_reg_step2 dgels dgels_query dtrtri qt n p x y w sigma alpha lwork 1%Z st))
  end.

End WbaconReg.

Arguments wbacon_out F : clear implicits.
Arguments wbacon_front F : clear implicits.

(** The values LAPACK's [dgels] returns for an n-by-1 system [a * b = c],
    in the entries the code reads: [R = -sign(a[0]) * ||a||] in [a[0]]
    (as dlarfg forms it) and the solution [(a . c) / (a . a)] in [c[0]];
    the Householder vector and the rest of [Q^T c], which no function of
    src/ reads for [p = 1], are left as given. Used only for [p = 1]. *)
Definition dgels_col {F : Type} `{DoubleArith F} (n p : nat) (wx wy : list F)
    : list F * list F :=
  let aa := fold_left (fun s i => fadd s (fmul (get wx i) (get wx i))) (seq 0 n) f0 in
  let ac := fold_left (fun s i => fadd s (fmul (get wx i) (get wy i))) (seq 0 n) f0 in
  (set_nth wx 0 (if fltb (get wx 0) f0 then fsqrt aa else fsub f0 (fsqrt aa)),
   set_nth wy 0 (fdiv ac aa)).

(** Rmath's [qt(prob, df, 0, 0)], the upper-tail quantile of Student's t,
    at the arguments of the runs of C2 and C9 below, to four digits:
    [qt(0.05/6, 1) = 38.19] and [qt(0.05/8, 2) = 8.860]; only [df] is
    read. *)
Definition qt_table (prob df : float) (lower_tail log_p : Z) : float :=
  if PrimFloat.ltb df 1.5 then (3819 / 100)%float else (886 / 100)%float.


(** * Proofs *)

(** ** Array lemmas *)

Lemma set_nth_length {A} (l : list A) i v : length (set_nth l i v) = length l.
Proof.
  revert i; induction l as [|h t IH]; intros [|i]; simpl; auto.
Qed.

Lemma nth_set_nth_ne {A} (l : list A) i j v d :
  i <> j -> nth j (set_nth l i v) d = nth j l d.
Proof.
  revert i j; induction l as [|h t IH]; intros [|i] [|j] Hij; simpl; auto.
  congruence.
Qed.

Lemma nth_set_nth_eq {A} (l : list A) i v d :
  i < length l -> nth i (set_nth l i v) d = v.
Proof.
  revert i; induction l as [|h t IH]; intros [|i] Hi; simpl in *; try lia; auto.
  apply IH; lia.
Qed.

(** writing [v k] at every index [k] of a range, as the C loops
    [for (k = start; k < start + len; k++) a[k] = v(k);] do *)
Section FoldSet.
Context {A : Type}.

Lemma fold_set_length (v : nat -> A) ks l :
  length (fold_left (fun l k => set_nth l k (v k)) ks l) = length l.
Proof.
  revert l; induction ks as [|k ks IH]; intros l; simpl; auto.
  rewrite IH; apply set_nth_length.
Qed.

Lemma fold_set_outside (v : nat -> A) start len l i d :
  i < start \/ start + len <= i ->
  nth i (fold_left (fun l k => set_nth l k (v k)) (seq start len) l) d = nth i l d.
Proof.
  revert start l; induction len as [|len IH]; intros start l Hi; simpl; auto.
  rewrite IH by lia; apply nth_set_nth_ne; lia.
Qed.

Lemma fold_set_inside (v : nat -> A) start len l i d :
  start <= i < start + len -> i < length l ->
  nth i (fold_left (fun l k => set_nth l k (v k)) (seq start len) l) d = v i.
Proof.
  revert start l; induction len as [|len IH]; intros start l Hi Hl; simpl; [lia|].
  destruct (Nat.eq_dec i start) as [->|Hne].
  - rewrite fold_set_outside by lia; apply nth_set_nth_eq; auto.
  - apply IH; [lia|]; rewrite set_nth_length; auto.
Qed.

End FoldSet.

Section FoldLemmas.
Context {F : Type} `{DoubleArith F}.

Lemma fold_left_get_preserved (g : list F * list F -> nat -> list F * list F)
    (idx : nat) (js : list nat) :
  (forall Lu j, In j js -> get (fst (g Lu j)) idx = get (fst Lu) idx) ->
  forall Lu, get (fst (fold_left g js Lu)) idx = get (fst Lu) idx.
Proof.
  induction js as [|j js IH]; intros Hg Lu; simpl; auto.
  rewrite IH.
  - apply Hg; left; reflexivity.
  - intros Lu' j' Hj'; apply Hg; right; exact Hj'.
Qed.

Lemma fold_left_length_preserved (g : list F * list F -> nat -> list F * list F)
    (js : list nat) :
  (forall Lu j, length (fst (g Lu j)) = length (fst Lu)) ->
  forall Lu, length (fst (fold_left g js Lu)) = length (fst Lu).
Proof.
  induction js as [|j js IH]; intros Hg Lu; simpl; auto.
  rewrite IH by exact Hg. apply Hg.
Qed.

Lemma chol_update_inner_get p i b c Lu j idx :
  idx <> p * i + j ->
  get (fst (chol_update_inner p i b c Lu j)) idx = get (fst Lu) idx.
Proof.
  destruct Lu as [L u]; intros Hne; unfold get; simpl.
  rewrite !nth_set_nth_ne by lia; reflexivity.
Qed.

Lemma chol_downdate_inner_get p i b c Lu j idx :
  idx <> p * i + j ->
  get (fst (chol_downdate_inner p i b c Lu j)) idx = get (fst Lu) idx.
Proof.
  destruct Lu as [L u]; intros Hne; unfold get; simpl.
  rewrite !nth_set_nth_ne by lia; reflexivity.
Qed.

Lemma chol_update_inner_length p i b c Lu j :
  length (fst (chol_update_inner p i b c Lu j)) = length (fst Lu).
Proof. destruct Lu; simpl; rewrite !set_nth_length; reflexivity. Qed.

Lemma chol_downdate_inner_length p i b c Lu j :
  length (fst (chol_downdate_inner p i b c Lu j)) = length (fst Lu).
Proof. destruct Lu; simpl; rewrite !set_nth_length; reflexivity. Qed.

End FoldLemmas.

Section ColumnLemmas.
Context {F : Type} `{DoubleArith F}.

(** a column step of either pass writes only [L[i,i]] and [L[j,i]], j > i *)
Lemma chol_downdate_col_get p i Lu s idx :
  chol_downdate_col p Lu i = Some s ->
  idx <> i * (p + 1) ->
  (forall j, S i <= j < p -> idx <> p * i + j) ->
  get (fst s) idx = get (fst Lu) idx.
Proof.
  destruct Lu as [L u]; unfold chol_downdate_col.
  destruct (fltb _ f0); intros Hs Hd Hj; inversion Hs; subst; clear Hs.
  rewrite fold_left_get_preserved.
  - unfold get; simpl; rewrite nth_set_nth_ne by lia; reflexivity.
  - intros Lu j Hin; apply in_seq in Hin.
    apply chol_downdate_inner_get, Hj; lia.
Qed.

Lemma chol_downdate_col_length p i Lu s :
  chol_downdate_col p Lu i = Some s -> length (fst s) = length (fst Lu).
Proof.
  destruct Lu as [L u]; unfold chol_downdate_col.
  destruct (fltb _ f0); intros Hs; inversion Hs; subst; clear Hs.
  rewrite fold_left_length_preserved by apply chol_downdate_inner_length.
  simpl; apply set_nth_length.
Qed.

Lemma chol_downdate_col_none p i Lu :
  chol_downdate_col p Lu i = None <-> fltb (downdate_radicand p i Lu) f0 = true.
Proof.
  destruct Lu as [L u]; unfold chol_downdate_col.
  destruct (fltb _ f0); split; congruence.
Qed.

Lemma chol_downdate_col_diag p i Lu s :
  i < p -> length (fst Lu) = p * p ->
  chol_downdate_col p Lu i = Some s ->
  get (fst s) (i * (p + 1)) = fsqrt (downdate_radicand p i Lu).
Proof.
  destruct Lu as [L u]; unfold chol_downdate_col; simpl fst.
  intros Hi HL; destruct (fltb _ f0); intros Hs; inversion Hs; subst; clear Hs.
  rewrite fold_left_get_preserved.
  - unfold get; simpl; rewrite nth_set_nth_eq by nia; reflexivity.
  - intros Lu j Hin; apply in_seq in Hin.
    apply chol_downdate_inner_get; nia.
Qed.

Lemma chol_update_col_get p i Lu idx :
  idx <> i * (p + 1) ->
  (forall j, S i <= j < p -> idx <> p * i + j) ->
  get (fst (chol_update_col p Lu i)) idx = get (fst Lu) idx.
Proof.
  destruct Lu as [L u]; unfold chol_update_col; intros Hd Hj.
  rewrite fold_left_get_preserved.
  - unfold get; simpl; rewrite nth_set_nth_ne by lia; reflexivity.
  - intros Lu j Hin; apply in_seq in Hin.
    apply chol_update_inner_get, Hj; lia.
Qed.

Lemma chol_update_col_diag p i Lu :
  get (fst (chol_update_col p Lu i)) (i * (p + 1)) =
  if Nat.ltb (i * (p + 1)) (length (fst Lu))
  then fhypot (get (fst Lu) (i * (p + 1))) (get (snd Lu) i)
  else get (fst Lu) (i * (p + 1)).
Proof.
  destruct Lu as [L u]; unfold chol_update_col; simpl fst; simpl snd.
  rewrite fold_left_get_preserved.
  - unfold get; simpl.
    destruct (Nat.ltb_spec (i * (p + 1)) (length L)).
    + rewrite nth_set_nth_eq by lia; reflexivity.
    + rewrite !nth_overflow; rewrite ?set_nth_length; auto; lia.
  - intros Lu j Hin; apply in_seq in Hin.
    apply chol_update_inner_get; nia.
Qed.

(** ** Loop lemmas for [chol_downdate] *)

Lemma chol_downdate_loop_cases p k Lu :
  fst (chol_downdate_loop p k Lu) = WBACON_ERROR_OK \/
  fst (chol_downdate_loop p k Lu) = WBACON_ERROR_RANK_DEFICIENT.
Proof.
  induction k as [|k IH]; simpl; auto.
  destruct (chol_downdate_loop p k Lu) as [e s]; simpl in IH.
  destruct e; simpl; auto; try (destruct IH; discriminate).
  destruct (chol_downdate_col p s k); simpl; auto.
Qed.

Lemma chol_downdate_loop_stuck p k d Lu s :
  chol_downdate_loop p k Lu = (WBACON_ERROR_RANK_DEFICIENT, s) ->
  chol_downdate_loop p (d + k) Lu = (WBACON_ERROR_RANK_DEFICIENT, s).
Proof.
  intros Hk; induction d as [|d IH]; simpl; auto.
  rewrite IH; reflexivity.
Qed.

Lemma chol_downdate_loop_fail_inv p k Lu s :
  chol_downdate_loop p k Lu = (WBACON_ERROR_RANK_DEFICIENT, s) ->
  exists k', k' < k /\ chol_downdate_loop p k' Lu = (WBACON_ERROR_OK, s) /\
             chol_downdate_col p s k' = None.
Proof.
  induction k as [|k IH]; simpl; intros Hk; [discriminate|].
  destruct (chol_downdate_loop p k Lu) as [e s0] eqn:E.
  destruct e.
  - destruct (chol_downdate_col p s0 k) eqn:C; inversion Hk; subst.
    exists k; auto.
  - inversion Hk; subst. destruct (IH eq_refl) as (k' & ? & ? & ?).
    exists k'; split; [lia | auto].
  - inversion Hk.
  - inversion Hk.
Qed.

Lemma chol_downdate_loop_length p k Lu e s :
  chol_downdate_loop p k Lu = (e, s) -> length (fst s) = length (fst Lu).
Proof.
  revert e s; induction k as [|k IH]; simpl; intros e s Hk.
  - inversion Hk; reflexivity.
  - destruct (chol_downdate_loop p k Lu) as [e0 s0] eqn:E.
    destruct e0.
    + destruct (chol_downdate_col p s0 k) eqn:C; inversion Hk; subst.
      * rewrite (chol_downdate_col_length _ _ _ _ C); eapply IH; eauto.
      * eapply IH; eauto.
    + inversion Hk; subst; eapply IH; eauto.
    + inversion Hk; subst; eapply IH; eauto.
    + inversion Hk; subst; eapply IH; eauto.
Qed.

Lemma chol_downdate_loop_step p k Lu s' :
  chol_downdate_loop p (S k) Lu = (WBACON_ERROR_OK, s') ->
  exists s, chol_downdate_loop p k Lu = (WBACON_ERROR_OK, s) /\
            chol_downdate_col p s k = Some s'.
Proof.
  simpl; destruct (chol_downdate_loop p k Lu) as [e s] eqn:E.
  destruct e; intros Hk; try discriminate.
  destruct (chol_downdate_col p s k) eqn:C; inversion Hk; subst; eauto.
Qed.

(** later columns leave [L[k,k]] as column [k] wrote it *)
Lemma chol_downdate_loop_keeps_diag p k m Lu s1 sm :
  S k <= m -> m <= p - 1 ->
  chol_downdate_loop p (S k) Lu = (WBACON_ERROR_OK, s1) ->
  chol_downdate_loop p m Lu = (WBACON_ERROR_OK, sm) ->
  get (fst sm) (k * (p + 1)) = get (fst s1) (k * (p + 1)).
Proof.
  intros Hkm; revert sm; induction Hkm as [|m Hkm IH]; intros sm Hm H1 Hsm.
  - rewrite H1 in Hsm; inversion Hsm; reflexivity.
  - destruct (chol_downdate_loop_step _ _ _ _ Hsm) as (s & Hs & Hc).
    rewrite (chol_downdate_col_get _ _ _ _ _ Hc).
    + apply IH; auto; lia.
    + nia.
    + intros j Hj; nia.
Qed.

End ColumnLemmas.

Lemma last_diag_index p : 1 <= p -> (p - 1) * (p + 1) = p * p - 1.
Proof. intros; nia. Qed.

Section DowndateLemmas.
Context {F : Type} `{DoubleArith F}.

Lemma chol_downdate_final_radicand p L u :
  1 <= p ->
  fsub (sq (get L (p * p - 1))) (sq (get u (p - 1))) =
  downdate_radicand p (p - 1) (L, u).
Proof. intros Hp; unfold downdate_radicand; rewrite last_diag_index by exact Hp; reflexivity. Qed.

Lemma chol_downdate_loop_all_ok p L u :
  (forall k s, k < p -> chol_downdate_loop p k (L, u) = (WBACON_ERROR_OK, s) ->
               fltb (downdate_radicand p k s) f0 = false) ->
  forall k, k <= p - 1 -> exists s, chol_downdate_loop p k (L, u) = (WBACON_ERROR_OK, s).
Proof.
  intros Hall k; induction k as [|k IH]; intros Hk; simpl; eauto.
  destruct IH as (s & Hs); [lia|]; rewrite Hs.
  destruct (chol_downdate_col p s k) eqn:C; eauto.
  apply chol_downdate_col_none in C; rewrite (Hall k s) in C; [discriminate | lia | exact Hs].
Qed.

End DowndateLemmas.

(** ** C4: failure and result of the rank-one downdate *)

(** C4. [chol_downdate] returns [WBACON_ERROR_RANK_DEFICIENT] exactly when,
    at some column step [k < p] that the loop reaches, the squared diagonal
    entry minus the squared update-vector entry (the radicand) is negative;
    when no reached radicand is negative it returns [WBACON_ERROR_OK] and the
    new diagonal entry [L[k,k]] is the square root of the radicand of step
    [k]. Stated for any arithmetic (real numbers or IEEE doubles). *)
Theorem chol_downdate_fails_iff_negative {F : Type} `{DoubleArith F}
    (p : nat) (L u : list F) :
  1 <= p -> length L = p * p ->
  (fst (chol_downdate L u p) = WBACON_ERROR_RANK_DEFICIENT <->
   exists k s, k < p /\ chol_downdate_loop p k (L, u) = (WBACON_ERROR_OK, s) /\
               fltb (downdate_radicand p k s) f0 = true) /\
  ((forall k s, k < p -> chol_downdate_loop p k (L, u) = (WBACON_ERROR_OK, s) ->
                fltb (downdate_radicand p k s) f0 = false) ->
   exists L' u', chol_downdate L u p = (WBACON_ERROR_OK, (L', u')) /\
     forall k, k < p -> exists s,
       chol_downdate_loop p k (L, u) = (WBACON_ERROR_OK, s) /\
       get L' (k * (p + 1)) = fsqrt (downdate_radicand p k s)).
Proof.
  intros Hp HL; split.
  - unfold chol_downdate; split.
    + destruct (chol_downdate_loop p (p - 1) (L, u)) as [e [L1 u1]] eqn:E.
      destruct e.
      * rewrite chol_downdate_final_radicand by exact Hp.
        destruct (fltb (downdate_radicand p (p - 1) (L1, u1)) f0) eqn:A;
          simpl; intros Hf; [|discriminate].
        exists (p - 1), (L1, u1); repeat split; auto; lia.
      * intros _. destruct (chol_downdate_loop_fail_inv _ _ _ _ E) as (k & Hk & Hl & Hc).
        exists k, (L1, u1); repeat split; auto; [lia|].
        apply chol_downdate_col_none; exact Hc.
      * pose proof (chol_downdate_loop_cases p (p - 1) (L, u)) as C;
          rewrite E in C; simpl in C; destruct C; discriminate.
      * pose proof (chol_downdate_loop_cases p (p - 1) (L, u)) as C;
          rewrite E in C; simpl in C; destruct C; discriminate.
    + intros (k & s & Hk & Hl & Ha).
      destruct (Nat.eq_dec k (p - 1)) as [->|Hne].
      * rewrite Hl; destruct s as [L1 u1].
        rewrite chol_downdate_final_radicand, Ha by exact Hp; reflexivity.
      * assert (HS : chol_downdate_loop p (S k) (L, u) = (WBACON_ERROR_RANK_DEFICIENT, s)).
        { simpl; rewrite Hl.
          apply chol_downdate_col_none in Ha; rewrite Ha; reflexivity. }
        pose proof (chol_downdate_loop_stuck p (S k) (p - 1 - S k) (L, u) s HS) as Hst.
        replace (p - 1 - S k + S k) with (p - 1) in Hst by lia.
        rewrite Hst; reflexivity.
  - intros Hall.
    destruct (chol_downdate_loop_all_ok p L u Hall (p - 1)) as ([L1 u1] & E); [lia|].
    assert (HL1 : length L1 = p * p)
      by (pose proof (chol_downdate_loop_length _ _ _ _ _ E) as HE; simpl in HE; lia).
    unfold chol_downdate; rewrite E.
    rewrite chol_downdate_final_radicand by exact Hp.
    rewrite (Hall (p - 1) (L1, u1)) by (auto; lia).
    eexists _, _; split; [reflexivity|].
    intros k Hk.
    destruct (Nat.eq_dec k (p - 1)) as [->|Hne].
    + exists (L1, u1); split; auto.
      rewrite last_diag_index by exact Hp.
      unfold get; rewrite nth_set_nth_eq by lia; reflexivity.
    + destruct (chol_downdate_loop_all_ok p L u Hall k) as (sk & Ek); [lia|].
      exists sk; split; auto.
      destruct (chol_downdate_loop_all_ok p L u Hall (S k)) as (s1 & E1); [lia|].
      unfold get; rewrite nth_set_nth_ne by nia; fold (get L1 (k * (p + 1))).
      change L1 with (fst (L1, u1)).
      rewrite (chol_downdate_loop_keeps_diag p k (p - 1) (L, u) s1 (L1, u1)); auto; try lia.
      destruct (chol_downdate_loop_step _ _ _ _ E1) as (sk' & Ek' & Ck).
      rewrite Ek in Ek'; inversion Ek'; subst sk'.
      apply (chol_downdate_col_diag p k sk s1); auto; try lia.
      pose proof (chol_downdate_loop_length _ _ _ _ _ Ek) as HE; simpl in HE; lia.
Qed.

(** ** C10: the rank-one update *)

Lemma seq_split_at k n : k < n -> seq 0 n = seq 0 k ++ k :: seq (S k) (n - S k).
Proof.
  intros Hk; replace n with (k + S (n - S k)) at 1 by lia.
  rewrite seq_app; reflexivity.
Qed.

Lemma get_R_nonneg_overflow (l : list R) i : length l <= i -> (0 <= get l i)%R.
Proof. intros; unfold get; rewrite nth_overflow by lia; simpl; lra. Qed.

(** C10 (as amended). [chol_update] has no error result: it is a total
    function of [L], [u] and [p]. In exact real arithmetic every diagonal
    entry [L[k,k]], [k < p], of its result is nonnegative, as each is the
    result of [hypot] or of the square root of a sum of squares. *)
Theorem chol_update_diag_nonneg_real (p : nat) (L u : list R) :
  1 <= p ->
  forall k, k < p -> (0 <= get (fst (chol_update L u p)) (k * (p + 1)))%R.
Proof.
  intros Hp k Hk; unfold chol_update.
  destruct (fold_left (chol_update_col p) (seq 0 (p - 1)) (L, u)) as [L1 u1] eqn:E.
  simpl fst.
  destruct (Nat.eq_dec k (p - 1)) as [->|Hne].
  - rewrite last_diag_index by exact Hp.
    destruct (Nat.ltb_spec (p * p - 1) (length L1)).
    + unfold get at 1; rewrite nth_set_nth_eq by lia; apply sqrt_pos.
    + apply get_R_nonneg_overflow; rewrite set_nth_length; lia.
  - unfold get at 1; rewrite nth_set_nth_ne by nia; fold (get L1 (k * (p + 1))).
    change L1 with (fst (L1, u1)); rewrite <- E.
    rewrite (seq_split_at k (p - 1)) by lia.
    rewrite fold_left_app; simpl fold_left.
    rewrite fold_left_get_preserved.
    + rewrite chol_update_col_diag.
      destruct (Nat.ltb _ _) eqn:Hlt.
      * apply sqrt_pos.
      * apply Nat.ltb_ge in Hlt; apply get_R_nonneg_overflow; exact Hlt.
    + intros Lu j Hin; apply in_seq in Hin.
      apply chol_update_col_get; [nia|].
      intros j' Hj'; nia.
Qed.

(** C10 counterexample. In IEEE double arithmetic, with p = 2, the factor
    L = [[0, 0], [0, 1]] (a zero diagonal entry) and u = (1, 1), the first
    column divides by L[0,0] = 0 (b = c = +inf), L[1,0] becomes inf/inf = NaN
    and the diagonal entry L[1,1] written by the final square root is NaN,
    which is not nonnegative. *)
Lemma chol_update_nan_diag :
  PrimFloat.is_nan (get (fst (chol_update [0; 0; 0; 1]%float [1; 1]%float 2)) 3) = true /\
  PrimFloat.leb 0 (get (fst (chol_update [0; 0; 0; 1]%float [1; 1]%float 2)) (1 * (2 + 1))) = false.
Proof. vm_compute; split; reflexivity. Qed.

(** ** C3: transactional [update_chol_xty] *)

Section UpdateCholXtyProofs.
Context {F : Type} `{DoubleArith F}.

Lemma chol_update_col_length p Lu i :
  length (fst (chol_update_col p Lu i)) = length (fst Lu).
Proof.
  destruct Lu as [L u]; unfold chol_update_col.
  rewrite fold_left_length_preserved by apply chol_update_inner_length.
  simpl; apply set_nth_length.
Qed.

Lemma chol_update_length (L u : list F) p :
  length (fst (chol_update L u p)) = length L.
Proof.
  unfold chol_update.
  pose proof (fold_left_length_preserved (chol_update_col p) (seq 0 (p - 1))
                (fun Lu i => chol_update_col_length p Lu i) (L, u)) as HL.
  destruct (fold_left (chol_update_col p) (seq 0 (p - 1)) (L, u)); simpl in *.
  rewrite set_nth_length; exact HL.
Qed.

Lemma chol_downdate_cases (L u : list F) p :
  (fst (chol_downdate L u p) = WBACON_ERROR_OK \/
   fst (chol_downdate L u p) = WBACON_ERROR_RANK_DEFICIENT) /\
  length (fst (snd (chol_downdate L u p))) = length L.
Proof.
  unfold chol_downdate.
  pose proof (chol_downdate_loop_cases p (p - 1) (L, u)) as C.
  destruct (chol_downdate_loop p (p - 1) (L, u)) as [e [L1 u1]] eqn:E.
  pose proof (chol_downdate_loop_length _ _ _ _ _ E) as HE; simpl in C, HE.
  destruct e; simpl; try (destruct C; discriminate).
  - destruct (fltb _ f0); simpl; rewrite ?set_nth_length; auto.
  - auto.
Qed.

Lemma xty_obs_length n p x y weight op i (xtx xty : list F) :
  length (snd (xty_obs n p x y weight op i xtx xty)) = length xty.
Proof.
  unfold xty_obs; generalize (seq 0 p) xtx xty.
  induction l as [|j js IH]; intros a b; simpl; auto.
  rewrite IH; apply set_nth_length.
Qed.

Lemma memcpy_restore {A} (dst src w : list A) k :
  length dst = k -> length src = k -> memcpy dst (memcpy w src k) k = src.
Proof.
  intros Hd Hs; rewrite <- Hs in *; clear Hs; unfold memcpy.
  rewrite firstn_all, firstn_app, Nat.sub_diag, firstn_O, app_nil_r, firstn_all.
  rewrite (skipn_all2 dst) by lia; apply app_nil_r.
Qed.

(** the invariant of both passes: the snapshots are untouched and the
    factor and [xty] keep their sizes *)
Definition snapshot_inv (p : nat) (W1 W2 : list F) (st : chol_xty_state F) : Prop :=
  cx_work_pp st = W1 /\ cx_work_np st = W2 /\
  length (cx_L st) = p * p /\ length (cx_xty st) = p.

Lemma first_pass_inv n p x y weight s0 s1 W1 W2 is :
  forall acc, snapshot_inv p W1 W2 (fst (fst acc)) ->
  snapshot_inv p W1 W2
    (fst (fst (fold_left (first_pass_step n p x y weight s0 s1) is acc))).
Proof.
  induction is as [|i is IH]; intros [[st nu] nd] Hinv; simpl; auto.
  apply IH; unfold first_pass_step.
  destruct (Z.gtb _ _).
  - destruct (xty_obs n p x y weight fadd i (cx_work_p st) (cx_xty st)) as [xtx xty] eqn:X.
    pose proof (xty_obs_length n p x y weight fadd i (cx_work_p st) (cx_xty st)) as HX.
    rewrite X in HX; simpl in HX.
    pose proof (chol_update_length (cx_L st) xtx p) as HU.
    destruct (chol_update (cx_L st) xtx p) as [L xtx'].
    unfold snapshot_inv in *; simpl in *.
    destruct Hinv as (? & ? & ? & ?); repeat split; try assumption; lia.
  - unfold snapshot_inv in *; destruct (Z.ltb _ _); simpl in *;
      destruct Hinv as (? & ? & ? & ?); repeat split; assumption.
Qed.

Lemma second_pass_fail n p x y weight W1 W2 ks :
  forall st e st', snapshot_inv p W1 W2 st ->
  second_pass n p x y weight ks st = (e, st') -> e <> WBACON_ERROR_OK ->
  e = WBACON_ERROR_RANK_DEFICIENT /\
  (exists L', length L' = p * p /\ cx_L st' = memcpy L' W1 (p * p)) /\
  (exists xty', length xty' = p /\ cx_xty st' = memcpy xty' W2 p).
Proof.
  induction ks as [|k ks IH]; intros st e st' Hinv Hp He; simpl in Hp.
  - inversion Hp; subst; congruence.
  - destruct (xty_obs n p x y weight fsub (nth k (cx_iarray st) 0)
                (cx_work_p st) (cx_xty st)) as [xtx xty] eqn:X.
    pose proof (xty_obs_length n p x y weight fsub (nth k (cx_iarray st) 0)
                  (cx_work_p st) (cx_xty st)) as HX.
    rewrite X in HX; simpl in HX.
    destruct (chol_downdate_cases (cx_L st) xtx p) as [C HL].
    destruct (chol_downdate (cx_L st) xtx p) as [e0 [L xtx']]; simpl in C, HL.
    destruct Hinv as (H1 & H2 & H3 & H4).
    destruct e0; try (destruct C; discriminate).
    + eapply IH; eauto. unfold snapshot_inv; simpl; repeat split; try assumption; lia.
    + inversion Hp; subst; simpl; split; [reflexivity|].
      split; [exists L | exists xty]; split; auto; lia.
Qed.

End UpdateCholXtyProofs.

(** C3. If [update_chol_xty] fails (any downdate of the second pass fails),
    the error is [WBACON_ERROR_RANK_DEFICIENT] and on return the factor
    [L] and [xty] are exactly their values at entry: the snapshot taken in
    [work_pp] / [work_np] before the first pass is copied back. *)
Theorem update_chol_xty_restores_on_failure {F : Type} `{DoubleArith F}
    (n p : nat) (x y weight : list F) (subset0 subset1 : list Z)
    (st st' : chol_xty_state F) (e : wbacon_error_type) :
  length (cx_L st) = p * p -> length (cx_xty st) = p ->
  update_chol_xty n p x y weight subset0 subset1 st = (e, st') ->
  e <> WBACON_ERROR_OK ->
  cx_L st' = cx_L st /\ cx_xty st' = cx_xty st /\ e = WBACON_ERROR_RANK_DEFICIENT.
Proof.
  intros HL Hx Hu He; unfold update_chol_xty in Hu.
  set (st0 := mk_chol_xty_state (cx_L st) (cx_xty st)
                (memcpy (cx_work_pp st) (cx_L st) (p * p))
                (memcpy (cx_work_np st) (cx_xty st) p)
                (cx_work_p st) (cx_iarray st)) in Hu.
  pose proof (first_pass_inv n p x y weight subset0 subset1
                (memcpy (cx_work_pp st) (cx_L st) (p * p))
                (memcpy (cx_work_np st) (cx_xty st) p) (seq 0 n) (st0, 0, 0)) as Hf.
  destruct (fold_left (first_pass_step n p x y weight subset0 subset1) (seq 0 n) (st0, 0, 0))
    as [[st1 nu] nd].
  simpl in Hf.
  destruct (second_pass_fail n p x y weight
              (memcpy (cx_work_pp st) (cx_L st) (p * p))
              (memcpy (cx_work_np st) (cx_xty st) p) (seq 0 nd) st1 e st')
    as (Hrd & (L' & HL' & EL) & (xty' & Hx' & Ex)); auto.
  - apply Hf; unfold snapshot_inv; simpl; repeat split; auto.
  - rewrite EL, Ex, !memcpy_restore by auto; auto.
Qed.

(** ** C5: [select_subset] *)

(** C5 (code_bug evidence). For scores [x = (2, 1)], [m = 1], [n = 2], the
    correct subset is the observation with the smallest score, observation 1:
    membership [(0, 1)]. Whatever in-place selection routine stands for
    [select_k] (any routine that only rearranges [x]), [select_subset]
    marks positions of the rearranged array, and does not return [(0, 1)]. *)
Theorem select_subset_marks_positions
    (selk : list float -> nat -> nat -> nat -> list float) :
  Permutation (selk [2; 1]%float 0 1 0) [2; 1]%float ->
  snd (select_subset selk [2; 1]%float [0; 0]%Z 1 2) <> [0; 1]%Z.
Proof.
  intros Hp; unfold select_subset.
  replace (2 - 1) with 1 by reflexivity; replace (1 - 1) with 0 by reflexivity.
  apply Permutation_sym, Permutation_length_2_inv in Hp.
  destruct Hp as [E | E]; rewrite E; vm_compute; discriminate.
Qed.

(** ** C6: the rank check of [fitwls] *)

Section FitwlsProofs.
Context {F : Type} `{DoubleArith F}.

Lemma existsb_seq_iff (f : nat -> bool) p :
  existsb f (seq 0 p) = true <-> exists i, i < p /\ f i = true.
Proof.
  rewrite existsb_exists; split.
  - intros (i & Hi & Hf); apply in_seq in Hi; exists i; split; [lia | exact Hf].
  - intros (i & Hi & Hf); exists i; split; [apply in_seq; lia | exact Hf].
Qed.

End FitwlsProofs.

(** C6. After the weighted QR solve ([lwork >= 0]), [fitwls] returns 1
    (RankDeficient) exactly when some diagonal entry [R[i,i]], [i < p], of
    the triangular factor returned by dgels has [|R[i,i]| < sqrt(DBL_EPSILON)],
    and returns 0 otherwise; when it returns 1 the output buffers [beta]
    and [resid] are left as they were. *)
Theorem fitwls_rank_check {F : Type} `{DoubleArith F}
    (dgels : nat -> nat -> list F -> list F -> list F * list F)
    (dgels_query : nat -> nat -> Z)
    (n p : nat) (x y weight : list F) (lwork : Z) (st : fit_state F) :
  (0 <= lwork)%Z ->
  let W := fitwls_weighting n p x y weight (fs_wx st) (fs_wy st) in
  let R := fst (dgels n p (fst W) (snd W)) in
  let r := fitwls dgels dgels_query n p x y weight lwork st in
  (fst r = 1%Z <->
   exists i, i < p /\ fltb (fabs (get R ((n + 1) * i))) (fsqrt DBL_EPSILON) = true) /\
  (fst r = 0%Z \/ fst r = 1%Z) /\
  (fst r = 1%Z -> fs_beta (snd r) = fs_beta st /\ fs_resid (snd r) = fs_resid st).
Proof.
  intros Hl W R r; subst r R W; unfold fitwls.
  destruct (Z.ltb_spec lwork 0) as [Hlt | _]; [lia|].
  destruct (fitwls_weighting n p x y weight (fs_wx st) (fs_wy st)) as [wx wy]; simpl.
  destruct (dgels n p wx wy) as [R wy']; simpl.
  unfold rank_deficient.
  destruct (existsb _ (seq 0 p)) eqn:E; simpl.
  - apply existsb_seq_iff in E; repeat split; auto.
  - split; [split; [discriminate|] | split; [left; reflexivity | discriminate]].
    intros Hex; apply existsb_seq_iff in Hex; congruence.
Qed.

(** ** C1: the score of [compute_ti] *)

(** Claim C1. In exact arithmetic, whenever [compute_ti] succeeds, every
    score [tis[i]] with [i < n] equals [|resid_i| / (sigma * sqrt(1 + h_i))]
    for an observation outside the subset ([subset[i] = 0]) and
    [|resid_i| / (sigma * sqrt(1 - h_i))] for one inside it
    ([subset[i] = 1]), where [h_i] is entry [i] of the weighted hat
    diagonal computed by [hat_matrix]. *)
Theorem compute_ti_sign (dtrtri : nat -> list R -> option (list R)) (n p : nat)
    (x weight L work_pp work_np hat0 : list R) (sigma : R) (resid : list R)
    (subset : list Z) (tis0 tis : list R) :
  length tis0 = n ->
  compute_ti dtrtri n p x weight L work_pp work_np hat0 sigma resid subset tis0
    = Some tis ->
  exists hat,
    hat_matrix dtrtri n p x weight L work_pp work_np hat0 = Some hat /\
    forall i, i < n ->
      (nth i subset 0%Z = 0%Z ->
         get tis i = (Rabs (get resid i) / (sigma * sqrt (1 + get hat i)))%R) /\
      (nth i subset 0%Z = 1%Z ->
         get tis i = (Rabs (get resid i) / (sigma * sqrt (1 - get hat i)))%R).
Proof.
  intros Hlen Hc; unfold compute_ti in Hc.
  destruct (hat_matrix dtrtri n p x weight L work_pp work_np hat0) as [hat|] eqn:Eh;
    [|discriminate].
  set (T := fold_left _ _ tis0) in Hc.
  assert (Ht : tis = T) by congruence; clear Hc; subst tis.
  exists hat; split; [reflexivity|].
  intros i Hi; subst T; split; intros Hs; unfold get at 1;
    rewrite (fold_set_inside (ti_value sigma resid hat subset)) by lia;
    unfold ti_value; rewrite Hs; simpl.
  - replace (1 + IZR (1 - 2 * 0) * get hat i)%R with (1 + get hat i)%R
      by (simpl; ring); reflexivity.
  - replace (1 + IZR (1 - 2 * 1) * get hat i)%R with (1 - get hat i)%R
      by (simpl; ring); reflexivity.
Qed.

(** ** Lemmas on [algorithm_5] *)

Section Algorithm5Proofs.
Context {F : Type} `{DoubleArith F}.
Variables (dgels : nat -> nat -> list F -> list F -> list F * list F)
          (dgels_query : nat -> nat -> Z)
          (dtrtri : nat -> list F -> option (list F))
          (qt : F -> F -> Z -> Z -> F).
Variables (n p : nat) (x y w : list F) (sigma alpha : F) (lwork : Z).

Lemma new_subset_fold_gen (dist : list F) (cutoff : F) ks s m0 :
  fst (fold_left (fun acc i =>
         let '(s, m) := acc in
         if fltb (get dist i) cutoff then (set_nth s i 1%Z, (m + 1)%Z)
         else (set_nth s i 0%Z, m)) ks (s, m0))
  = fold_left (fun s i => set_nth s i (if fltb (get dist i) cutoff then 1%Z else 0%Z))
      ks s.
Proof.
  revert s m0; induction ks as [|k ks IH]; intros s m0; simpl; auto.
  destruct (fltb (get dist k) cutoff); apply IH.
Qed.

Lemma new_subset_spec (dist : list F) (cutoff : F) s :
  length (fst (new_subset n dist cutoff s)) = length s /\
  forall i, i < n -> i < length s ->
    nth i (fst (new_subset n dist cutoff s)) 0%Z
    = if fltb (get dist i) cutoff then 1%Z else 0%Z.
Proof.
  unfold new_subset; rewrite new_subset_fold_gen; split.
  - apply (fold_set_length (fun i => if fltb (get dist i) cutoff then 1%Z else 0%Z)).
  - intros i Hi Hs.
    apply (fold_set_inside (fun i => if fltb (get dist i) cutoff then 1%Z else 0%Z));
      lia.
Qed.

Lemma subsets_identical_iff s0 s1 :
  length s0 = n -> length s1 = n ->
  subsets_identical n s0 s1 = true <-> s0 = s1.
Proof.
  intros H0 H1; unfold subsets_identical; rewrite forallb_forall; split.
  - intros Hall; apply nth_ext with (d := 0%Z) (d' := 0%Z); [congruence|].
    intros i Hi; apply Z.lxor_eq_0_iff, Z.eqb_eq, Hall, in_seq; lia.
  - intros <- i _; apply Z.eqb_eq, Z.lxor_eq_0_iff; reflexivity.
Qed.

Lemma memcpy_all {A} (dst src : list A) k :
  length src = k -> length dst = k -> memcpy dst src k = src.
Proof.
  intros Hs Hd; unfold memcpy.
  rewrite firstn_all2 by lia; rewrite skipn_all2 by lia; apply app_nil_r.
Qed.

(** what a pass of the loop that reaches the cutoff leaves in the buffers *)
Lemma a5_body_reached iter st o st' :
  a5_body dgels dgels_query dtrtri qt n p x y w sigma alpha lwork iter st = (o, st') ->
  o = A5_next \/ o = A5_return WBACON_ERROR_OK ->
  exists fs dist,
    fitwls_subset dgels dgels_query n p x y w lwork (a5_subset0 st) (a5_fit st)
      = (0%Z, fs) /\
    compute_ti dtrtri n p x w (extract_L n p (fs_wx fs) (a5_L st))
      (a5_work_pp st) (a5_work_np st) (a5_work_n st) sigma (fs_resid fs)
      (a5_subset0 st) (a5_dist st) = Some dist /\
    a5_fit st' = fs /\
    a5_L st' = extract_L n p (fs_wx fs) (a5_L st) /\
    a5_dist st' = dist /\
    (a5_subset1 st', a5_m st')
      = new_subset n dist (a5_cutoff qt p alpha (a5_m st)) (a5_subset1 st) /\
    ((subsets_identical n (a5_subset0 st) (a5_subset1 st') = true /\
      o = A5_return WBACON_ERROR_OK /\ a5_maxiter st' = iter /\
      a5_subset0 st' = a5_subset0 st) \/
     (subsets_identical n (a5_subset0 st) (a5_subset1 st') = false /\
      o = A5_next /\ a5_maxiter st' = a5_maxiter st /\
      a5_subset0 st' = memcpy (a5_subset0 st) (a5_subset1 st') n)).
Proof.
  unfold a5_body; simpl.
  destruct (fitwls_subset dgels dgels_query n p x y w lwork (a5_subset0 st) (a5_fit st))
    as [info fs] eqn:E1.
  destruct (Z.eqb info 0) eqn:E2; simpl.
  2: { intros Hb Ho; injection Hb as <- _; destruct Ho; discriminate. }
  apply Z.eqb_eq in E2; subst info.
  destruct (compute_ti dtrtri n p x w (extract_L n p (fs_wx fs) (a5_L st))
              (a5_work_pp st) (a5_work_np st) (a5_work_n st) sigma (fs_resid fs)
              (a5_subset0 st) (a5_dist st)) as [dist|] eqn:E3.
  2: { intros Hb Ho; injection Hb as <- _; destruct Ho; discriminate. }
  destruct (new_subset n dist (a5_cutoff qt p alpha (a5_m st)) (a5_subset1 st))
    as [s1 m] eqn:E4.
  destruct (subsets_identical n (a5_subset0 st) s1) eqn:E5;
    intros Hb _; injection Hb as <- <-; exists fs, dist; simpl;
    repeat split; auto.
Qed.

Lemma a5_body_not_cf iter st st' :
  a5_body dgels dgels_query dtrtri qt n p x y w sigma alpha lwork iter st
    <> (A5_return WBACON_ERROR_CONVERGENCE_FAILURE, st').
Proof.
  unfold a5_body; simpl.
  destruct (fitwls_subset dgels dgels_query n p x y w lwork (a5_subset0 st) (a5_fit st))
    as [info fs].
  destruct (Z.eqb info 0); simpl; [|discriminate].
  destruct (compute_ti _ _ _ _ _ _ _ _ _ _ _ _ _) as [dist|]; [|discriminate].
  destruct (new_subset _ _ _ _) as [s1 m].
  destruct (subsets_identical _ _ _); discriminate.
Qed.

Lemma a5_body_next_maxiter iter st st' :
  a5_body dgels dgels_query dtrtri qt n p x y w sigma alpha lwork iter st = (A5_next, st') ->
  a5_maxiter st' = a5_maxiter st.
Proof.
  intros Hb; destruct (a5_body_reached iter st A5_next st' Hb (or_introl eq_refl))
    as (fs & dist & _ & _ & _ & _ & _ & _ & [(_ & Hc & _)|(_ & _ & Hm & _)]);
    [discriminate | exact Hm].
Qed.

(** a [WBACON_ERROR_CONVERGENCE_FAILURE] after at least one pass comes from
    a pass numbered [*maxiter] that did not converge *)
Lemma a5_loop_cf fuel iter st st' :
  (iter + Z.of_nat fuel = a5_maxiter st + 1)%Z -> (iter <= a5_maxiter st)%Z ->
  a5_loop dgels dgels_query dtrtri qt n p x y w sigma alpha lwork fuel iter st
    = (WBACON_ERROR_CONVERGENCE_FAILURE, st') ->
  exists s, a5_maxiter s = a5_maxiter st /\
    a5_body dgels dgels_query dtrtri qt n p x y w sigma alpha lwork (a5_maxiter st) s
      = (A5_next, st').
Proof.
  revert iter st; induction fuel as [|fuel IH]; intros iter st Hf Hi Hl; [lia|].
  simpl in Hl; destruct (Z.leb_spec iter (a5_maxiter st)) as [_|]; [|lia].
  destruct (a5_body dgels dgels_query dtrtri qt n p x y w sigma alpha lwork iter st)
    as [[e|] s] eqn:Eb.
  - injection Hl as -> ->; exfalso; eapply a5_body_not_cf; exact Eb.
  - pose proof (a5_body_next_maxiter _ _ _ Eb) as Hm.
    destruct fuel as [|fuel'].
    + simpl in Hl; injection Hl as <-.
      exists st; split; [reflexivity|].
      replace (a5_maxiter st) with iter by lia; exact Eb.
    + destruct (IH (iter + 1)%Z s) as (s' & Hs' & Hb'); [lia|lia|exact Hl|].
      exists s'; split; [congruence|]; rewrite <- Hm; exact Hb'.
Qed.

End Algorithm5Proofs.

(** ** One pass of the refinement loop *)

(** Let [qt(pr, df, 0, 0)] be the upper-tail quantile of
    Student's t, i.e. the [(1 - pr)] quantile [quantile (1 - pr) df]. In a
    pass of the loop of [algorithm_5] that gets past the fit and the scores
    (it converges or continues), with [m] the value of [*m] at the start
    of the pass:
    - the cutoff is the [(1 - alpha / (2 (m + 1)))] quantile with
      [m - p] degrees of freedom;
    - the new [subset1] marks exactly the observations whose new score
      [dist[i]] is strictly below the cutoff;
    - the pass converges, recording [*maxiter = iter], if and only if the
      new [subset1] equals the current [subset0]; otherwise [subset0]
      becomes the new subset and the loop goes on. *)
Theorem algorithm_5_pass {F : Type} `{DoubleArith F}
    (dgels : nat -> nat -> list F -> list F -> list F * list F)
    (dgels_query : nat -> nat -> Z) (dtrtri : nat -> list F -> option (list F))
    (qt : F -> F -> Z -> Z -> F) (quantile : F -> F -> F)
    (n p : nat) (x y w : list F) (sigma alpha : F) (lwork iter : Z)
    (st st' : a5_state F) (o : a5_outcome) :
  (forall pr df, qt pr df 0%Z 0%Z = quantile (fsub f1 pr) df) ->
  length (a5_subset0 st) = n -> length (a5_subset1 st) = n ->
  a5_body dgels dgels_query dtrtri qt n p x y w sigma alpha lwork iter st = (o, st') ->
  o = A5_next \/ o = A5_return WBACON_ERROR_OK ->
  a5_cutoff qt p alpha (a5_m st)
    = quantile (fsub f1 (fdiv alpha (fofZ (2 * (a5_m st + 1)))))
               (fofZ (a5_m st - Z.of_nat p)) /\
  length (a5_subset1 st') = n /\
  (forall i, i < n ->
     nth i (a5_subset1 st') 0%Z
     = if fltb (get (a5_dist st') i) (a5_cutoff qt p alpha (a5_m st)) then 1%Z else 0%Z) /\
  (o = A5_return WBACON_ERROR_OK <-> a5_subset1 st' = a5_subset0 st) /\
  (o = A5_return WBACON_ERROR_OK -> a5_maxiter st' = iter) /\
  (o = A5_next -> a5_subset0 st' = a5_subset1 st').
Proof.
  intros Hqt H0 H1 Hb Ho.
  destruct (a5_body_reached dgels dgels_query dtrtri qt n p x y w sigma alpha lwork
              iter st o st' Hb Ho)
    as (fs & dist & _ & _ & _ & _ & Hd & Hs & Hcase).
  destruct (new_subset_spec n dist (a5_cutoff qt p alpha (a5_m st)) (a5_subset1 st))
    as [Hlen Hnth].
  rewrite <- Hs in Hlen, Hnth; simpl in Hlen, Hnth.
  split; [unfold a5_cutoff; apply Hqt|].
  split; [congruence|].
  split; [intros i Hi; rewrite Hd; apply Hnth; lia|].
  destruct Hcase as [(Hid & Ho' & Hm & _)|(Hid & Ho' & _ & Hs0)]; subst o.
  - rewrite subsets_identical_iff in Hid by congruence.
    repeat split; auto; discriminate.
  - repeat split; try discriminate.
    + intros Heq; rewrite Heq in Hid.
      rewrite (proj2 (subsets_identical_iff n (a5_subset0 st) (a5_subset0 st) H0 H0))
        in Hid; [discriminate|reflexivity].
    + intros _; rewrite Hs0; apply memcpy_all; congruence.
Qed.

(** ** C8: running out of iterations *)

Section A5Run.
Context {F : Type} `{DoubleArith F}.
Variables (dgels : nat -> nat -> list F -> list F -> list F * list F)
          (dgels_query : nat -> nat -> Z) (dtrtri : nat -> list F -> option (list F))
          (qt : F -> F -> Z -> Z -> F)
          (n p : nat) (x y w : list F) (sigma alpha : F) (lwork : Z).

(** with [*maxiter] fixed, the loop from pass [iter] on ends in
    [WBACON_ERROR_CONVERGENCE_FAILURE] exactly when its remaining passes
    all go on *)
Lemma a5_loop_cf_iff fuel iter (st st' : a5_state F) :
  (iter + Z.of_nat fuel = a5_maxiter st + 1)%Z ->
  a5_loop dgels dgels_query dtrtri qt n p x y w sigma alpha lwork fuel iter st
    = (WBACON_ERROR_CONVERGENCE_FAILURE, st') <->
  a5_run_next dgels dgels_query dtrtri qt n p x y w sigma alpha lwork fuel iter st = Some st'.
Proof.
  revert iter st; induction fuel as [|fuel IH]; intros iter st Hf; simpl.
  - split; intros E; injection E as ->; reflexivity.
  - destruct (Z.leb_spec iter (a5_maxiter st)) as [_|]; [|lia].
    destruct (a5_body dgels dgels_query dtrtri qt n p x y w sigma alpha lwork iter st)
      as [[e|] s] eqn:Eb.
    + split; [|discriminate].
      intros E; injection E as -> ->; exfalso; eapply a5_body_not_cf; exact Eb.
    + apply IH; rewrite (a5_body_next_maxiter _ _ _ _ _ _ _ _ _ _ _ _ _ _ _ Eb); lia.
Qed.

Lemma a5_run_next_maxiter k iter (st st' : a5_state F) :
  a5_run_next dgels dgels_query dtrtri qt n p x y w sigma alpha lwork k iter st = Some st' ->
  a5_maxiter st' = a5_maxiter st.
Proof.
  revert iter st; induction k as [|k IH]; intros iter st Hr; simpl in Hr.
  - injection Hr as <-; reflexivity.
  - destruct (a5_body dgels dgels_query dtrtri qt n p x y w sigma alpha lwork iter st)
      as [[e|] s] eqn:Eb; [discriminate|].
    rewrite (IH _ _ Hr); exact (a5_body_next_maxiter _ _ _ _ _ _ _ _ _ _ _ _ _ _ _ Eb).
Qed.

End A5Run.

(** Claim C8. Let [*maxiter >= 1]. If all [*maxiter] passes of the loop of
    [algorithm_5] go on without the new subset matching the current one
    (and without an error), then, and only then, [algorithm_5] returns
    [WBACON_ERROR_CONVERGENCE_FAILURE] with the state the last pass left.
    [wbacon_reg] then reports [*success = 0] and returns the buffers of
    that last pass, numbered [*maxiter]: the coefficients and residuals of
    its fit, its scores [dist], its new membership [subset1] and its count
    [*m]; [*maxiter] keeps its value. *)
Theorem algorithm_5_convergence_failure {F : Type} `{DoubleArith F}
    (dgels : nat -> nat -> list F -> list F -> list F * list F)
    (dgels_query : nat -> nat -> Z) (dtrtri : nat -> list F -> option (list F))
    (qt : F -> F -> Z -> Z -> F)
    (n p : nat) (x y w : list F) (sigma alpha : F) (lwork : Z)
    (st st' : a5_state F) :
  (1 <= a5_maxiter st)%Z ->
  (a5_run_next dgels dgels_query dtrtri qt n p x y w sigma alpha lwork
     (Z.to_nat (a5_maxiter st)) 1 st = Some st' <->
   algorithm_5 dgels dgels_query dtrtri qt n p x y w sigma alpha lwork st
     = (WBACON_ERROR_CONVERGENCE_FAILURE, st')) /\
  (a5_run_next dgels dgels_query dtrtri qt n p x y w sigma alpha lwork
     (Z.to_nat (a5_maxiter st)) 1 st = Some st' ->
   wbacon_reg_step2 dgels dgels_query dtrtri qt n p x y w sigma alpha lwork 1 st
     = (0%Z, st') /\
   wbacon_reg_output x n p
     (wbacon_reg_step2 dgels dgels_query dtrtri qt n p x y w sigma alpha lwork 1 st)
   = mk_wbacon_out (memcpy x (fs_wx (a5_fit st')) (n * p)) (fs_resid (a5_fit st'))
       (fs_beta (a5_fit st')) (a5_subset1 st') (a5_dist st') (a5_m st') 0%Z
       (a5_maxiter st) /\
   exists s fs dist,
     a5_body dgels dgels_query dtrtri qt n p x y w sigma alpha lwork (a5_maxiter st) s
       = (A5_next, st') /\
     fitwls_subset dgels dgels_query n p x y w lwork (a5_subset0 s) (a5_fit s)
       = (0%Z, fs) /\
     a5_fit st' = fs /\
     compute_ti dtrtri n p x w (extract_L n p (fs_wx fs) (a5_L s))
       (a5_work_pp s) (a5_work_np s) (a5_work_n s) sigma (fs_resid fs)
       (a5_subset0 s) (a5_dist s) = Some dist /\
     a5_dist st' = dist /\
     (a5_subset1 st', a5_m st')
       = new_subset n dist (a5_cutoff qt p alpha (a5_m s)) (a5_subset1 s) /\
     subsets_identical n (a5_subset0 s) (a5_subset1 st') = false).
Proof.
  intros Hm.
  assert (Hiff : a5_run_next dgels dgels_query dtrtri qt n p x y w sigma alpha lwork
                   (Z.to_nat (a5_maxiter st)) 1 st = Some st' <->
                 algorithm_5 dgels dgels_query dtrtri qt n p x y w sigma alpha lwork st
                   = (WBACON_ERROR_CONVERGENCE_FAILURE, st')).
  { unfold algorithm_5; symmetry; apply a5_loop_cf_iff; rewrite Z2Nat.id by lia; lia. }
  split; [exact Hiff|].
  intros Hr; pose proof (proj1 Hiff Hr) as Ha.
  assert (Hs : wbacon_reg_step2 dgels dgels_query dtrtri qt n p x y w sigma alpha lwork 1 st
               = (0%Z, st')) by (unfold wbacon_reg_step2; rewrite Ha; reflexivity).
  split; [exact Hs|]; split.
  - rewrite Hs; cbn [wbacon_reg_output].
    rewrite (a5_run_next_maxiter _ _ _ _ _ _ _ _ _ _ _ _ _ _ _ _ Hr); reflexivity.
  - unfold algorithm_5 in Ha.
    destruct (a5_loop_cf dgels dgels_query dtrtri qt n p x y w sigma alpha lwork
                (Z.to_nat (a5_maxiter st)) 1 st st') as (s & _ & Hb);
      [rewrite Z2Nat.id by lia; lia | lia | exact Ha |].
    destruct (a5_body_reached dgels dgels_query dtrtri qt n p x y w sigma alpha lwork
                (a5_maxiter st) s A5_next st' Hb (or_introl eq_refl))
      as (fs & dist & Hf & Hc & Hfs & _ & Hd & Hs' & Hcase).
    exists s, fs, dist; repeat split; auto.
    destruct Hcase as [(_ & Ho & _)|(Hid & _)]; [discriminate|exact Hid].
Qed.

(** ** C2: the count [*m] at the first pass *)

(** Claim C2 (the source differs from the claim). The claim takes [m] in
    the cutoff to be the size of the current subset. [algorithm_4] hands
    [algorithm_5] the count [*m = p * collect + 1] (after its final
    [( *m)++]) together with a subset of [p * collect] members, so the
    first pass computes its cutoff with an [m] one too large: probability
    [alpha / (2 (m + 2))] and [m + 1 - p] degrees of freedom. The run:
    [n = 3], [p = 1], [collect = 2], [x = (1, 1, 1)], [y = (1, 2, 20)],
    unit weights, seed subset [{0, 1}], [alpha = 0.05], and [qt_table] for
    Rmath's [qt]. [algorithm_5] starts with [subset0 = {0, 1}] (two
    members) and [*m = 3]. The code's cutoff [qt(0.05/8, 2) = 8.86]
    excludes observation 2 (score 15.1), so the first pass converges and
    [wbacon_reg] returns the subset [{0, 1}]. The same pass with [m = 2],
    the subset size, has the cutoff [qt(0.05/6, 1) = 38.19], takes
    observation 2 in and goes on with [{0, 1, 2}]. *)
Theorem algorithm_5_first_pass_m :
  let x := [1; 1; 1]%float in
  let y := [1; 2; 20]%float in
  let w := [1; 1; 1]%float in
  let alpha := (1 / 20)%float in
  let fr := wbacon_reg_front dgels_col (fun _ _ => 1%Z) dtrtri_1x1 (fun d ia _ _ => (d, ia))
              1%float x y w [0; 0; 0]%float [0%float] [1; 1; 0]%Z [0; 0; 0]%float 3 1 2 2 5 in
  let st := match fr with
            | WF_step2 _ s => s
            | WF_done _ => mk_a5_state [] [] 0 0 (mk_fit_state [] [] [] []) [] [] [] [] []
            end in
  let pass m := a5_body dgels_col (fun _ _ => 1%Z) dtrtri_1x1 qt_table 3 1 x y w 1%float alpha
                  1 1 (mk_a5_state (a5_subset0 st) (a5_subset1 st) m (a5_maxiter st)
                         (a5_fit st) (a5_L st) (a5_dist st) (a5_work_pp st)
                         (a5_work_np st) (a5_work_n st)) in
  fr = WF_step2 1 st /\
  a5_subset0 st = [1; 1; 0]%Z /\ a5_m st = 3%Z /\
  a5_cutoff qt_table 1 alpha 3 = (886 / 100)%float /\
  a5_cutoff qt_table 1 alpha 2 = (3819 / 100)%float /\
  pass 3%Z = pass (a5_m st) /\
  fst (pass 3%Z) = A5_return WBACON_ERROR_OK /\ a5_subset1 (snd (pass 3%Z)) = [1; 1; 0]%Z /\
  fst (pass 2%Z) = A5_next /\ a5_subset1 (snd (pass 2%Z)) = [1; 1; 1]%Z /\
  option_map (fun o => (wo_subset0 o, wo_m o, wo_success o, wo_maxiter o))
    (wbacon_reg dgels_col (fun _ _ => 1%Z) dtrtri_1x1 qt_table (fun d ia _ _ => (d, ia))
       1%float x y w [0; 0; 0]%float [0%float] [1; 1; 0]%Z [0; 0; 0]%float 3 1 2 2 alpha 5)
  = Some ([1; 1; 0]%Z, 2%Z, 1%Z, 1%Z).
Proof.
  intros x y w alpha fr st pass.
  repeat split; vm_compute; reflexivity.
Qed.

(** ** C7: the retry loop of the growing phase *)

(** Claim C7 (the source differs from the claim). Two runs in binary64,
    with [p = 1], unit weights and responses, and the factor [L] that
    [chol_update] builds for the current subset.
    - First run: [n = 4] and [x = (0.1, 1, 0, 0)]. The transition from
      [subset0 = {0, 1}] to [subset1 = {2, 3}] fails by rounding: the
      downdate radicand is negative. The smallest score outside [subset1]
      ([dist = (7, 0.5, 0.125, 0.25)]) is that of observation 1. The retry
      loop instead adds observation [iarray[2] = 0], a stale entry of the
      scratch array that [update_chol_xty] uses as its downdate stack; no
      score is read.
    - Second run: [n = 5], [collect = 2], and the loop entered with
      [*m = p * collect = 2]. The retries keep failing, because the added
      [iarray[*m - 1] = 0] is already in the subset. The test
      [*m == p * *collect] never holds after the first increment, so the
      loop does not stop at the ceiling. It runs until [*m - 1] reaches
      [n], where [iarray] is read out of bounds ([None]). *)
Theorem algorithm_4_retry_ignores_scores :
  let x := [0x1.999999999999ap-4; 1; 0; 0]%float in
  let ones := [1; 1; 1; 1]%float in
  let L := fst (chol_update (fst (chol_update [0%float] [0x1.999999999999ap-4%float] 1))
                  [1%float] 1) in
  let st := mk_chol_xty_state L [0x1.199999999999ap+0%float] [0%float]
              [0; 0; 0; 0]%float [0%float] [0; 0; 0; 0] in
  let dist := [7; 0.5; 0.125; 0.25]%float in
  let x5 := [0; 0x1.999999999999ap-4; 1; 0; 0]%float in
  let ones5 := [1; 1; 1; 1; 1]%float in
  let L5 := fst (chol_update (fst (chol_update (fst (chol_update [0%float] [0%float] 1))
                  [0x1.999999999999ap-4%float] 1)) [1%float] 1) in
  let st5 := mk_chol_xty_state L5 [0x1.199999999999ap+0%float] [0%float]
               [0; 0; 0; 0; 0]%float [0%float] [0; 0; 0; 0; 0] in
  fst (update_chol_xty 4 1 x ones ones [1; 1; 0; 0]%Z [0; 0; 1; 1]%Z st)
    = WBACON_ERROR_RANK_DEFICIENT /\
  smallest_outside 4 dist [0; 0; 1; 1]%Z = Some 1 /\
  (exists st', a4_transition 4 1 3 x ones ones 2 [1; 1; 0; 0]%Z [0; 0; 1; 1]%Z st
               = Some (WBACON_ERROR_OK, 3, [1; 0; 1; 1]%Z, st')) /\
  fst (update_chol_xty 5 1 x5 ones5 ones5 [1; 1; 1; 0; 0]%Z [1; 0; 0; 1; 1]%Z st5)
    = WBACON_ERROR_RANK_DEFICIENT /\
  a4_transition 5 1 2 x5 ones5 ones5 2 [1; 1; 1; 0; 0]%Z [1; 0; 0; 1; 1]%Z st5 = None.
Proof.
  intros x ones L st dist x5 ones5 L5 st5.
  split; [vm_compute; reflexivity|].
  split; [vm_compute; reflexivity|].
  split; [eexists; vm_compute; reflexivity|].
  split; vm_compute; reflexivity.
Qed.

(** ** The weighting step of [fitwls], entry by entry *)

Lemma fold_left_ext_in {A B} (f g : A -> B -> A) (l : list B) (a : A) :
  (forall a b, In b l -> f a b = g a b) -> fold_left f l a = fold_left g l a.
Proof.
  revert a; induction l as [|b l IH]; intros a Hfg; simpl; auto.
  rewrite Hfg by (left; reflexivity); apply IH; intros; apply Hfg; right; auto.
Qed.

Lemma fold_left_seq_shift {A} (f : A -> nat -> A) b len s a :
  fold_left f (seq (s + b) len) a = fold_left (fun a i => f a (i + b)) (seq s len) a.
Proof.
  revert s a; induction len as [|len IH]; intros s a; simpl; auto.
  rewrite <- IH; reflexivity.
Qed.

Lemma fold_left_length_pres {A B} (f : list A -> B -> list A) ks l :
  (forall l b, length (f l b) = length l) -> length (fold_left f ks l) = length l.
Proof.
  intros Hf; revert l; induction ks as [|k ks IH]; intros l; simpl; auto.
  rewrite IH; apply Hf.
Qed.

Section WeightingLemmas.
Context {F : Type} `{DoubleArith F}.
Variables (n p : nat) (x y weight : list F).

(** the value [sqrt(weight[k mod n]) * x[k]] that entry [k] of [wx] gets *)
Lemma weighting_first_loop ks wx wy :
  fold_left (fun acc i =>
    let '(wx, wy) := acc in
    let tmp := fsqrt (get weight i) in
    (set_nth wx i (fmul tmp (get x i)), set_nth wy i (fmul tmp (get y i)))) ks (wx, wy)
  = (fold_left (fun wx i => set_nth wx i (fmul (fsqrt (get weight i)) (get x i))) ks wx,
     fold_left (fun wy i => set_nth wy i (fmul (fsqrt (get weight i)) (get y i))) ks wy).
Proof.
  revert wx wy; induction ks as [|k ks IH]; intros wx wy; simpl; auto.
Qed.

Lemma weighting_inner_loop j wx :
  0 < n ->
  fold_left (fun wx i =>
    set_nth wx (i + n * j) (fmul (fsqrt (get weight i)) (get x (i + n * j))))
    (seq 0 n) wx
  = fold_left (fun wx k =>
      set_nth wx k (fmul (fsqrt (get weight (k mod n))) (get x k)))
      (seq (n * j) n) wx.
Proof.
  intros Hn.
  change (seq (n * j) n) with (seq (0 + n * j) n); rewrite fold_left_seq_shift.
  apply fold_left_ext_in; intros a i Hi; apply in_seq in Hi.
  rewrite Nat.mul_comm, Nat.Div0.mod_add, Nat.mod_small by lia.
  reflexivity.
Qed.

Lemma weighting_outer_loop len a wx k :
  0 < n ->
  (forall k, k < n * a -> k < length wx ->
     get wx k = fmul (fsqrt (get weight (k mod n))) (get x k)) ->
  k < n * (a + len) -> k < length wx ->
  get (fold_left (fun wx j =>
         fold_left (fun wx i =>
           set_nth wx (i + n * j) (fmul (fsqrt (get weight i)) (get x (i + n * j))))
           (seq 0 n) wx)
         (seq a len) wx) k
  = fmul (fsqrt (get weight (k mod n))) (get x k).
Proof.
  intros Hn; revert a wx; induction len as [|len IH]; intros a wx Hinv Hk Hl.
  - apply Hinv; lia.
  - simpl; apply IH; [| lia |].
    + intros k' Hk' Hl'; rewrite weighting_inner_loop in Hl' |- * by lia.
      rewrite (fold_set_length (fun k => fmul (fsqrt (get weight (k mod n))) (get x k)))
        in Hl'.
      unfold get at 1.
      destruct (Nat.lt_ge_cases k' (n * a)) as [Hlt|Hge].
      * rewrite (fold_set_outside (fun k => fmul (fsqrt (get weight (k mod n))) (get x k)))
          by lia; apply Hinv; auto.
      * apply (fold_set_inside (fun k => fmul (fsqrt (get weight (k mod n))) (get x k)));
          lia.
    + rewrite weighting_inner_loop by lia.
      rewrite (fold_set_length (fun k => fmul (fsqrt (get weight (k mod n))) (get x k)));
        exact Hl.
Qed.

Lemma fitwls_weighting_length wx wy :
  length (fst (fitwls_weighting n p x y weight wx wy)) = length wx /\
  length (snd (fitwls_weighting n p x y weight wx wy)) = length wy.
Proof.
  unfold fitwls_weighting; rewrite weighting_first_loop; simpl; split.
  - rewrite fold_left_length_pres.
    + apply (fold_set_length (fun i => fmul (fsqrt (get weight i)) (get x i))).
    + intros l j; apply fold_left_length_pres; intros l' i; apply set_nth_length.
  - apply (fold_set_length (fun i => fmul (fsqrt (get weight i)) (get y i))).
Qed.

(** every entry of the n-by-p [wx] is [sqrt(weight[i]) * x[i + j*n]], and
    every entry of [wy] is [sqrt(weight[i]) * y[i]] *)
Lemma fitwls_weighting_spec wx wy :
  1 <= p -> length wx = n * p -> length wy = n ->
  (forall k, k < n * p ->
     get (fst (fitwls_weighting n p x y weight wx wy)) k
     = fmul (fsqrt (get weight (k mod n))) (get x k)) /\
  (forall i, i < n ->
     get (snd (fitwls_weighting n p x y weight wx wy)) i
     = fmul (fsqrt (get weight i)) (get y i)).
Proof.
  intros Hp Hwx Hwy; split.
  - intros k Hk; destruct (Nat.eq_dec n 0) as [->|Hn]; [simpl in Hk; lia|].
    unfold fitwls_weighting; rewrite weighting_first_loop; simpl.
    apply weighting_outer_loop; [lia| | |].
    + intros k' Hk' Hl'; unfold get at 1.
      rewrite (fold_set_length (fun i => fmul (fsqrt (get weight i)) (get x i))) in Hl'.
      rewrite (fold_set_inside (fun i => fmul (fsqrt (get weight i)) (get x i)))
        by lia.
      rewrite Nat.mod_small by lia; reflexivity.
    + replace (1 + (p - 1)) with p by lia; exact Hk.
    + rewrite (fold_set_length (fun i => fmul (fsqrt (get weight i)) (get x i))); lia.
  - intros i Hi; unfold fitwls_weighting; rewrite weighting_first_loop; simpl.
    unfold get at 1.
    apply (fold_set_inside (fun i => fmul (fsqrt (get weight i)) (get y i))); lia.
Qed.

End WeightingLemmas.

(** ** Scaling the weights (exact arithmetic) *)

Lemma get_map_scale (c : R) (l : list R) i :
  get (map (Rmult c) l) i = (c * get l i)%R.
Proof.
  unfold get; simpl.
  destruct (Nat.lt_ge_cases i (length l)) as [Hi|Hi].
  - rewrite (nth_indep _ _ (c * 0)%R) by (rewrite length_map; exact Hi).
    apply (map_nth (Rmult c)).
  - rewrite !nth_overflow by (try rewrite length_map; exact Hi); ring.
Qed.

Lemma map_scale_ext (c : R) (l l' : list R) :
  length l' = length l -> (forall k, k < length l -> get l' k = (c * get l k)%R) ->
  l' = map (Rmult c) l.
Proof.
  intros Hl Hk; apply nth_ext with (d := 0%R) (d' := 0%R).
  - rewrite length_map; exact Hl.
  - intros k Hk'; change (get l' k = get (map (Rmult c) l) k).
    rewrite get_map_scale; apply Hk; lia.
Qed.

(** the weighted arrays for the weights [c * w] are [sqrt(c)] times those
    for [w] *)
Lemma fitwls_weighting_scale (n p : nat) (x y weight wx wy : list R) (c : R) :
  (0 <= c)%R -> 1 <= p -> length wx = n * p -> length wy = n ->
  fitwls_weighting n p x y (map (Rmult c) weight) wx wy
  = (map (Rmult (sqrt c)) (fst (fitwls_weighting n p x y weight wx wy)),
     map (Rmult (sqrt c)) (snd (fitwls_weighting n p x y weight wx wy))).
Proof.
  intros Hc Hp Hwx Hwy.
  destruct (fitwls_weighting_length n p x y weight wx wy) as [L1 L2].
  destruct (fitwls_weighting_length n p x y (map (Rmult c) weight) wx wy) as [L3 L4].
  destruct (fitwls_weighting_spec n p x y weight wx wy Hp Hwx Hwy) as [S1 S2].
  destruct (fitwls_weighting_spec n p x y (map (Rmult c) weight) wx wy Hp Hwx Hwy)
    as [S3 S4].
  rewrite (surjective_pairing (fitwls_weighting n p x y (map (Rmult c) weight) wx wy)).
  f_equal; apply map_scale_ext; try congruence.
  - intros k Hk; rewrite S3, S1 by lia; simpl.
    rewrite get_map_scale, sqrt_mult_alt by exact Hc; ring.
  - intros k Hk; rewrite S4, S2 by lia; simpl.
    rewrite get_map_scale, sqrt_mult_alt by exact Hc; ring.
Qed.

(** ** Instances of the theorems at concrete inputs *)

(** C4 at [p = 1], [L = (1)], [u = (2)]: the downdate fails *)
Lemma chol_downdate_fails_iff_negative_witness :
  1 <= 1 /\ length [1%float] = 1 * 1 /\
  (fst (chol_downdate [1%float] [2%float] 1) = WBACON_ERROR_RANK_DEFICIENT <->
   exists k s, k < 1 /\
     chol_downdate_loop 1 k ([1%float], [2%float]) = (WBACON_ERROR_OK, s) /\
     fltb (downdate_radicand 1 k s) f0 = true).
Proof.
  split; [lia|]; split; [reflexivity|].
  exact (proj1 (chol_downdate_fails_iff_negative 1 [1%float] [2%float]
                  ltac:(lia) eq_refl)).
Defined.

(** C10 at [p = 2]: the second diagonal entry written is nonnegative *)
Lemma chol_update_diag_nonneg_real_witness :
  1 <= 2 /\ 1 < 2 /\
  (0 <= get (fst (chol_update [4%R; 0%R; 1%R; 3%R] [1%R; 2%R] 2)) (1 * (2 + 1)))%R.
Proof.
  split; [lia|]; split; [lia|].
  exact (chol_update_diag_nonneg_real 2 [4%R; 0%R; 1%R; 3%R] [1%R; 2%R]
           ltac:(lia) 1 ltac:(lia)).
Defined.

(** C3 at the failing transition of the first run of C7 *)
Lemma update_chol_xty_restores_on_failure_witness :
  let x := [0x1.999999999999ap-4; 1; 0; 0]%float in
  let ones := [1; 1; 1; 1]%float in
  let L := fst (chol_update (fst (chol_update [0%float] [0x1.999999999999ap-4%float] 1))
                  [1%float] 1) in
  let st := mk_chol_xty_state L [0x1.199999999999ap+0%float] [0%float]
              [0; 0; 0; 0]%float [0%float] [0; 0; 0; 0] in
  let r := update_chol_xty 4 1 x ones ones [1; 1; 0; 0]%Z [0; 0; 1; 1]%Z st in
  r = (WBACON_ERROR_RANK_DEFICIENT, snd r) /\
  cx_L (snd r) = cx_L st /\ cx_xty (snd r) = cx_xty st.
Proof.
  intros x ones L st r.
  assert (Hr : r = (WBACON_ERROR_RANK_DEFICIENT, snd r)) by (vm_compute; reflexivity).
  split; [exact Hr|].
  destruct (update_chol_xty_restores_on_failure 4 1 x ones ones [1; 1; 0; 0]%Z
              [0; 0; 1; 1]%Z st (snd r) WBACON_ERROR_RANK_DEFICIENT
              eq_refl eq_refl Hr ltac:(discriminate)) as (H1 & H2 & _).
  split; assumption.
Defined.

(** C5 with the quickselect [select_k] *)
Lemma select_subset_marks_positions_witness :
  Permutation (select_k [2; 1]%float 0 1 0) [2; 1]%float /\
  snd (select_subset select_k [2; 1]%float [0; 0]%Z 1 2) <> [0; 1]%Z.
Proof.
  assert (Hp : Permutation (select_k [2; 1]%float 0 1 0) [2; 1]%float)
    by (vm_compute; apply perm_swap).
  split; [exact Hp|].
  exact (select_subset_marks_positions select_k Hp).
Defined.

(** C6 in binary64 at [n = p = 1] with the weight [1.5 * 2^-53]: the fit
    is rejected and [beta], [resid] are kept *)
Lemma fitwls_rank_check_witness :
  let st := mk_fit_state [0%float] [0%float] [0%float] [0%float] in
  let r := fitwls dgels_1x1 (fun _ _ => 1%Z) 1 1 [1%float] [1%float]
             [0x1.8p-53%float] 0 st in
  (0 <= 0)%Z /\ fst r = 1%Z /\ fs_beta (snd r) = fs_beta st /\ fs_resid (snd r) = fs_resid st.
Proof.
  intros st r.
  assert (H1 : fst r = 1%Z) by (vm_compute; reflexivity).
  pose proof (fitwls_rank_check dgels_1x1 (fun _ _ => 1%Z) 1 1 [1%float] [1%float]
                [0x1.8p-53%float] 0 st ltac:(lia)) as Hc.
  cbv zeta in Hc; destruct Hc as (_ & _ & Hk).
  split; [lia|]; split; [exact H1|]; exact (Hk H1).
Defined.

(** C1 at [n = 2], [p = 1], in exact arithmetic: the second observation is
    in the subset *)
Lemma compute_ti_sign_witness :
  let ct := compute_ti (fun _ A => Some (map Rinv A)) 2 1 [1%R; 2%R] [1%R; 1%R]
              [2%R] [0%R] [0%R; 0%R] [0%R; 0%R] 1%R [1%R; (-1)%R] [0%Z; 1%Z]
              [0%R; 0%R] in
  let T := match ct with Some t => t | None => [] end in
  length [0%R; 0%R] = 2 /\ ct = Some T /\
  exists hat,
    hat_matrix (fun _ A => Some (map Rinv A)) 2 1 [1%R; 2%R] [1%R; 1%R]
      [2%R] [0%R] [0%R; 0%R] [0%R; 0%R] = Some hat /\
    get T 1 = (Rabs (get [1%R; (-1)%R] 1) / (1 * sqrt (1 - get hat 1)))%R.
Proof.
  intros ct T.
  assert (Hc : ct = Some T) by reflexivity.
  split; [reflexivity|]; split; [exact Hc|].
  destruct (compute_ti_sign (fun _ A => Some (map Rinv A)) 2 1 [1%R; 2%R] [1%R; 1%R]
              [2%R] [0%R] [0%R; 0%R] [0%R; 0%R] 1%R [1%R; (-1)%R] [0%Z; 1%Z]
              [0%R; 0%R] T eq_refl Hc) as (hat & Hh & Hall).
  exists hat; split; [exact Hh|].
  exact (proj2 (Hall 1 ltac:(lia)) eq_refl).
Defined.

(** [algorithm_5_pass] in binary64 at [n = p = 1]: the pass continues
    with the new subset *)
Lemma algorithm_5_pass_witness :
  let quantile := fun (q df : float) => (4 * q)%float in
  let qt := fun (pr df : float) (_ _ : Z) => quantile (1 - pr)%float df in
  let st := mk_a5_state [1%Z] [1%Z] 2%Z 1%Z
              (mk_fit_state [0%float] [0%float] [0%float] [0%float])
              [0%float] [0%float] [0%float] [0%float] [0%float] in
  let r := a5_body dgels_1x1 (fun _ _ => 1%Z) dtrtri_1x1 qt 1 1 [1%float] [1%float]
             [1%float] 1%float 0.0625%float 1%Z 1%Z st in
  r = (A5_next, snd r) /\ a5_subset0 (snd r) = a5_subset1 (snd r).
Proof.
  intros quantile qt st r.
  assert (Hr : r = (A5_next, snd r)) by (vm_compute; reflexivity).
  assert (Hq : forall pr df, qt pr df 0%Z 0%Z = quantile (fsub f1 pr) df)
    by (intros; reflexivity).
  split; [exact Hr|].
  destruct (algorithm_5_pass dgels_1x1 (fun _ _ => 1%Z) dtrtri_1x1 qt quantile 1 1
              [1%float] [1%float] [1%float] 1%float 0.0625%float 1%Z 1%Z st (snd r)
              A5_next Hq eq_refl eq_refl Hr (or_introl eq_refl))
    as (_ & _ & _ & _ & _ & Hn).
  exact (Hn eq_refl).
Defined.

(** [algorithm_5_convergence_failure] in binary64: the run of [wbacon_reg]
    at [n = 3], [p = 1], [collect = 2], [*maxiter = 1] reaches
    [algorithm_5] with the subset [{0, 1}]; with the cutoff 1000 its one
    pass takes observation 2 in and does not converge *)
Lemma algorithm_5_convergence_failure_witness :
  let x := [1; 1; 1]%float in
  let y := [1; 2; 3]%float in
  let w := [1; 1; 1]%float in
  let qt := fun (_ _ : float) (_ _ : Z) => 1000%float in
  let fr := wbacon_reg_front dgels_col (fun _ _ => 1%Z) dtrtri_1x1 (fun d ia _ _ => (d, ia))
              1%float x y w [0; 0; 0]%float [0%float] [1; 1; 0]%Z [0; 0; 0]%float 3 1 2 2 1 in
  let st := match fr with
            | WF_step2 _ s => s
            | WF_done _ => mk_a5_state [] [] 0 0 (mk_fit_state [] [] [] []) [] [] [] [] []
            end in
  let r := a5_run_next dgels_col (fun _ _ => 1%Z) dtrtri_1x1 qt 3 1 x y w 1%float
             (1 / 20)%float 1 (Z.to_nat (a5_maxiter st)) 1 st in
  let st' := match r with Some s => s | None => st end in
  fr = WF_step2 1 st /\ (1 <= a5_maxiter st)%Z /\ r = Some st' /\
  a5_subset1 st' = [1; 1; 1]%Z /\
  algorithm_5 dgels_col (fun _ _ => 1%Z) dtrtri_1x1 qt 3 1 x y w 1%float (1 / 20)%float 1 st
    = (WBACON_ERROR_CONVERGENCE_FAILURE, st') /\
  wbacon_reg_step2 dgels_col (fun _ _ => 1%Z) dtrtri_1x1 qt 3 1 x y w 1%float (1 / 20)%float
    1 1 st = (0%Z, st').
Proof.
  intros x y w qt fr st r st'.
  assert (Hm : (1 <= a5_maxiter st)%Z) by (vm_compute; discriminate).
  assert (Hr : r = Some st') by (vm_compute; reflexivity).
  destruct (algorithm_5_convergence_failure dgels_col (fun _ _ => 1%Z) dtrtri_1x1 qt 3 1
              x y w 1%float (1 / 20)%float 1 st st' Hm) as [Hiff Hout].
  split; [vm_compute; reflexivity|]; split; [exact Hm|]; split; [exact Hr|].
  split; [vm_compute; reflexivity|].
  split; [exact (proj1 Hiff Hr)|exact (proj1 (Hout Hr))].
Defined.

(** ** Further properties of the code *)

Lemma fold_set_any {A} (v : nat -> A) ks l i d :
  i < length l ->
  nth i (fold_left (fun l k => set_nth l k (v k)) ks l) d
  = if in_dec Nat.eq_dec i ks then v i else nth i l d.
Proof.
  revert l; induction ks as [|k ks IH]; intros l Hi; simpl; auto.
  rewrite IH by (rewrite set_nth_length; exact Hi).
  destruct (in_dec Nat.eq_dec i ks) as [Hin|Hnin];
  destruct (Nat.eq_dec k i) as [->|Hne]; simpl; auto.
  - apply nth_set_nth_eq; auto.
  - apply nth_set_nth_ne; auto.
Qed.

Lemma fold_left_map_comp {A B C} (f : A -> C -> A) (g : B -> C) l a :
  fold_left f (map g l) a = fold_left (fun a x => f a (g x)) l a.
Proof. revert a; induction l as [|b l IH]; intros a; simpl; auto. Qed.

Lemma fold_left_nested {A B C} (s : A -> C -> A) (k : B -> nat -> C)
    (js : B -> list nat) (is : list B) a :
  fold_left (fun a i => fold_left (fun a j => s a (k i j)) (js i) a) is a
  = fold_left s (flat_map (fun i => map (k i) (js i)) is) a.
Proof.
  revert a; induction is as [|i is IH]; intros a; simpl; auto.
  rewrite fold_left_app, fold_left_map_comp, IH; reflexivity.
Qed.

Lemma divmod_pair p j i : j < p -> (j + i * p) / p = i /\ (j + i * p) mod p = j.
Proof.
  intros Hj; split.
  - rewrite Nat.div_add by lia; rewrite Nat.div_small by lia; lia.
  - rewrite Nat.Div0.mod_add; apply Nat.mod_small; lia.
Qed.

Lemma extract_L_get {F} `{DoubleArith F} n p (wx L : list F) r c :
  length L = p * p -> r < p -> c < p ->
  length (extract_L n p wx L) = p * p /\
  get (extract_L n p wx L) (r + c * p)
  = if Nat.leb c r then get wx (c + r * n) else get L (r + c * p).
Proof.
  intros HL Hr Hc.
  set (v := fun k => get wx (k / p + k mod p * n)).
  assert (Heq : extract_L n p wx L =
    fold_left (fun L i => fold_left (fun L j => (fun L k => set_nth L k (v k)) L (j + i * p))
      (seq i (p - i)) L) (seq 0 p) L).
  { unfold extract_L; apply fold_left_ext_in; intros L' i Hi.
    apply fold_left_ext_in; intros L'' j Hj; apply in_seq in Hj.
    unfold v; destruct (divmod_pair p j i) as [-> ->]; [lia|reflexivity]. }
  rewrite Heq, (fold_left_nested (fun L k => set_nth L k (v k)) (fun i j => j + i * p) (fun i => seq i (p - i))); split.
  { rewrite (fold_set_length v); exact HL. }
  unfold get at 1; rewrite (fold_set_any v) by nia.
  destruct (in_dec Nat.eq_dec (r + c * p) _) as [Hin|Hnin].
  - apply in_flat_map in Hin as [i [Hi Hin]]; apply in_map_iff in Hin as [j [Hji Hj]].
    apply in_seq in Hi; apply in_seq in Hj.
    destruct (divmod_pair p j i) as [Hd1 Hm1]; [lia|].
    destruct (divmod_pair p r c) as [Hd2 Hm2]; [lia|].
    rewrite Hji in Hd1, Hm1.
    assert (i = c) by congruence; assert (j = r) by congruence; subst.
    replace (c <=? r) with true by (symmetry; apply Nat.leb_le; lia).
    unfold v; rewrite Hd2, Hm2; reflexivity.
  - destruct (Nat.leb_spec c r) as [Hle|Hgt]; [|reflexivity].
    exfalso; apply Hnin, in_flat_map; exists c; split; [apply in_seq; lia|].
    apply in_map_iff; exists r; split; [reflexivity|apply in_seq; lia].
Qed.

(** [algorithm_5]'s copy of the Cholesky factor: for a [p*p] array [L], the
    lower triangle and diagonal (row [r] >= column [c]) are taken from the
    transposed [R] of the QR factorization in [wx], entry [c + r*n]; the
    strict upper triangle keeps the old [L]; the length stays [p*p] *)
Lemma extract_L_spec {F} `{DoubleArith F} n p (wx L : list F) r c :
  length L = p * p -> r < p -> c < p ->
  length (extract_L n p wx L) = p * p /\
  get (extract_L n p wx L) (r + c * p)
  = if Nat.leb c r then get wx (c + r * n) else get L (r + c * p).
Proof. exact (extract_L_get n p wx L r c). Qed.

Lemma fold_modify_nodup {A} (g : nat -> A -> A) ks l k d :
  NoDup ks ->
  nth k (fold_left (fun l i => set_nth l i (g i (nth i l d))) ks l) d
  = if in_dec Nat.eq_dec k ks then (if Nat.ltb k (length l) then g k (nth k l d) else nth k l d)
    else nth k l d.
Proof.
  revert l; induction ks as [|i ks IH]; intros l Hnd; simpl; auto.
  inversion Hnd as [|? ? Hni Hnd']; subst.
  rewrite IH by exact Hnd'; rewrite set_nth_length.
  destruct (Nat.eq_dec i k) as [->|Hne].
  - destruct (in_dec Nat.eq_dec k ks) as [Hin|_]; [contradiction|].
    destruct (Nat.ltb_spec k (length l)).
    + apply nth_set_nth_eq; auto.
    + rewrite nth_overflow by (rewrite set_nth_length; lia).
      rewrite nth_overflow by lia; reflexivity.
  - rewrite !(nth_set_nth_ne l i k) by auto.
    destruct (in_dec Nat.eq_dec k ks); reflexivity.
Qed.

Lemma fold_modify_length {A} (g : nat -> A -> A) ks l d :
  length (fold_left (fun l i => set_nth l i (g i (nth i l d))) ks l) = length l.
Proof.
  revert l; induction ks as [|i ks IH]; intros l; simpl; auto.
  rewrite IH; apply set_nth_length.
Qed.

Lemma fold_modify_seq {A} (g : nat -> A -> A) s len l k d :
  s <= k < s + len -> k < length l ->
  nth k (fold_left (fun l i => set_nth l i (g i (nth i l d))) (seq s len) l) d
  = g k (nth k l d).
Proof.
  intros Hk Hl; rewrite fold_modify_nodup by apply seq_NoDup.
  destruct (in_dec Nat.eq_dec k (seq s len)) as [_|Hnin].
  - apply Nat.ltb_lt in Hl; rewrite Hl; reflexivity.
  - exfalso; apply Hnin, in_seq; lia.
Qed.

Lemma fold_modify_seq_out {A} (g : nat -> A -> A) s len l k d :
  k < s \/ s + len <= k ->
  nth k (fold_left (fun l i => set_nth l i (g i (nth i l d))) (seq s len) l) d
  = nth k l d.
Proof.
  intros Hk; rewrite fold_modify_nodup by apply seq_NoDup.
  destruct (in_dec Nat.eq_dec k (seq s len)) as [Hin|_]; [|reflexivity].
  apply in_seq in Hin; lia.
Qed.

(** [f 0 + ... + f (k - 1)] *)
Lemma dgemv_resid_spec (n p : nat) (x beta r : list R) i :
  i < n -> n <= length r ->
  length (dgemv_resid n p x beta r) = length r /\
  get (dgemv_resid n p x beta r) i
  = (get r i - sumR (fun j => get x (i + n * j) * get beta j) p)%R.
Proof.
  intros Hi Hr; unfold dgemv_resid; cbn [fofZ fmul fadd R_arith].
  induction p as [|p IH]; [simpl; split; [reflexivity|ring]|].
  rewrite seq_S, fold_left_app; cbn [fold_left sumR].
  change (0 + p) with p.
  destruct IH as [IHl IHv]; split.
  - rewrite fold_left_length_pres; [exact IHl|].
    intros; apply set_nth_length.
  - unfold get at 1.
    rewrite (fold_modify_seq (fun i v => (v + -1 * get beta p * get x (i + n * p))%R)
      0 n _ i 0%R) by (try rewrite IHl; lia).
    unfold get at 1 in IHv; cbn [f0 R_arith] in IHv; rewrite IHv; ring.
Qed.

Lemma memcpy_get_in {A} (dst src : list A) k i d :
  i < k -> k <= length src -> nth i (memcpy dst src k) d = nth i src d.
Proof.
  intros Hi Hk; unfold memcpy; rewrite app_nth1 by (rewrite length_firstn; lia).
  rewrite nth_firstn; replace (i <? k) with true by (symmetry; apply Nat.ltb_lt; lia); reflexivity.
Qed.

Lemma memcpy_full {A} (dst src : list A) k :
  length src = k -> k <= length dst -> memcpy dst src k = src ++ skipn k dst.
Proof. intros Hs Hd; unfold memcpy; rewrite firstn_all2 by lia; reflexivity. Qed.

Lemma memcpy_length {A} (dst src : list A) k :
  k <= length src -> k <= length dst -> length (memcpy dst src k) = length dst.
Proof.
  intros Hs Hd; unfold memcpy; rewrite length_app, length_firstn, length_skipn; lia.
Qed.

(** [fitwls] on success ([info = 0]): [beta] is the first [p] entries of the
    solved [wy], and the residuals are computed from the unweighted data,
    [resid[i] = y[i] - sum_j x[i + n*j] * beta[j]] for [i < n] *)
Theorem fitwls_resid_unweighted
    (dgels : nat -> nat -> list R -> list R -> list R * list R) dgels_query
    (n p : nat) (x y weight : list R) (lwork : Z) (st : fit_state R) :
  (0 <= lwork)%Z -> length y = n -> n <= length (fs_resid st) ->
  fst (fitwls dgels dgels_query n p x y weight lwork st) = 0%Z ->
  let st' := snd (fitwls dgels dgels_query n p x y weight lwork st) in
  fs_beta st' = memcpy (fs_beta st) (fs_wy st') p /\
  length (fs_resid st') = length (fs_resid st) /\
  forall i, i < n ->
    get (fs_resid st') i
    = (get y i - sumR (fun j => get x (i + n * j) * get (fs_beta st') j) p)%R.
Proof.
  intros Hlw Hy Hr; unfold fitwls.
  replace (Z.ltb lwork 0) with false by (symmetry; apply Z.ltb_ge; exact Hlw).
  destruct (fitwls_weighting n p x y weight (fs_wx st) (fs_wy st)) as [wx0 wy0].
  destruct (dgels n p wx0 wy0) as [wx wy].
  destruct (rank_deficient n p wx); simpl; [discriminate|].
  intros _; split; [reflexivity|].
  assert (Hm : n <= length (memcpy (fs_resid st) y n))
    by (rewrite memcpy_length; lia).
  split.
  - destruct n as [|n']; [unfold dgemv_resid; simpl|].
    + rewrite fold_left_length_pres; [apply memcpy_length; lia|].
      intros; reflexivity.
    + destruct (dgemv_resid_spec (S n') p x (memcpy (fs_beta st) wy p)
                  (memcpy (fs_resid st) y (S n')) 0) as [Hl _]; [lia|exact Hm|].
      rewrite Hl; apply memcpy_length; lia.
  - intros i Hi.
    destruct (dgemv_resid_spec n p x (memcpy (fs_beta st) wy p)
                (memcpy (fs_resid st) y n) i Hi Hm) as [_ ->].
    unfold get at 1; rewrite memcpy_get_in by lia; reflexivity.
Qed.

Lemma fold_sum_sumR (g : nat -> R) k a :
  fold_left (fun acc l => (acc + g l)%R) (seq 0 k) a = (a + sumR g k)%R.
Proof.
  induction k as [|k IH]; [simpl; ring|].
  rewrite seq_S, fold_left_app; simpl; rewrite IH; ring.
Qed.

Lemma nth_map_seq {A} (f : nat -> A) len k d :
  k < len -> nth k (map f (seq 0 len)) d = f k.
Proof.
  intros Hk; rewrite (nth_indep _ d (f 0)) by (rewrite length_map, length_seq; lia).
  rewrite map_nth, seq_nth by lia; reflexivity.
Qed.

Lemma dtrmm_rlt_get (n p : nat) (A B : list R) i j :
  i < n -> j < p ->
  get (dtrmm_rlt n p A B) (i + j * n)
  = sumR (fun l => get B (i + l * n) * get A (j + l * p))%R (S j).
Proof.
  intros Hi Hj; unfold dtrmm_rlt, get at 1.
  rewrite nth_map_seq by nia.
  destruct (divmod_pair n i j) as [-> ->]; [lia|].
  cbn [fadd fmul f0 R_arith]; rewrite fold_sum_sumR; ring.
Qed.

Lemma sumR_ext (f g : nat -> R) k :
  (forall l, l < k -> f l = g l) -> sumR f k = sumR g k.
Proof.
  induction k as [|k IH]; intros Hfg; simpl; auto.
  rewrite IH by (intros; apply Hfg; lia); rewrite Hfg by lia; reflexivity.
Qed.

Lemma sumR_nonneg (f : nat -> R) k :
  (forall l, l < k -> (0 <= f l)%R) -> (0 <= sumR f k)%R.
Proof.
  induction k as [|k IH]; intros Hf; simpl; [lra|].
  assert (0 <= sumR f k)%R by (apply IH; intros; apply Hf; lia).
  specialize (Hf k ltac:(lia)); lra.
Qed.

Lemma hat_first_loop (B h : list R) i :
  i < length h -> 
  forall n, i < n ->
  get (fold_left (fun hat i => set_nth hat i (sq (get B i))) (seq 0 n) h) i
  = (get B i * get B i)%R.
Proof.
  intros Hl n Hi; unfold get at 1.
  rewrite (fold_set_inside (fun i => sq (get B i))) by lia; reflexivity.
Qed.

Lemma hat_second_loop (n : nat) (B h : list R) k :
  n <= length h ->
  (forall i, i < n -> get h i = (get B i * get B i)%R) ->
  let h' := fold_left (fun hat j =>
              fold_left (fun hat i =>
                set_nth hat i (fadd (get hat i) (sq (get B (i + j * n)))))
                (seq 0 n) hat)
              (seq 1 k) h in
  length h' = length h /\
  forall i, i < n -> get h' i = sumR (fun j => get B (i + j * n) * get B (i + j * n))%R (S k).
Proof.
  intros Hl Hh; unfold sq; cbn [fadd fmul R_arith].
  induction k as [|k [IHl IHv]]; cbv zeta in *.
  - split; [reflexivity|]; intros i Hi; rewrite Hh by exact Hi; simpl.
    rewrite Nat.add_0_r; ring.
  - rewrite seq_S, fold_left_app; cbn [fold_left]; split.
    + rewrite fold_left_length_pres; [exact IHl|]; intros; apply set_nth_length.
    + intros i Hi; unfold get at 1.
      rewrite (fold_modify_seq (fun i v => (v + get B (i + (1 + k) * n) * get B (i + (1 + k) * n))%R)
        0 n _ i 0%R) by (try rewrite IHl; lia).
      unfold get at 1 in IHv; cbn [f0 R_arith] in IHv; rewrite IHv by exact Hi.
      change (sumR (fun j => get B (i + j * n) * get B (i + j * n))%R (S (S k)))
        with (sumR (fun j => get B (i + j * n) * get B (i + j * n))%R (S k)
              + get B (i + S k * n) * get B (i + S k * n))%R.
      reflexivity.
Qed.

Lemma hat_matrix_diag_gen (dtrtri : nat -> list R -> option (list R)) (n p : nat)
    (x weight L work_pp work_np hat h : list R) :
  1 <= p -> n <= length hat -> length x = n * p ->
  hat_matrix dtrtri n p x weight L work_pp work_np hat = Some h ->
  exists Linv, dtrtri p (memcpy work_pp L (p * p)) = Some Linv /\
  length h = length hat /\
  forall i, i < n ->
    get h i = (get weight i *
      sumR (fun j => Rsqr (sumR (fun l => get x (i + l * n) * get Linv (j + l * p)) (S j))) p)%R /\
    ((0 <= get weight i)%R -> (0 <= get h i)%R).
Proof.
  intros Hp Hl Hx; unfold hat_matrix.
  destruct (dtrtri p (memcpy work_pp L (p * p))) as [Linv|]; [|discriminate].
  intros Hs; pose proof (f_equal (fun o => match o with Some v => v | None => h end) Hs)
    as Hs'; cbv beta iota in Hs'; subst h.
  exists Linv; split; [reflexivity|].
  set (B := dtrmm_rlt n p Linv (memcpy work_np x (n * p))).
  set (h1 := fold_left (fun hat i => set_nth hat i (sq (get B i))) (seq 0 n) hat).
  assert (Hl1 : length h1 = length hat) by apply (fold_set_length (fun i => sq (get B i))).
  assert (Hv1 : forall i, i < n -> get h1 i = (get B i * get B i)%R)
    by (intros i Hi; apply hat_first_loop; lia).
  destruct (hat_second_loop n B h1 (p - 1) ltac:(lia) Hv1) as [Hl2 Hv2].
  cbv zeta in Hl2, Hv2.
  replace (S (p - 1)) with p in Hv2 by lia.
  set (h2 := fold_left _ (seq 1 (p - 1)) h1) in Hl2, Hv2 |- *.
  assert (Hsum : forall i, i < n ->
    get h2 i = sumR (fun j => Rsqr (sumR (fun l => get x (i + l * n) * get Linv (j + l * p))%R (S j))) p).
  { intros i Hi; rewrite Hv2 by exact Hi; apply sumR_ext; intros j Hj.
    unfold B; rewrite dtrmm_rlt_get by lia; unfold Rsqr; f_equal; apply sumR_ext;
      intros l Hlj; unfold get at 1; rewrite memcpy_get_in by nia; reflexivity. }
  split.
  - rewrite fold_left_length_pres by (intros; apply set_nth_length); lia.
  - intros i Hi.
    assert (Hval : get (fold_left (fun hat i => set_nth hat i (fmul (get hat i) (get weight i)))
                   (seq 0 n) h2) i
      = (get weight i * sumR (fun j => Rsqr (sumR (fun l => get x (i + l * n) * get Linv (j + l * p))%R (S j))) p)%R).
    { unfold get at 1.
      rewrite (fold_modify_seq (fun i v => (v * get weight i)%R) 0 n h2 i 0%R) by lia.
      unfold get at 1 in Hsum; cbn [f0 R_arith] in Hsum; rewrite Hsum by exact Hi; ring. }
    rewrite Hval; split; [reflexivity|].
    intros Hw; apply Rmult_le_pos; [exact Hw|].
    apply sumR_nonneg; intros; apply Rle_0_sqr.
Qed.

(** [hat_matrix] on success: the inverse [Linv] of the copy of [L] is used,
    [hat[i] = w[i] * sum_j (sum_{l <= j} x[i + l*n] * Linv[j + l*p])^2], and
    it is nonnegative when the weight is *)
Theorem hat_matrix_diag (dtrtri : nat -> list R -> option (list R)) (n p : nat)
    (x weight L work_pp work_np hat h : list R) :
  1 <= p -> n <= length hat -> length x = n * p ->
  hat_matrix dtrtri n p x weight L work_pp work_np hat = Some h ->
  exists Linv, dtrtri p (memcpy work_pp L (p * p)) = Some Linv /\
  length h = length hat /\
  forall i, i < n ->
    get h i = (get weight i *
      sumR (fun j => Rsqr (sumR (fun l => get x (i + l * n) * get Linv (j + l * p)) (S j))) p)%R /\
    ((0 <= get weight i)%R -> (0 <= get h i)%R).
Proof. exact (hat_matrix_diag_gen dtrtri n p x weight L work_pp work_np hat h). Qed.

(** ** C9: weights scaled by a constant *)


Section A5Scale.

Variables (dgels : nat -> nat -> list R -> list R -> list R * list R)
          (dgels_query : nat -> nat -> Z)
          (dtrtri : nat -> list R -> option (list R))
          (qt : R -> R -> Z -> Z -> R).
Variables (n p : nat) (x y w : list R) (sigma alpha : R) (lwork : Z) (c : R).

Hypothesis Hc : (0 < c)%R.
Hypothesis Hp : 1 <= p.
Hypothesis Hx : length x = n * p.
Hypothesis Hlw : (0 <= lwork)%Z.
Hypothesis dgels_length : forall A b,
  length (fst (dgels n p A b)) = length A /\ length (snd (dgels n p A b)) = length b.
Hypothesis dgels_scale : forall s A b, (0 < s)%R -> length A = n * p -> length b = n ->
  (forall i j, i <= j < p ->
     get (fst (dgels n p (map (Rmult s) A) (map (Rmult s) b))) (i + j * n)
     = (s * get (fst (dgels n p A b)) (i + j * n))%R) /\
  ((forall i, i < p -> get (fst (dgels n p A b)) (i + i * n) <> 0%R) ->
   firstn p (snd (dgels n p (map (Rmult s) A) (map (Rmult s) b)))
   = firstn p (snd (dgels n p A b))).
Hypothesis dtrtri_scale : forall s A A', (0 < s)%R ->
  (forall r k, k <= r < p -> get A' (r + k * p) = (s * get A (r + k * p))%R) ->
  match dtrtri p A, dtrtri p A' with
  | None, None => True
  | Some B, Some B' =>
      forall r k, k <= r < p -> get B' (r + k * p) = (/ s * get B (r + k * p))%R
  | _, _ => False
  end.









End A5Scale.








Lemma get_set_nth_eq (l : list R) i v : i < length l -> get (set_nth l i v) i = v.
Proof. intros; unfold get; apply nth_set_nth_eq; auto. Qed.

Lemma get_set_nth_ne (l : list R) i j v : i <> j -> get (set_nth l i v) j = get l j.
Proof. intros; unfold get; apply nth_set_nth_ne; auto. Qed.

Lemma inner_gen_fold op p i b c s len L u :
  let Lu' := fold_left (inner_gen op p i b c) (seq s len) (L, u) in
  length (fst Lu') = length L /\ length (snd Lu') = length u /\
  (forall idx, (forall j, s <= j < s + len -> idx <> p * i + j) ->
     get (fst Lu') idx = get L idx) /\
  (forall j, j < s \/ s + len <= j -> get (snd Lu') j = get u j) /\
  (forall j, s <= j < s + len -> p * i + j < length L -> j < length u ->
     get (fst Lu') (p * i + j) = (op (get L (p * i + j)) (c * get u j) / b)%R /\
     get (snd Lu') j = (b * get u j - c * (op (get L (p * i + j)) (c * get u j) / b))%R).
Proof.
  revert s L u; induction len as [|len IH]; intros s L u; cbv zeta.
  - simpl; repeat split; auto; intros; lia.
  - cbn [seq fold_left].
    set (L1 := set_nth (set_nth L (p * i + s) (op (get L (p * i + s)) (c * get u s)%R))
                 (p * i + s)
                 (get (set_nth L (p * i + s) (op (get L (p * i + s)) (c * get u s)%R))
                    (p * i + s) / b)%R).
    set (u1 := set_nth u s (b * get u s - c * get L1 (p * i + s))%R).
    change (inner_gen op p i b c (L, u) s) with (L1, u1).
    destruct (IH (S s) L1 u1) as (Hl & Hu & HL & HU & Hv); cbv zeta in *.
    assert (HL1l : length L1 = length L) by (unfold L1; rewrite !set_nth_length; auto).
    assert (Hu1l : length u1 = length u) by (unfold u1; rewrite set_nth_length; auto).
    assert (HL1o : forall idx, idx <> p * i + s -> get L1 idx = get L idx)
      by (intros; unfold L1; rewrite !get_set_nth_ne by auto; reflexivity).
    assert (Hu1o : forall j, j <> s -> get u1 j = get u j)
      by (intros; unfold u1; rewrite get_set_nth_ne by auto; reflexivity).
    split; [rewrite Hl; auto|].
    split; [rewrite Hu; auto|].
    split.
    { intros idx Hidx; rewrite HL by (intros; apply Hidx; lia).
      apply HL1o; apply Hidx; lia. }
    split.
    { intros j Hj; rewrite HU by lia; apply Hu1o; lia. }
    intros j Hj HjL Hju; destruct (Nat.eq_dec j s) as [->|Hne].
    + rewrite HL, HU by (intros; lia); unfold u1, L1.
      rewrite (get_set_nth_eq u) by auto.
      rewrite !get_set_nth_eq by (try rewrite set_nth_length; auto); split; reflexivity.
    + destruct (Hv j ltac:(lia) ltac:(lia) ltac:(lia)) as [H1 H2].
      rewrite H1, H2, HL1o, Hu1o by lia; split; reflexivity.
Qed.

Lemma chol_update_col_gen p (L u : list R) i :
  chol_update_col p (L, u) i
  = let l := get L (p * i + i) in
    let v := get u i in
    let a := sqrt (l * l + v * v) in
    fold_left (inner_gen Rplus p i (a / l) (v / l)) (seq (S i) (p - 1 - i))
      (set_nth L (p * i + i) a, u).
Proof.
  unfold chol_update_col; replace (i * (p + 1)) with (p * i + i) by ring; reflexivity.
Qed.

Lemma chol_downdate_col_gen p (L u : list R) i :
  chol_downdate_col p (L, u) i
  = let l := get L (p * i + i) in
    let v := get u i in
    if Rltb (l * l - v * v) 0 then None else
    let a := sqrt (l * l - v * v) in
    Some (fold_left (inner_gen Rminus p i (a / l) (v / l)) (seq (S i) (p - 1 - i))
      (set_nth L (p * i + i) a, u)).
Proof.
  unfold chol_downdate_col, downdate_radicand; replace (i * (p + 1)) with (p * i + i) by ring;
    reflexivity.
Qed.

Lemma list_ext_get (l1 l2 : list R) :
  length l1 = length l2 -> (forall k, k < length l1 -> get l1 k = get l2 k) -> l1 = l2.
Proof. intros Hl Hk; apply nth_ext with (d := 0%R) (d' := 0%R); auto. Qed.

Lemma col_round_trip p i (L u M : list R) :
  i < p -> length L = p * p -> length u = p -> length M = p * p ->
  (0 < get L (p * i + i))%R ->
  (forall j, j < p -> get M (p * i + j) = get (fst (chol_update_col p (L, u) i)) (p * i + j)) ->
  exists M', chol_downdate_col p (M, u) i = Some (M', snd (chol_update_col p (L, u) i)) /\
    length M' = p * p /\
    (forall j, j < p -> get M' (p * i + j) = get L (p * i + j)) /\
    (forall idx, idx < p * i \/ p * i + p <= idx -> get M' idx = get M idx).
Proof.
  intros Hi HL Hu HM Hl HMb.
  rewrite chol_update_col_gen in HMb |- *; cbv zeta in HMb |- *.
  set (l := get L (p * i + i)) in *.
  set (v := get u i) in *.
  set (a := sqrt (l * l + v * v)) in *.
  assert (Hpos : (0 < l * l + v * v)%R) by nra.
  assert (Ha : (0 < a)%R) by (apply sqrt_lt_R0; exact Hpos).
  assert (Ha2 : (a * a = l * l + v * v)%R) by (apply sqrt_sqrt; lra).
  assert (Hdl : p * i + i < length L) by nia.
  destruct (inner_gen_fold Rplus p i (a / l) (v / l) (S i) (p - 1 - i)
              (set_nth L (p * i + i) a) u) as (Hl1 & Hu1 & HL1o & HU1o & HV1).
  cbv zeta in Hl1, Hu1, HL1o, HU1o, HV1.
  set (U := fold_left _ _ _) in Hl1, Hu1, HL1o, HU1o, HV1, HMb |- *.
  rewrite set_nth_length in Hl1, HV1.
  (* the block of the updated factor *)
  assert (HMd : get M (p * i + i) = a).
  { rewrite HMb by lia; rewrite HL1o by (intros; lia).
    apply get_set_nth_eq; exact Hdl. }
  rewrite chol_downdate_col_gen; cbv zeta; rewrite HMd; fold v.
  replace (a * a - v * v)%R with (l * l)%R by lra.
  unfold Rltb; destruct (Rlt_dec (l * l) 0) as [Hneg|_]; [nra|].
  rewrite sqrt_square by lra.
  destruct (inner_gen_fold Rminus p i (l / a) (v / a) (S i) (p - 1 - i)
              (set_nth M (p * i + i) l) u) as (Hl2 & Hu2 & HL2o & HU2o & HV2).
  cbv zeta in Hl2, Hu2, HL2o, HU2o, HV2.
  set (D := fold_left _ _ _) in Hl2, Hu2, HL2o, HU2o, HV2 |- *.
  rewrite set_nth_length in Hl2, HV2.
  destruct D as [M' u2] eqn:HD; simpl fst in *; simpl snd in *.
  destruct U as [L1 u1] eqn:HU; simpl fst in *; simpl snd in *.
  assert (HMj : forall j, i < j < p ->
    get M (p * i + j) = ((get L (p * i + j) + v / l * get u j) / (a / l))%R).
  { intros j Hj; rewrite HMb by lia.
    destruct (HV1 j ltac:(lia) ltac:(nia) ltac:(lia)) as [-> _].
    rewrite get_set_nth_ne by lia; reflexivity. }
  exists M'; split; [|split; [|split]].
  - f_equal; f_equal; apply list_ext_get; [lia|].
    intros k Hk; rewrite Hu2, Hu in Hk.
    destruct (Nat.le_gt_cases k i) as [Hki|Hki].
    + rewrite HU2o, HU1o by lia; reflexivity.
    + destruct (HV2 k ltac:(lia) ltac:(nia) ltac:(lia)) as [_ ->].
      destruct (HV1 k ltac:(lia) ltac:(nia) ltac:(lia)) as [_ ->].
      rewrite !get_set_nth_ne by lia; rewrite HMj by lia.
      set (Lk := get L (p * i + k)); set (uk := get u k).
      field_simplify_eq; [|lra..].
      replace (a ^ 2)%R with (l * l + v * v)%R by (rewrite <- Ha2; ring).
      ring.
  - lia.
  - intros j Hj.
    destruct (lt_eq_lt_dec j i) as [[Hji| ->]|Hji].
    + rewrite HL2o by (intros; lia); rewrite get_set_nth_ne by lia.
      rewrite HMb by lia; rewrite HL1o by (intros; lia).
      apply get_set_nth_ne; lia.
    + rewrite HL2o by (intros; lia); apply get_set_nth_eq; lia.
    + destruct (HV2 j ltac:(lia) ltac:(nia) ltac:(lia)) as [-> _].
      rewrite get_set_nth_ne by lia; rewrite HMj by lia.
      field; lra.
  - intros idx Hidx; rewrite HL2o by (intros; lia); apply get_set_nth_ne; lia.
Qed.

Lemma chol_update_col_u_length p (L u : list R) i :
  length (snd (chol_update_col p (L, u) i)) = length u.
Proof.
  rewrite chol_update_col_gen; cbv zeta.
  destruct (inner_gen_fold Rplus p i (sqrt (get L (p * i + i) * get L (p * i + i) +
       get u i * get u i) / get L (p * i + i)) (get u i / get L (p * i + i)) (S i) (p - 1 - i)
       (set_nth L (p * i + i) (sqrt (get L (p * i + i) * get L (p * i + i) +
       get u i * get u i))) u) as (_ & Hu & _).
  exact Hu.
Qed.

Lemma update_fold_lengths p k (L u : list R) :
  length (fst (fold_left (chol_update_col p) (seq 0 k) (L, u))) = length L /\
  length (snd (fold_left (chol_update_col p) (seq 0 k) (L, u))) = length u.
Proof.
  induction k as [|k IH]; [simpl; auto|].
  rewrite seq_S, fold_left_app; cbn [fold_left].
  destruct (fold_left (chol_update_col p) (seq 0 k) (L, u)) as [L' u'] eqn:E.
  simpl in IH; destruct IH as [IH1 IH2].
  rewrite chol_update_col_u_length.
  rewrite (chol_update_col_length p (L', u')); simpl; auto.
Qed.

Lemma update_fold_local p a k (Lu : list R * list R) idx :
  a + k <= p -> idx < p * a \/ p * (a + k) <= idx ->
  get (fst (fold_left (chol_update_col p) (seq a k) Lu)) idx = get (fst Lu) idx.
Proof.
  revert a Lu; induction k as [|k IH]; intros a Lu Hk Hidx; [reflexivity|].
  cbn [seq fold_left]; rewrite IH by nia.
  apply chol_update_col_get; nia.
Qed.

Lemma chol_update_fst (L u : list R) p idx :
  idx <> p * p - 1 ->
  get (fst (chol_update L u p)) idx
  = get (fst (fold_left (chol_update_col p) (seq 0 (p - 1)) (L, u))) idx.
Proof.
  intros Hne; unfold chol_update.
  destruct (fold_left (chol_update_col p) (seq 0 (p - 1)) (L, u)) as [L' u']; simpl.
  apply get_set_nth_ne; lia.
Qed.

Lemma downdate_loop_after_update p (L u : list R) k :
  1 <= p -> length L = p * p -> length u = p ->
  (forall i, i < p -> (0 < get L (i * (p + 1)))%R) -> k <= p - 1 ->
  exists M,
    chol_downdate_loop p k (fst (chol_update L u p), u)
    = (WBACON_ERROR_OK, (M, snd (fold_left (chol_update_col p) (seq 0 k) (L, u)))) /\
    length M = p * p /\
    (forall idx, idx < p * k -> get M idx = get L idx) /\
    (forall idx, p * k <= idx -> get M idx = get (fst (chol_update L u p)) idx).
Proof.
  intros Hp HL Hu Hdiag; induction k as [|k IH]; intros Hk.
  - exists (fst (chol_update L u p)); simpl; repeat split; auto.
    + rewrite chol_update_length; exact HL.
    + intros; lia.
  - destruct IH as (M & Hloop & HMl & HMlo & HMhi); [lia|].
    cbn [chol_downdate_loop]; rewrite Hloop.
    rewrite seq_S, fold_left_app; cbn [fold_left]; change (0 + k) with k.
    destruct (update_fold_lengths p k L u) as [HUl HUu].
    destruct (fold_left (chol_update_col p) (seq 0 k) (L, u)) as [LU uU] eqn:HUk.
    simpl in HUl, HUu.
    assert (HLUk : forall idx, p * k <= idx -> get LU idx = get L idx).
    { intros idx Hidx.
      pose proof (update_fold_local p 0 k (L, u) idx ltac:(lia) ltac:(right; lia)) as E.
      rewrite HUk in E; exact E. }
    destruct (col_round_trip p k LU uU M ltac:(lia) ltac:(lia) ltac:(lia) HMl) as
      (M' & Hcol & HM'l & HM'b & HM'o).
    + rewrite HLUk by lia; replace (p * k + k) with (k * (p + 1)) by ring.
      apply Hdiag; lia.
    + intros j Hj; rewrite HMhi by lia.
      rewrite chol_update_fst by nia.
      replace (p - 1) with (S k + (p - 1 - S k)) by lia.
      rewrite seq_app, fold_left_app.
      rewrite update_fold_local by nia.
      rewrite seq_S, fold_left_app, HUk; reflexivity.
    + cbv beta iota; cbn [snd]; rewrite Hcol; exists M'; split; [reflexivity|]; split; [exact HM'l|]; split.
      * intros idx Hidx; destruct (Nat.lt_ge_cases idx (p * k)) as [Hlt|Hge].
        -- rewrite HM'o by lia; apply HMlo; exact Hlt.
        -- replace idx with (p * k + (idx - p * k)) by lia.
           rewrite HM'b by nia; apply HLUk; lia.
      * intros idx Hidx; rewrite HM'o by nia; apply HMhi; nia.
Qed.

(** In exact arithmetic, a rank-one downdate by the same vector undoes
    [chol_update] on a Cholesky factor with a positive diagonal: the
    downdate succeeds and gives back [L] *)
Theorem chol_downdate_undoes_update (p : nat) (L u : list R) :
  1 <= p -> length L = p * p -> length u = p ->
  (forall i, i < p -> (0 < get L (i * (p + 1)))%R) ->
  chol_downdate (fst (chol_update L u p)) u p
  = (WBACON_ERROR_OK, (L, snd (chol_update L u p))).
Proof.
  intros Hp HL Hu Hdiag.
  destruct (downdate_loop_after_update p L u (p - 1) Hp HL Hu Hdiag ltac:(lia))
    as (M & Hloop & HMl & HMlo & HMhi).
  unfold chol_downdate; rewrite Hloop; cbv beta iota.
  destruct (update_fold_lengths p (p - 1) L u) as [HUl HUu].
  assert (HLU : forall idx, p * (p - 1) <= idx ->
             get (fst (fold_left (chol_update_col p) (seq 0 (p - 1)) (L, u))) idx = get L idx).
  { intros idx Hidx; apply (update_fold_local p 0 (p - 1) (L, u)); lia. }
  unfold chol_update in HMhi |- *.
  destruct (fold_left (chol_update_col p) (seq 0 (p - 1)) (L, u)) as [LU uU].
  simpl fst in *; simpl snd in *.
  assert (Hlast : p * (p - 1) <= p * p - 1) by nia.
  rewrite (HMhi (p * p - 1)) by exact Hlast.
  rewrite get_set_nth_eq by nia.
  rewrite HLU by exact Hlast.
  set (l := get L (p * p - 1)); set (v := get uU (p - 1)).
  assert (Hl : (0 < l)%R) by (unfold l; rewrite <- last_diag_index by exact Hp; apply Hdiag; lia).
  unfold sq; cbn [fsub fmul fadd fsqrt fltb f0 R_arith].
  rewrite sqrt_sqrt by nra.
  replace (l * l + v * v - v * v)%R with (l * l)%R by ring.
  unfold Rltb; destruct (Rlt_dec (l * l) 0) as [Hneg|_]; [nra|].
  rewrite sqrt_square by lra.
  f_equal; f_equal; apply list_ext_get; [rewrite set_nth_length; lia|].
  rewrite set_nth_length, HMl; intros k Hk.
  destruct (Nat.eq_dec k (p * p - 1)) as [->|Hne].
  - rewrite get_set_nth_eq by lia; reflexivity.
  - rewrite get_set_nth_ne by lia.
    destruct (Nat.lt_ge_cases k (p * (p - 1))) as [Hlt|Hge].
    + apply HMlo; exact Hlt.
    + rewrite HMhi by exact Hge; rewrite get_set_nth_ne by lia; apply HLU; exact Hge.
Qed.

Lemma index_inj p r c j i : r < p -> j < p -> r + c * p = j + i * p -> r = j /\ c = i.
Proof.
  intros Hr Hj E.
  destruct (divmod_pair p r c Hr) as [D1 M1]; destruct (divmod_pair p j i Hj) as [D2 M2].
  rewrite E in D1, M1; split; congruence.
Qed.

Section Triangle.
Context {F : Type} `{DoubleArith F}.

Lemma upper_not_written p r c i :
  r < c < p ->
  r + c * p <> i * (p + 1) /\ (forall j, S i <= j < p -> r + c * p <> p * i + j).
Proof.
  intros Hrc; split.
  - intros E; destruct (Nat.lt_ge_cases i p) as [Hi|Hi].
    + replace (i * (p + 1)) with (i + i * p) in E by ring.
      destruct (index_inj p r c i i ltac:(lia) Hi E); lia.
    + nia.
  - intros j Hj E; replace (p * i + j) with (j + i * p) in E by ring.
    destruct (index_inj p r c j i ltac:(lia) ltac:(lia) E); lia.
Qed.

Lemma update_fold_upper p r c ks Lu :
  r < c < p ->
  get (fst (fold_left (chol_update_col p) ks Lu)) (r + c * p) = get (fst Lu) (r + c * p).
Proof.
  intros Hrc; revert Lu; induction ks as [|i ks IH]; intros Lu; simpl; auto.
  rewrite IH; destruct (upper_not_written p r c i Hrc) as [H1 H2].
  apply chol_update_col_get; auto.
Qed.

Lemma downdate_loop_upper p r c k Lu e s :
  r < c < p -> chol_downdate_loop p k Lu = (e, s) ->
  get (fst s) (r + c * p) = get (fst Lu) (r + c * p).
Proof.
  intros Hrc; revert e s; induction k as [|k IH]; simpl; intros e s Hk.
  - inversion Hk; reflexivity.
  - destruct (chol_downdate_loop p k Lu) as [e0 s0] eqn:E.
    destruct e0; try (inversion Hk; subst; eapply IH; reflexivity).
    destruct (chol_downdate_col p s0 k) as [s1|] eqn:C; inversion Hk; subst.
    + destruct (upper_not_written p r c k Hrc) as [H1 H2].
      rewrite (chol_downdate_col_get _ _ _ _ _ C H1 H2); eapply IH; reflexivity.
    + eapply IH; reflexivity.
Qed.

End Triangle.

(** [chol_update] and [chol_downdate] never write the strict upper triangle
    of [L] (row [r] < column [c]) *)
Theorem chol_keeps_upper_triangle {F : Type} `{DoubleArith F} (p : nat) (L u : list F) r c :
  r < c < p ->
  get (fst (chol_update L u p)) (r + c * p) = get L (r + c * p) /\
  get (fst (snd (chol_downdate L u p))) (r + c * p) = get L (r + c * p).
Proof.
  intros Hrc.
  assert (Hlast : r + c * p <> p * p - 1).
  { intros E; replace (p * p - 1) with ((p - 1) + (p - 1) * p) in E by nia.
    destruct (index_inj p r c (p - 1) (p - 1) ltac:(lia) ltac:(lia) E); lia. }
  split.
  - unfold chol_update.
    pose proof (update_fold_upper p r c (seq 0 (p - 1)) (L, u) Hrc) as Hf.
    destruct (fold_left (chol_update_col p) (seq 0 (p - 1)) (L, u)) as [L' u'].
    simpl in *; unfold get in *; rewrite nth_set_nth_ne by lia; exact Hf.
  - unfold chol_downdate.
    destruct (chol_downdate_loop p (p - 1) (L, u)) as [e [L' u']] eqn:E.
    pose proof (downdate_loop_upper p r c (p - 1) (L, u) e (L', u') Hrc E) as Hf.
    simpl in Hf.
    destruct e; simpl; auto.
    destruct (fltb _ f0); simpl; auto.
    unfold get in *; rewrite nth_set_nth_ne by lia; exact Hf.
Qed.

Lemma a5_loop_ok {F : Type} `{DoubleArith F} dgels dgels_query dtrtri qt n p x y w
    sigma alpha lwork fuel iter (st st' : a5_state F) :
  a5_loop dgels dgels_query dtrtri qt n p x y w sigma alpha lwork fuel iter st
    = (WBACON_ERROR_OK, st') ->
  (iter <= a5_maxiter st' <= a5_maxiter st)%Z /\
  subsets_identical n (a5_subset0 st') (a5_subset1 st') = true.
Proof.
  revert iter st; induction fuel as [|fuel IH]; intros iter st Hl; simpl in Hl;
    [discriminate|].
  destruct (Z.leb_spec iter (a5_maxiter st)) as [Hle|]; [|discriminate].
  destruct (a5_body dgels dgels_query dtrtri qt n p x y w sigma alpha lwork iter st)
    as [[e|] s] eqn:Eb.
  - injection Hl as -> ->.
    destruct (a5_body_reached dgels dgels_query dtrtri qt n p x y w sigma alpha lwork
                iter st _ st' Eb (or_intror eq_refl))
      as (fs & dist & _ & _ & _ & _ & _ & _ & [(Hid & _ & Hm & Hs0)|(_ & Hc & _)]);
      [|discriminate].
    rewrite Hm, Hs0; split; [lia|exact Hid].
  - pose proof (a5_body_next_maxiter dgels dgels_query dtrtri qt n p x y w sigma alpha
                  lwork _ _ _ Eb) as Hm.
    destruct (IH (iter + 1)%Z s Hl) as [Hr Hid]; split; [lia|exact Hid].
Qed.

(** [algorithm_5] returns OK only after the two subsets agree on all [n]
    observations, with the iteration count [maxiter] written back between 1
    and the given maximum *)
Theorem algorithm_5_converged {F : Type} `{DoubleArith F} dgels dgels_query dtrtri qt
    n p x y w sigma alpha lwork (st st' : a5_state F) :
  algorithm_5 dgels dgels_query dtrtri qt n p x y w sigma alpha lwork st
    = (WBACON_ERROR_OK, st') ->
  (1 <= a5_maxiter st' <= a5_maxiter st)%Z /\
  (forall i, i < n -> nth i (a5_subset0 st') 0%Z = nth i (a5_subset1 st') 0%Z).
Proof.
  unfold algorithm_5; intros Hl.
  destruct (a5_loop_ok _ _ _ _ _ _ _ _ _ _ _ _ _ _ _ _ Hl) as [Hr Hid].
  split; [exact Hr|].
  intros i Hi; unfold subsets_identical in Hid; rewrite forallb_forall in Hid.
  apply Z.lxor_eq_0_iff, Z.eqb_eq, Hid, in_seq; lia.
Qed.

Section XtyProofs.
Variables (n p : nat) (x y weight : list R).

Lemma xty_obs_snd op i (xtx xty : list R) :
  snd (xty_obs n p x y weight op i xtx xty)
  = fold_left (fun xty j => set_nth xty j (op (nth j xty 0%R) (xty_term n x y weight i j))) (seq 0 p) xty.
Proof.
  unfold xty_obs; generalize (seq 0 p) as ks; revert xtx xty.
  intros xtx xty ks; revert xtx xty; induction ks as [|k ks IH]; intros xtx xty; simpl; auto.

Qed.

Lemma xty_obs_spec op i (xtx xty : list R) :
  length xty = p ->
  length (snd (xty_obs n p x y weight op i xtx xty)) = p /\
  forall j, j < p -> get (snd (xty_obs n p x y weight op i xtx xty)) j = op (get xty j) (xty_term n x y weight i j).
Proof.
  intros Hl; rewrite xty_obs_snd; split.
  - rewrite fold_left_length_pres; [exact Hl|]; intros; apply set_nth_length.
  - intros j Hj; unfold get at 1.
    rewrite (fold_modify_seq (fun j v => op v (xty_term n x y weight i j))) by lia; reflexivity.
Qed.

Lemma firstn_set_nth_S {A} (l : list A) k v :
  k < length l -> firstn (S k) (set_nth l k v) = firstn k l ++ [v].
Proof.
  revert k; induction l as [|h t IH]; intros [|k] Hk; simpl in *; try lia; auto.
  rewrite IH by lia; reflexivity.
Qed.

Variables (s0 s1 : list Z).

Lemma first_pass_xty_inv k (st0 : chol_xty_state R) :
  k <= n -> length (cx_xty st0) = p -> length (cx_iarray st0) = n ->
  let '(st, _, nd) := fold_left (first_pass_step n p x y weight s0 s1) (seq 0 k) (st0, 0, 0) in
  length (cx_xty st) = p /\ length (cx_iarray st) = n /\
  (forall j, j < p -> get (cx_xty st) j
     = (get (cx_xty st0) j + sumR (fun i => if is_up s0 s1 i then xty_term n x y weight i j else 0%R) k)%R) /\
  firstn nd (cx_iarray st) = filter (is_down s0 s1) (seq 0 k) /\ nd <= k.
Proof.
  intros Hk Hx Hi; induction k as [|k IH].
  - simpl; repeat split; auto; intros j Hj; cbn [sumR]; lra.
  - rewrite seq_S, fold_left_app, Nat.add_0_l; cbn [fold_left].
    destruct (fold_left (first_pass_step n p x y weight s0 s1) (seq 0 k) (st0, 0, 0))
      as [[st nu] nd].
    destruct (IH ltac:(lia)) as (Hx' & Hi' & Hs & Hf & Hnd).
    rewrite filter_app; cbn [filter].
    unfold first_pass_step.
    destruct (Z.gtb (nth k s1 0%Z) (nth k s0 0%Z)) eqn:Hup.
    + destruct (xty_obs n p x y weight fadd k (cx_work_p st) (cx_xty st)) as [xtx xty] eqn:X.
      destruct (chol_update (cx_L st) xtx p) as [L xtx'].
      pose proof (xty_obs_spec fadd k (cx_work_p st) (cx_xty st) Hx') as [HXl HXg].
      rewrite X in HXl, HXg; cbn [snd] in HXl, HXg.
      assert (Hd : is_down s0 s1 k = false) by (unfold is_down, is_up; rewrite Hup; reflexivity).
      rewrite Hd, app_nil_r; cbn [cx_xty cx_iarray set_L_xty].
      repeat split; auto; try lia.
      intros j Hj; rewrite HXg by exact Hj; cbn [fadd R_arith]; rewrite Hs by exact Hj.
      cbn [sumR]; unfold is_up; rewrite Hup; lra.
    + destruct (Z.ltb (nth k s1 0%Z) (nth k s0 0%Z)) eqn:Hlt.
      * assert (Hd : is_down s0 s1 k = true) by (unfold is_down, is_up; rewrite Hup, Hlt; reflexivity).
        rewrite Hd; cbn [cx_xty cx_iarray].
        repeat split; auto; try lia.
        -- rewrite set_nth_length; exact Hi'.
        -- intros j Hj; rewrite Hs by exact Hj; cbn [sumR]; unfold is_up; rewrite Hup; lra.
        -- rewrite firstn_set_nth_S by lia. rewrite Hf; reflexivity.
      * assert (Hd : is_down s0 s1 k = false) by (unfold is_down, is_up; rewrite Hup, Hlt; reflexivity).
        rewrite Hd, app_nil_r.
        repeat split; auto; try lia.
        intros j Hj; rewrite Hs by exact Hj; cbn [sumR]; unfold is_up; rewrite Hup; lra.
Qed.

Lemma second_pass_ok ks (st st' : chol_xty_state R) :
  length (cx_xty st) = p ->
  second_pass n p x y weight ks st = (WBACON_ERROR_OK, st') ->
  cx_iarray st' = cx_iarray st /\
  forall j, j < p -> get (cx_xty st') j
    = (get (cx_xty st) j - fold_right Rplus 0%R (map (fun k => xty_term n x y weight (nth k (cx_iarray st) 0%nat) j) ks))%R.
Proof.
  revert st; induction ks as [|k ks IH]; intros st Hx Hs; cbn [second_pass] in Hs.
  - inversion Hs; subst; split; auto; intros; cbn [map fold_right]; lra.
  - destruct (xty_obs n p x y weight fsub (nth k (cx_iarray st) 0) (cx_work_p st) (cx_xty st))
      as [xtx xty] eqn:X.
    pose proof (xty_obs_spec fsub (nth k (cx_iarray st) 0) (cx_work_p st) (cx_xty st) Hx)
      as [HXl HXg].
    rewrite X in HXl, HXg; cbn [snd] in HXl, HXg.
    destruct (chol_downdate (cx_L st) xtx p) as [e [L xtx']].
    destruct e; try discriminate.
    destruct (IH (set_L_xty st L xty xtx') HXl Hs) as [Hia Hg]; cbn [cx_iarray cx_xty set_L_xty] in Hia, Hg.
    split; auto.
    intros j Hj; rewrite Hg, HXg by exact Hj; cbn [fsub R_arith map fold_right]; lra.
Qed.

Lemma fold_right_Rplus_acc (l : list R) a :
  fold_right Rplus a l = (fold_right Rplus 0%R l + a)%R.
Proof.
  induction l as [|h t IH]; cbn [fold_right]; [lra|rewrite IH; lra].
Qed.

Lemma sum_filter (f : nat -> bool) (g : nat -> R) k :
  fold_right Rplus 0%R (map g (filter f (seq 0 k))) = sumR (fun i => if f i then g i else 0%R) k.
Proof.
  induction k as [|k IH]; [reflexivity|].
  rewrite seq_S, filter_app, map_app, fold_right_app, fold_right_Rplus_acc, IH, Nat.add_0_l;
    cbn [filter sumR].
  destruct (f k); cbn [map fold_right]; lra.
Qed.

Lemma map_nth_seq_firstn (l : list nat) k :
  k <= length l -> map (fun q => nth q l 0) (seq 0 k) = firstn k l.
Proof.
  revert k; induction l as [|h t IH]; intros [|k] Hk; simpl in *; try lia; auto.
  f_equal; rewrite <- seq_shift, map_map; simpl; apply IH; lia.
Qed.

Lemma update_chol_xty_delta (st st' : chol_xty_state R) :
  length (cx_xty st) = p -> length (cx_iarray st) = n ->
  update_chol_xty n p x y weight s0 s1 st = (WBACON_ERROR_OK, st') ->
  forall j, j < p -> get (cx_xty st') j
    = (get (cx_xty st) j + sumR (fun i => if is_up s0 s1 i then xty_term n x y weight i j else 0%R) n
       - sumR (fun i => if is_down s0 s1 i then xty_term n x y weight i j else 0%R) n)%R.
Proof.
  intros Hx Hi Hu j Hj; unfold update_chol_xty in Hu.
  set (st1 := mk_chol_xty_state (cx_L st) (cx_xty st) (memcpy (cx_work_pp st) (cx_L st) (p * p))
                (memcpy (cx_work_np st) (cx_xty st) p) (cx_work_p st) (cx_iarray st)) in Hu.
  pose proof (first_pass_xty_inv n st1 (le_n n) Hx Hi) as Hfp.
  destruct (fold_left (first_pass_step n p x y weight s0 s1) (seq 0 n) (st1, 0, 0))
    as [[st2 nu] nd].
  destruct Hfp as (Hx2 & Hi2 & Hs2 & Hf2 & Hnd).
  destruct (second_pass_ok (seq 0 nd) st2 st' Hx2 Hu) as [_ Hg].
  rewrite Hg, Hs2 by exact Hj.
  rewrite <- (map_map (fun q => nth q (cx_iarray st2) 0%nat) (fun i => xty_term n x y weight i j)).
  rewrite map_nth_seq_firstn by lia.
  rewrite Hf2, sum_filter; reflexivity.
Qed.

End XtyProofs.

Lemma sumR_plus_minus (f g h : nat -> R) k :
  (sumR f k + sumR g k - sumR h k)%R = sumR (fun i => f i + g i - h i)%R k.
Proof.
  induction k as [|k IH]; cbn [sumR]; [lra|rewrite <- IH; lra].
Qed.

(** On success [update_chol_xty] keeps [xty] equal to the sum of the terms
    [x[i + j*n] * y[i] * w[i]] over the subset: if it holds for [subset0]
    before, it holds for [subset1] after *)
Theorem update_chol_xty_tracks_subset (n p : nat) (x y weight : list R)
    (s0 s1 : list Z) (st st' : chol_xty_state R) :
  length (cx_xty st) = p -> length (cx_iarray st) = n ->
  (forall i, i < n -> nth i s0 0%Z = 0%Z \/ nth i s0 0%Z = 1%Z) ->
  (forall i, i < n -> nth i s1 0%Z = 0%Z \/ nth i s1 0%Z = 1%Z) ->
  (forall j, j < p -> get (cx_xty st) j
     = sumR (fun i => if Z.eqb (nth i s0 0%Z) 1 then xty_term n x y weight i j else 0%R) n) ->
  update_chol_xty n p x y weight s0 s1 st = (WBACON_ERROR_OK, st') ->
  forall j, j < p -> get (cx_xty st') j
     = sumR (fun i => if Z.eqb (nth i s1 0%Z) 1 then xty_term n x y weight i j else 0%R) n.
Proof.
  intros Hx Hi H0 H1 Hinv Hu j Hj.
  rewrite (update_chol_xty_delta n p x y weight s0 s1 st st' Hx Hi Hu j Hj), Hinv by exact Hj.
  rewrite sumR_plus_minus; apply sumR_ext; intros i Hin.
  unfold is_down, is_up.
  destruct (H0 i Hin) as [-> | ->], (H1 i Hin) as [-> | ->]; cbn; lra.
Qed.

Lemma fold_modify_const (h : nat -> R -> R -> R) k c ks (B : list R) d :
  ~ In k ks -> nth k B d = c ->
  fold_left (fun B i => set_nth B i (h i (nth i B d) (nth k B d))) ks B
  = fold_left (fun B i => set_nth B i (h i (nth i B d) c)) ks B.
Proof.
  revert B; induction ks as [|i ks IH]; intros B Hn Hc; simpl; auto.
  rewrite Hc; apply IH.
  - intros Hin; apply Hn; right; exact Hin.
  - rewrite nth_set_nth_ne; auto. intros ->; apply Hn; left; reflexivity.
Qed.

Lemma Rleb_both (a : R) : (Rleb a 0 && Rleb 0 a)%bool = true <-> a = 0%R.
Proof.
  unfold Rleb; destruct (Rle_dec a 0), (Rle_dec 0 a); simpl; split; intros; try lra; discriminate.
Qed.

Lemma inner_fold_spec (a : nat -> R) k p (B1 : list R) :
  length B1 = p -> k < p ->
  let G := fold_left (fun B i => set_nth B i (get B i - get B k * a i)%R) (seq (S k) (p - S k)) B1 in
  length G = p /\ (forall j, j <= k -> get G j = get B1 j) /\
  (forall i, k < i < p -> get G i = (get B1 i - get B1 k * a i)%R).
Proof.
  intros Hl Hk G; subst G; unfold get.
  rewrite (fold_modify_const (fun i v c => v - c * a i)%R k (nth k B1 f0))
    by (try (rewrite in_seq; lia); reflexivity); cbv beta.
  split; [rewrite fold_left_length_pres; [exact Hl|intros; apply set_nth_length]|split].
  - intros j Hj; rewrite (fold_modify_nodup (fun i v => v - nth k B1 f0 * a i)%R) by apply seq_NoDup.
    destruct (in_dec Nat.eq_dec j (seq (S k) (p - S k))) as [Hin|]; auto.
    apply in_seq in Hin; lia.
  - intros i Hi.
    rewrite (fold_modify_seq (fun i v => v - nth k B1 f0 * a i)%R) by lia; reflexivity.
Qed.

Lemma llnn_step_spec p (A B : list R) k :
  k < p -> length B = p -> get A (k + k * p) <> 0%R ->
  let B' := dtrsm_llnn_step p A B k in
  length B' = p /\
  get B' k = (get B k / get A (k + k * p))%R /\
  (forall i, k < i < p -> get B' i = (get B i - get B' k * get A (i + k * p))%R) /\
  (forall i, i < k -> get B' i = get B i).
Proof.
  intros Hk Hl Hd B'; subst B'; unfold dtrsm_llnn_step.
  destruct (negb _) eqn:Hz.
  - cbn [fdiv fsub fmul fleb f0 R_arith].
    set (B1 := set_nth B k (get B k / get A (k + k * p))%R).
    assert (HB1 : length B1 = p) by (subst B1; rewrite set_nth_length; exact Hl).
    assert (Hk1 : get B1 k = (get B k / get A (k + k * p))%R)
      by (subst B1; unfold get; apply nth_set_nth_eq; lia).
    pose proof (inner_fold_spec (fun i => get A (i + k * p)) k p B1 HB1 Hk) as Hs.
    cbv beta zeta in Hs; destruct Hs as (Hlen & Hout & Hin).
    split; [exact Hlen|].
    split; [rewrite Hout by lia; exact Hk1|].
    split.
    + intros i Hi. rewrite Hin, Hout by lia. subst B1; unfold get at 1.
      rewrite nth_set_nth_ne by lia. reflexivity.
    + intros i Hi; rewrite Hout by lia; subst B1; unfold get; rewrite nth_set_nth_ne by lia; reflexivity.
  - apply Bool.negb_false_iff in Hz. cbn [fleb f0 R_arith] in Hz. apply Rleb_both in Hz.
    cbn [fdiv R_arith]; rewrite Hz.
    repeat split; auto; try (unfold Rdiv; ring); intros i Hi; ring.
Qed.

Lemma llnn_inv p (A b : list R) K :
  K <= p -> length b = p -> (forall i, i < p -> get A (i + i * p) <> 0%R) ->
  let B := fold_left (dtrsm_llnn_step p A) (seq 0 K) b in
  length B = p /\
  (forall i, K <= i < p -> get B i = (get b i - sumR (fun l => get A (i + l * p) * get B l)%R K)%R) /\
  (forall i, i < K -> sumR (fun l => get A (i + l * p) * get B l)%R (S i) = get b i).
Proof.
  intros HK Hl Hd; induction K as [|K IH]; intros B.
  - subst B; simpl; repeat split; auto; [intros; cbn [sumR]; ring | intros; lia].
  - subst B; rewrite seq_S, fold_left_app, Nat.add_0_l; cbn [fold_left].
    destruct (IH ltac:(lia)) as (Hl0 & Hhi & Hlo).
    set (B0 := fold_left (dtrsm_llnn_step p A) (seq 0 K) b) in *.
    destruct (llnn_step_spec p A B0 K ltac:(lia) Hl0 (Hd K ltac:(lia))) as (Hl1 & HK1 & Hhi1 & Hlo1).
    set (B1 := dtrsm_llnn_step p A B0 K) in *.
    assert (Hsame : forall i, sumR (fun l => get A (i + l * p) * get B1 l)%R K
                            = sumR (fun l => get A (i + l * p) * get B0 l)%R K)
      by (intros i; apply sumR_ext; intros l Hlk; rewrite Hlo1 by exact Hlk; reflexivity).
    split; [exact Hl1|split].
    + intros i Hi. rewrite Hhi1 by lia. cbn [sumR]. rewrite Hsame, Hhi by lia. ring.
    + intros i Hi. destruct (Nat.eq_dec i K) as [->|Hne].
      * cbn [sumR]. rewrite Hsame, HK1.
        rewrite Hhi by lia. field. apply Hd; lia.
      * cbn [sumR].
        rewrite (sumR_ext _ (fun l => get A (i + l * p) * get B0 l)%R)
          by (intros l Hl'; rewrite Hlo1 by lia; reflexivity).
        rewrite Hlo1 by lia.
        exact (Hlo i ltac:(lia)).
Qed.

Lemma fold_sub_sumR (g : nat -> R) s m a :
  fold_left (fun temp k => (temp - g k)%R) (seq s m) a = (a - sumR (fun t => g (s + t)%nat) m)%R.
Proof.
  induction m as [|m IH]; [cbn; ring|].
  rewrite seq_S, fold_left_app, IH; cbn [fold_left sumR]; ring.
Qed.

Lemma sumR_shift_front (f : nat -> R) m :
  sumR f (S m) = (f 0%nat + sumR (fun t => f (S t)) m)%R.
Proof.
  induction m as [|m IH]; cbn [sumR] in *; [ring|rewrite IH; ring].
Qed.

Lemma upper_dot_split p A B i :
  i < p ->
  upper_dot p A B i
  = (get A (i + i * p) * get B i
     + sumR (fun t => get A (S i + t + i * p) * get B (S i + t))%R (p - S i))%R.
Proof.
  intros Hi; unfold upper_dot.
  replace (p - i) with (S (p - S i)) by lia.
  rewrite sumR_shift_front, Nat.add_0_r.
  f_equal; apply sumR_ext; intros t _; replace (i + S t) with (S i + t) by lia; reflexivity.
Qed.

Lemma lltn_step_spec p (A B : list R) i :
  i < p -> length B = p ->
  let B' := dtrsm_lltn_step p A B i in
  length B' = p /\
  get B' i = ((get B i - sumR (fun t => get A (S i + t + i * p) * get B (S i + t))%R (p - S i))
              / get A (i + i * p))%R /\
  (forall j, j <> i -> get B' j = get B j).
Proof.
  intros Hi Hl B'; subst B'; unfold dtrsm_lltn_step.
  cbn [fsub fmul fdiv R_arith].
  rewrite (fold_sub_sumR (fun k => get A (k + i * p) * get B k)%R).
  split; [rewrite set_nth_length; exact Hl|split].
  - unfold get at 1; rewrite nth_set_nth_eq by lia; reflexivity.
  - intros j Hj; unfold get at 1 3; rewrite nth_set_nth_ne by lia; reflexivity.
Qed.

Lemma lltn_inv p (A a : list R) K :
  (forall i, i < p -> get A (i + i * p) <> 0%R) ->
  forall B, K <= p -> length B = p ->
  (forall i, K <= i < p -> upper_dot p A B i = get a i) ->
  (forall i, i < K -> get B i = get a i) ->
  forall i, i < p -> upper_dot p A (fold_left (dtrsm_lltn_step p A) (rev (seq 0 K)) B) i = get a i.
Proof.
  intros Hd; induction K as [|K IH]; intros B HK Hl Hhi Hlo.
  - intros i Hi; apply Hhi; lia.
  - rewrite seq_S, rev_app_distr, Nat.add_0_l; cbn [rev app fold_left].
    destruct (lltn_step_spec p A B K ltac:(lia) Hl) as (Hl' & HK' & Ho').
    set (B' := dtrsm_lltn_step p A B K) in *.
    apply IH; [lia|exact Hl'| |].
    + intros i Hi. destruct (Nat.eq_dec i K) as [->|Hne].
      * rewrite upper_dot_split by lia. rewrite HK'.
        rewrite (sumR_ext (fun t => get A (S K + t + K * p) * get B' (S K + t))%R (fun t => get A (S K + t + K * p) * get B (S K + t))%R)
          by (intros t _; rewrite Ho' by lia; reflexivity).
        rewrite <- (Hlo K) by lia. field. apply Hd; lia.
      * rewrite <- Hhi by lia. unfold upper_dot.
        apply sumR_ext; intros t _; rewrite Ho' by lia; reflexivity.
    + intros i Hi; rewrite Ho' by lia; apply Hlo; lia.
Qed.

(** [cholesky_reg] solves the normal equations: with a nonzero diagonal,
    [L * (L^T * beta) = xty], row by row *)
Theorem cholesky_reg_solves (n p : nat) (L x xty beta : list R) :
  length xty = p -> length beta = p ->
  (forall i, i < p -> get L (i + i * p) <> 0%R) ->
  let beta' := cholesky_reg L x xty beta n p in
  forall i, i < p ->
  sumR (fun l => get L (i + l * p) * upper_dot p L beta' l)%R (S i) = get xty i.
Proof.
  intros Hx Hb Hd beta' i Hi.
  assert (Hm : memcpy beta xty p = xty).
  { unfold memcpy; rewrite firstn_all2, skipn_all2 by lia; apply app_nil_r. }
  set (a := dtrsm_llnn p L xty).
  destruct (llnn_inv p L xty p (le_n p) Hx Hd) as (Hla & _ & Ha).
  fold (dtrsm_llnn p L xty) in Hla, Ha; fold a in Hla, Ha.
  assert (Hu : forall l, l < p -> upper_dot p L beta' l = get a l).
  { intros l Hl; subst beta'; unfold cholesky_reg; rewrite Hm; fold a.
    apply (lltn_inv p L a p Hd a (le_n p) Hla); [intros; lia | reflexivity | exact Hl]. }
  rewrite <- (Ha i Hi).
  apply sumR_ext; intros l Hl; rewrite Hu by lia; reflexivity.
Qed.

Section GrowProofs.
Context {F : Type} `{DoubleArith F}.
Variables (dgels : nat -> nat -> list F -> list F -> list F * list F)
          (dgels_query : nat -> nat -> Z)
          (n p : nat) (x y w : list F) (lwork : Z) (iarray : list nat).

Lemma ir_grow_spec fuel status m (subset : list Z) fs :
  let '(_, m', subset', _) :=
    ir_grow dgels dgels_query n p x y w lwork fuel iarray status m subset fs in
  m <= m' /\ (m' <= m \/ m' <= n) /\ length subset' = length subset /\
  forall i, i < length subset -> nth i subset' 0%Z = marked iarray m (m' - m) subset i.
Proof.
  revert m subset fs; induction fuel as [|fuel IH]; intros m subset fs; cbn [ir_grow].
  - split; [lia|split; [left; lia|split; [reflexivity|]]]; intros i Hi; unfold marked.
    rewrite Nat.sub_diag; reflexivity.
  - destruct (Nat.ltb_spec m n) as [Hlt|Hge].
    + rewrite Nat.sub_succ, Nat.sub_0_r.
      set (s1 := set_nth subset (nth m iarray 0) 1%Z).
      assert (Hs1 : forall i, i < length subset -> nth i s1 0%Z = marked iarray m 1 subset i).
      { intros i Hi; unfold marked, s1; cbn [seq existsb].
        rewrite Bool.orb_false_r.
        destruct (Nat.eqb_spec (nth m iarray 0) i) as [<-|Hne].
        - apply nth_set_nth_eq; exact Hi.
        - apply nth_set_nth_ne; exact Hne. }
      destruct (fitwls_subset dgels dgels_query n p x y w lwork s1 fs) as [info fs'].
      destruct (Z.eqb info 0).
      * split; [lia|split; [right; lia|split; [unfold s1; apply set_nth_length|]]].
        intros i Hi; rewrite Hs1 by exact Hi; f_equal; lia.
      * specialize (IH (S m) s1 fs').
        destruct (ir_grow _ _ _ _ _ _ _ _ fuel iarray status (S m) s1 fs')
          as [[[st' m'] subset'] fs''].
        destruct IH as (Hm & Hn & Hl & Hv).
        assert (Hl1 : length s1 = length subset) by (unfold s1; apply set_nth_length).
        split; [lia|split; [right; lia|split; [rewrite Hl, Hl1; reflexivity|]]].
        intros i Hi. rewrite Hv by lia. unfold marked.
        replace (m' - m) with (S (m' - S m)) by lia.
        cbn [seq existsb].
        rewrite Hs1 by exact Hi. unfold marked; cbn [seq existsb]; rewrite Bool.orb_false_r.
        destruct (Nat.eqb (nth m iarray 0) i); cbn [orb]; destruct (existsb _ _); reflexivity.
    + split; [lia|split; [left; lia|split; [reflexivity|]]]; intros i Hi; unfold marked.
      rewrite Nat.sub_diag; reflexivity.
Qed.

End GrowProofs.

(** [initial_reg] only adds observations to the subset: [m] grows (not past
    [n] when it changes), and [subset] is the old subset with ones at
    [iarray[m0 .. m-1]] *)
Theorem initial_reg_subset {F : Type} `{DoubleArith F}
    dgels dgels_query dtrtri psort_array n p x y w sigma lwork (st : ir_state F) :
  let st' := snd (initial_reg dgels dgels_query dtrtri psort_array n p x y w sigma lwork st) in
  ir_m st <= ir_m st' /\ (ir_m st' = ir_m st \/ ir_m st' <= n) /\
  length (ir_subset st') = length (ir_subset st) /\
  forall i, i < length (ir_subset st) ->
    nth i (ir_subset st') 0%Z = marked (ir_iarray st') (ir_m st) (ir_m st' - ir_m st) (ir_subset st) i.
Proof.
  intros st'; subst st'; unfold initial_reg.
  destruct (fitwls_subset _ _ _ _ _ _ _ _ _ _) as [info fs].
  destruct (negb (Z.eqb info 0)).
  - destruct (psort_array _ _ _ _) as [dist iarray].
    pose proof (ir_grow_spec dgels dgels_query n p x y w lwork iarray (n - ir_m st)
                  WBACON_ERROR_RANK_DEFICIENT (ir_m st) (ir_subset st) fs) as Hg.
    destruct (ir_grow _ _ _ _ _ _ _ _ _ _ _ _ _ _) as [[[status m] subset] fs'].
    destruct Hg as (Hm & Hn & Hl & Hv).
    destruct (compute_ti _ _ _ _ _ _ _ _ _ _ _ _ _); cbn [snd ir_m ir_subset ir_iarray];
      (split; [exact Hm|split; [destruct Hn; [left; lia|right; exact H0]|split; [exact Hl|exact Hv]]]).
  - destruct (compute_ti _ _ _ _ _ _ _ _ _ _ _ _ _); cbn [snd ir_m ir_subset ir_iarray];
      (split; [lia|split; [left; reflexivity|split; [reflexivity|]]]);
      intros i Hi; unfold marked; rewrite Nat.sub_diag; reflexivity.
Qed.

Lemma set_nth_nth_id {A} (l : list A) i d : set_nth l i (nth i l d) = l.
Proof. revert i; induction l as [|h t IH]; intros [|i]; simpl; f_equal; auto. Qed.

Lemma set_nth_twice {A} (l : list A) i a b : set_nth (set_nth l i a) i b = set_nth l i b.
Proof. revert i; induction l as [|h t IH]; intros [|i]; simpl; f_equal; auto. Qed.

Lemma set_nth_out {A} (l : list A) i v : length l <= i -> set_nth l i v = l.
Proof. revert i; induction l as [|h t IH]; intros [|i] Hi; simpl in *; try lia; f_equal; auto; apply IH; lia. Qed.

Lemma xty_inner (n : nat) (x y w : list R) (subset : list Z) i k (xty : list R) :
  fold_left (fun xty j =>
      if Z.eqb (nth j subset 0%Z) 0 then xty
      else set_nth xty i (fadd (get xty i) (fmul (fmul (get w j) (get x (j + i * n))) (get y j))))
    (seq 0 k) xty
  = set_nth xty i (get xty i + sumR (fun j => if Z.eqb (nth j subset 0%Z) 0 then 0%R
                                            else get w j * get x (j + i * n) * get y j)%R k)%R.
Proof.
  destruct (Nat.lt_ge_cases i (length xty)) as [Hi|Hi].
  - induction k as [|k IH].
    + cbn [seq fold_left sumR]. rewrite Rplus_0_r; unfold get; symmetry; apply set_nth_nth_id.
    + rewrite seq_S, fold_left_app, IH, Nat.add_0_l; cbn [fold_left sumR].
      destruct (Z.eqb (nth k subset 0%Z) 0).
      * rewrite Rplus_0_r; reflexivity.
      * rewrite set_nth_twice; cbn [fadd fmul R_arith]; unfold get at 1.
        rewrite nth_set_nth_eq by exact Hi. f_equal; ring.
  - rewrite set_nth_out by exact Hi.
    induction k as [|k IH]; [reflexivity|].
    rewrite seq_S, fold_left_app, IH; cbn [fold_left].
    destruct (Z.eqb _ 0); [reflexivity|apply set_nth_out; exact Hi].
Qed.

Lemma ir_xty_loop_spec (n p : nat) (x y w : list R) (subset : list Z) (xty : list R) :
  length xty = p ->
  length (ir_xty_loop n p x y w subset xty) = p /\
  forall i, i < p -> get (ir_xty_loop n p x y w subset xty) i
    = (get xty i + sumR (fun j => if Z.eqb (nth j subset 0%Z) 0 then 0%R
                                 else get w j * get x (j + i * n) * get y j)%R n)%R.
Proof.
  intros Hl; unfold ir_xty_loop.
  rewrite (fold_left_ext_in _ (fun xty i => set_nth xty i (nth i xty 0%R
     + sumR (fun j => if Z.eqb (nth j subset 0%Z) 0 then 0%R
                      else get w j * get x (j + i * n) * get y j)%R n)%R))
    by (intros a i _; apply xty_inner).
  split; [rewrite fold_left_length_pres; [exact Hl|intros; apply set_nth_length]|].
  intros i Hi; unfold get at 1.
  rewrite (fold_modify_seq (fun i v => v + sumR (fun j => if Z.eqb (nth j subset 0%Z) 0 then 0%R
                    else get w j * get x (j + i * n) * get y j)%R n)%R) by lia.
  reflexivity.
Qed.

(** [initial_reg] adds the subset's [w[j] * x[j + i*n] * y[j]] to [xty]
    without resetting it first *)
Theorem initial_reg_xty dgels dgels_query dtrtri psort_array (n p : nat) (x y w : list R)
    (sigma : R) lwork (st : ir_state R) :
  length (ir_xty st) = p ->
  let st' := snd (initial_reg dgels dgels_query dtrtri psort_array n p x y w sigma lwork st) in
  forall i, i < p -> get (ir_xty st') i
    = (get (ir_xty st) i + sumR (fun j => if Z.eqb (nth j (ir_subset st') 0%Z) 0 then 0%R
                                        else get w j * get x (j + i * n) * get y j)%R n)%R.
Proof.
  intros Hl st'; subst st'; unfold initial_reg.
  destruct (fitwls_subset _ _ _ _ _ _ _ _ _ _) as [info fs].
  destruct (negb (Z.eqb info 0)).
  - destruct (psort_array _ _ _ _) as [dist iarray].
    destruct (ir_grow _ _ _ _ _ _ _ _ _ _ _ _ _ _) as [[[status m] subset] fs'].
    destruct (compute_ti _ _ _ _ _ _ _ _ _ _ _ _ _); cbn [snd ir_xty ir_subset];
      apply ir_xty_loop_spec; exact Hl.
  - destruct (compute_ti _ _ _ _ _ _ _ _ _ _ _ _ _); cbn [snd ir_xty ir_subset];
      apply ir_xty_loop_spec; exact Hl.
Qed.

Section A4Proofs.
Context {F : Type} `{DoubleArith F}.
Variables (dtrtri : nat -> list F -> option (list F)).
Variables (n p collect : nat) (x y w : list F) (sigma : F).

Lemma a4_grow_mono fuel m subset0 subset1 (cx : chol_xty_state F) e m' subset1' cx' :
  a4_grow n p collect x y w fuel m subset0 subset1 cx = Some (e, m', subset1', cx') ->
  m < m' /\ length subset1' = length subset1.
Proof.
  revert m subset1 cx; induction fuel as [|fuel IH]; intros m subset1 cx Hg; cbn [a4_grow] in Hg;
    [discriminate|].
  destruct (Nat.ltb n (S m)); [discriminate|].
  destruct (update_chol_xty n p x y w subset0 _ cx) as [[] cx1].
  - inversion Hg; subst; split; [lia|apply set_nth_length].
  - destruct (Nat.eqb (S m) (p * collect)).
    + inversion Hg; subst; split; [lia|apply set_nth_length].
    + destruct (IH _ _ _ Hg) as [Hm Hl]; rewrite Hl, set_nth_length; split; [lia|reflexivity].
  - destruct (Nat.eqb (S m) (p * collect)).
    + inversion Hg; subst; split; [lia|apply set_nth_length].
    + destruct (IH _ _ _ Hg) as [Hm Hl]; rewrite Hl, set_nth_length; split; [lia|reflexivity].
  - destruct (Nat.eqb (S m) (p * collect)).
    + inversion Hg; subst; split; [lia|apply set_nth_length].
    + destruct (IH _ _ _ Hg) as [Hm Hl]; rewrite Hl, set_nth_length; split; [lia|reflexivity].
Qed.

Lemma a4_transition_mono m subset0 subset1 (cx : chol_xty_state F) e m' subset1' cx' :
  a4_transition n p collect x y w m subset0 subset1 cx = Some (e, m', subset1', cx') ->
  m <= m' /\ length subset1' = length subset1.
Proof.
  unfold a4_transition; intros Ht.
  destruct (update_chol_xty n p x y w subset0 subset1 cx) as [e0 cx1].
  destruct e0;
    [inversion Ht; subst; split; [lia|reflexivity]
    |apply a4_grow_mono in Ht; split; [lia|apply Ht]..].
Qed.

Lemma select_subset_length selk (d : list F) (subset : list Z) m :
  length (snd (select_subset selk d subset m n)) = length subset.
Proof.
  unfold select_subset; cbn [snd].
  apply fold_left_length_pres; intros; apply set_nth_length.
Qed.

Lemma a4_body_spec (st st' : a4_state F) o :
  n <= length (a4_subset1 st) ->
  a4_body dtrtri n p collect x y w sigma st = Some (o, st') ->
  a4_m st <= a4_m st' /\ n <= length (a4_subset1 st') /\
  (o = A4_next -> a4_m st < a4_m st') /\
  (o = A4_return WBACON_ERROR_OK ->
     a4_m st < a4_m st' /\ a4_m st' = p * collect + 1 /\
     forall i, i < n -> nth i (a4_subset0 st') 0%Z = nth i (a4_subset1 st') 0%Z).
Proof.
  intros Hl Hb; unfold a4_body in Hb.
  destruct (a4_transition n p collect x y w (a4_m st) (a4_subset0 st) (a4_subset1 st) (a4_cx st))
    as [[[[e m] subset1] cx]|] eqn:Ht; [|discriminate].
  destruct (a4_transition_mono _ _ _ _ _ _ _ _ Ht) as [Hm Hls].
  destruct e.
  - cbn [a4_subset0 a4_subset1 a4_m a4_beta a4_resid a4_dist a4_work_n] in Hb.
    destruct (compute_ti _ _ _ _ _ _ _ _ _ _ _ _ _) as [dist|].
    + destruct (Nat.eqb_spec (S m) (p * collect + 1)) as [Heq|Hne].
      * inversion Hb; subst; cbn [a4_m a4_subset0 a4_subset1].
        split; [lia|split; [lia|split; [discriminate|]]].
        intros _; split; [lia|split; [lia|]].
        intros i Hi; apply memcpy_get_in; lia.
      * destruct (Nat.ltb n (S m)); [discriminate|].
        destruct (select_subset select_k dist subset1 (S m) n) as [dist' subset1'] eqn:Hs.
        pose proof (select_subset_length select_k dist subset1 (S m)) as Hsl.
        rewrite Hs in Hsl; cbn [snd] in Hsl.
        inversion Hb; subst; cbn [a4_m a4_subset1].
        split; [lia|split; [lia|split; [intros; lia|intros Hc; discriminate Hc]]].
    + inversion Hb; subst; cbn [a4_m a4_subset1].
      split; [lia|split; [lia|split; intros Hc; discriminate Hc]].
  - inversion Hb; subst; cbn [a4_m a4_subset1].
    split; [lia|split; [lia|split; intros Hc; discriminate Hc]].
  - inversion Hb; subst; cbn [a4_m a4_subset1].
    split; [lia|split; [lia|split; intros Hc; discriminate Hc]].
  - inversion Hb; subst; cbn [a4_m a4_subset1].
    split; [lia|split; [lia|split; intros Hc; discriminate Hc]].
Qed.

Lemma a4_loop_ok fuel (st st' : a4_state F) :
  n <= length (a4_subset1 st) ->
  a4_loop dtrtri n p collect x y w sigma fuel st = Some (WBACON_ERROR_OK, st') ->
  a4_m st < a4_m st' /\ a4_m st' = p * collect + 1 /\
  forall i, i < n -> nth i (a4_subset0 st') 0%Z = nth i (a4_subset1 st') 0%Z.
Proof.
  revert st; induction fuel as [|fuel IH]; intros st Hl Hloop; cbn [a4_loop] in Hloop;
    [discriminate|].
  destruct (a4_body dtrtri n p collect x y w sigma st) as [[o st1]|] eqn:Hb; [|discriminate].
  destruct (a4_body_spec st st1 o Hl Hb) as (Hm & Hl1 & Hnext & Hok).
  destruct o as [e|].
  - inversion Hloop; subst; exact (Hok eq_refl).
  - destruct (IH st1 Hl1 Hloop) as (Hm' & Heq & Hs).
    specialize (Hnext eq_refl); split; [lia|split; assumption].
Qed.

End A4Proofs.

(** [algorithm_4] returns OK only when [m] has grown to exactly
    [p * collect + 1] and the two subsets agree *)
Theorem algorithm_4_ok {F : Type} `{DoubleArith F} dtrtri n p collect x y w sigma
    (st st' : a4_state F) :
  n <= length (a4_subset1 st) ->
  algorithm_4 dtrtri n p collect x y w sigma st = Some (WBACON_ERROR_OK, st') ->
  a4_m st < a4_m st' /\ a4_m st' = p * collect + 1 /\
  forall i, i < n -> nth i (a4_subset0 st') 0%Z = nth i (a4_subset1 st') 0%Z.
Proof.
  intros Hl Ha; exact (a4_loop_ok dtrtri n p collect x y w sigma (S n) st st' Hl Ha).
Qed.

Section FrontProofs.
Context {F : Type} `{DoubleArith F}.
Variables (dgels : nat -> nat -> list F -> list F -> list F * list F)
          (dgels_query : nat -> nat -> Z) (dtrtri : nat -> list F -> option (list F))
          (psort_array : list F -> list nat -> nat -> nat -> list F * list nat)
          (sigma : F) (x y w resid beta : list F) (subset0 : list Z) (dist : list F)
          (n p m collect : nat) (maxiter : Z).

(** the outputs of an early return report [*success = 0] *)
Lemma wbacon_reg_front_done out :
  wbacon_reg_front dgels dgels_query dtrtri psort_array sigma x y w resid beta subset0 dist
    n p m collect maxiter = WF_done (Some out) ->
  wo_success out = 0%Z.
Proof.
  unfold wbacon_reg_front; intros Hw.
  destruct (initial_reg _ _ _ _ _ _ _ _ _ _ _ _) as [err ir].
  destruct err; try (inversion Hw; reflexivity).
  destruct (select_subset _ _ _ _ _) as [dist1 subset1].
  destruct (algorithm_4 _ _ _ _ _ _ _ _ _) as [[e a4]|]; [|discriminate].
  destruct e; inversion Hw; reflexivity.
Qed.

(** the state [algorithm_5] is called with: [*m = p * collect + 1] (where
    [algorithm_4] breaks), [*maxiter] as given, and the two subsets equal *)
Lemma wbacon_reg_front_step2 lwork st :
  wbacon_reg_front dgels dgels_query dtrtri psort_array sigma x y w resid beta subset0 dist
    n p m collect maxiter = WF_step2 lwork st ->
  p < p * collect /\ a5_m st = Z.of_nat (p * collect + 1) /\ a5_maxiter st = maxiter /\
  (forall i, i < n -> nth i (a5_subset0 st) 0%Z = nth i (a5_subset1 st) 0%Z).
Proof.
  unfold wbacon_reg_front; intros Hw.
  destruct (initial_reg _ _ _ _ _ _ _ _ _ _ _ _) as [err ir].
  destruct err; try discriminate.
  destruct (select_subset select_k (ir_dist ir) (repeat 0%Z n) (p + 1) n)
    as [dist1 subset1] eqn:Hsel.
  pose proof (select_subset_length n select_k (ir_dist ir) (repeat 0%Z n) (p + 1)) as Hsl.
  rewrite Hsel, repeat_length in Hsl; cbn [snd] in Hsl.
  destruct (algorithm_4 _ _ _ _ _ _ _ _ _) as [[e a4]|] eqn:Ha4; [|discriminate].
  destruct e; try discriminate.
  injection Hw as _ <-.
  unfold algorithm_4 in Ha4.
  apply a4_loop_ok in Ha4; [|cbn [a4_subset1]; lia].
  destruct Ha4 as (Hm & Heq & Hid); cbn [a4_m] in Hm; cbn [a5_m a5_maxiter a5_subset0 a5_subset1].
  split; [lia|]; split; [rewrite Heq; reflexivity|]; split; [reflexivity|].
  intros i Hi; symmetry; apply Hid; exact Hi.
Qed.

End FrontProofs.

(** [wbacon_reg] reports success only when [p < p * collect] (so never for
    [collect = 1]) and the returned iteration count lies in [1 .. maxiter] *)
Theorem wbacon_reg_success {F : Type} `{DoubleArith F} dgels dgels_query dtrtri qt psort_array
    sigma (x y w resid beta : list F) (subset0 : list Z) (dist : list F)
    (n p m collect : nat) (alpha : F) (maxiter : Z) (out : wbacon_out F) :
  wbacon_reg dgels dgels_query dtrtri qt psort_array sigma x y w resid beta subset0 dist
    n p m collect alpha maxiter = Some out ->
  wo_success out = 1%Z ->
  p < p * collect /\ (1 <= wo_maxiter out <= maxiter)%Z.
Proof.
  intros Hw Hs; unfold wbacon_reg in Hw.
  destruct (wbacon_reg_front _ _ _ _ _ _ _ _ _ _ _ _ _ _ _ _ _) as [o|lwork st] eqn:Hf.
  - subst o; apply wbacon_reg_front_done in Hf; congruence.
  - destruct (wbacon_reg_front_step2 _ _ _ _ _ _ _ _ _ _ _ _ _ _ _ _ _ _ _ Hf)
      as (Hpc & _ & Hmx & _).
    unfold wbacon_reg_step2 in Hw.
    destruct (algorithm_5 _ _ _ _ _ _ _ _ _ _ _ _ _) as [e5 a5] eqn:Ha5.
    unfold algorithm_5 in Ha5.
    destruct e5; inversion Hw; subst; cbn [wo_success wo_maxiter wbacon_reg_output] in *;
      try discriminate.
    apply a5_loop_ok in Ha5.
    split; [exact Hpc|lia].
Qed.

(** ** Instances of the further properties *)

(** [extract_L_spec] at [n = 3], [p = 2], row 1, column 0 *)
Lemma extract_L_spec_witness :
  length [5; 6; 7; 8]%float = 2 * 2 /\ 1 < 2 /\ 0 < 2 /\
  (length (extract_L 3 2 [1; 2; 3; 4; 5; 6]%float [5; 6; 7; 8]%float) = 2 * 2 /\
   get (extract_L 3 2 [1; 2; 3; 4; 5; 6]%float [5; 6; 7; 8]%float) (1 + 0 * 2)
   = if Nat.leb 0 1 then get [1; 2; 3; 4; 5; 6]%float (0 + 1 * 3)
     else get [5; 6; 7; 8]%float (1 + 0 * 2)).
Proof.
  split; [reflexivity|]; split; [lia|]; split; [lia|].
  exact (extract_L_spec 3 2 [1; 2; 3; 4; 5; 6]%float [5; 6; 7; 8]%float 1 0
           eq_refl ltac:(lia) ltac:(lia)).
Defined.

(** [fitwls_resid_unweighted] with the 1-by-1 [dgels] at [n = p = 1] *)
Lemma fitwls_resid_unweighted_witness :
  let st := mk_fit_state [0%R] [0%R] [0%R] [0%R] in
  let r := fitwls dgels_1x1 (fun _ _ => 1%Z) 1 1 [1%R] [3%R] [1%R] 0 st in
  (0 <= 0)%Z /\ length [3%R] = 1 /\ 1 <= length (fs_resid st) /\ fst r = 0%Z /\
  (fs_beta (snd r) = memcpy (fs_beta st) (fs_wy (snd r)) 1 /\
   length (fs_resid (snd r)) = length (fs_resid st) /\
   forall i, i < 1 ->
     get (fs_resid (snd r)) i
     = (get [3%R] i - sumR (fun j => get [1%R] (i + 1 * j) * get (fs_beta (snd r)) j) 1)%R).
Proof.
  intros st r.
  assert (H0 : fst r = 0%Z).
  { subst r st; unfold fitwls; cbn -[sqrt Rabs Rltb].
    unfold Rltb; destruct (Rlt_dec _ _) as [Hlt|]; [exfalso|reflexivity].
    rewrite sqrt_1, Rmult_1_l, Rabs_R1 in Hlt.
    assert (Hs : (sqrt (/ IZR (2 ^ 52)) < 1)%R).
    { rewrite <- sqrt_1; apply sqrt_lt_1_alt; split.
      - apply Rlt_le, Rinv_0_lt_compat, IZR_lt; reflexivity.
      - rewrite <- Rinv_1; apply Rinv_lt_contravar; [lra|apply IZR_lt; reflexivity]. }
    change (IZR (2 ^ 52)) with 4503599627370496%R in Hs; lra. }
  split; [lia|]; split; [reflexivity|]; split; [cbn; lia|]; split; [exact H0|].
  exact (fitwls_resid_unweighted dgels_1x1 (fun _ _ => 1%Z) 1 1 [1%R] [3%R] [1%R] 0 st
           ltac:(lia) eq_refl ltac:(cbn; lia) H0).
Defined.

(** [hat_matrix_diag] at [n = 2], [p = 1], [L = [2]] *)
Lemma hat_matrix_diag_witness :
  let dtrtri := fun (_ : nat) (A : list R) => Some (map Rinv A) in
  let hm := hat_matrix dtrtri 2 1 [1%R; 2%R] [1%R; 1%R] [2%R] [0%R] [0%R; 0%R] [0%R; 0%R] in
  let h := match hm with Some h => h | None => [] end in
  1 <= 1 /\ 2 <= length [0%R; 0%R] /\ length [1%R; 2%R] = 2 * 1 /\ hm = Some h /\
  exists Linv, dtrtri 1 (memcpy [0%R] [2%R] (1 * 1)) = Some Linv /\
  length h = length [0%R; 0%R] /\
  forall i, i < 2 ->
    get h i = (get [1%R; 1%R] i *
      sumR (fun j => Rsqr (sumR (fun l => get [1%R; 2%R] (i + l * 2) * get Linv (j + l * 1)) (S j))) 1)%R /\
    ((0 <= get [1%R; 1%R] i)%R -> (0 <= get h i)%R).
Proof.
  intros dtrtri hm h.
  assert (Hh : hm = Some h) by reflexivity.
  split; [lia|]; split; [cbn; lia|]; split; [reflexivity|]; split; [exact Hh|].
  exact (hat_matrix_diag dtrtri 2 1 [1%R; 2%R] [1%R; 1%R] [2%R] [0%R] [0%R; 0%R] [0%R; 0%R] h
           ltac:(lia) ltac:(cbn; lia) eq_refl Hh).
Defined.

(** [chol_downdate_undoes_update] at [p = 2] *)
Lemma chol_downdate_undoes_update_witness :
  1 <= 2 /\ length [4%R; 0%R; 1%R; 3%R] = 2 * 2 /\ length [1%R; 2%R] = 2 /\
  (forall i, i < 2 -> (0 < get [4%R; 0%R; 1%R; 3%R] (i * (2 + 1)))%R) /\
  chol_downdate (fst (chol_update [4%R; 0%R; 1%R; 3%R] [1%R; 2%R] 2)) [1%R; 2%R] 2
  = (WBACON_ERROR_OK, ([4%R; 0%R; 1%R; 3%R],
                       snd (chol_update [4%R; 0%R; 1%R; 3%R] [1%R; 2%R] 2))).
Proof.
  assert (Hd : forall i, i < 2 -> (0 < get [4%R; 0%R; 1%R; 3%R] (i * (2 + 1)))%R).
  { intros [|[|i]] Hi; cbn; [lra|lra|lia]. }
  split; [lia|]; split; [reflexivity|]; split; [reflexivity|]; split; [exact Hd|].
  exact (chol_downdate_undoes_update 2 [4%R; 0%R; 1%R; 3%R] [1%R; 2%R]
           ltac:(lia) eq_refl eq_refl Hd).
Defined.

(** [chol_keeps_upper_triangle] in binary64 at [p = 2] *)
Lemma chol_keeps_upper_triangle_witness :
  0 < 1 < 2 /\
  get (fst (chol_update [4; 0; 1; 3]%float [1; 2]%float 2)) (0 + 1 * 2)
  = get [4; 0; 1; 3]%float (0 + 1 * 2) /\
  get (fst (snd (chol_downdate [4; 0; 1; 3]%float [1; 2]%float 2))) (0 + 1 * 2)
  = get [4; 0; 1; 3]%float (0 + 1 * 2).
Proof.
  split; [lia|].
  exact (chol_keeps_upper_triangle 2 [4; 0; 1; 3]%float [1; 2]%float 0 1 ltac:(lia)).
Defined.

(** [algorithm_5_converged] a converging run in binary64 at [n = 3], [p = 1] *)
Lemma algorithm_5_converged_witness :
  let qt := fun (pr df : float) (_ _ : Z) => 1000%float in
  let st := mk_a5_state [1; 1; 1]%Z [1; 1; 1]%Z 3%Z 2%Z
              (mk_fit_state [0; 0; 0]%float [0; 0; 0]%float [0%float] [0; 0; 0]%float)
              [0%float] [0; 0; 0]%float [0%float] [0; 0; 0]%float [0; 0; 0]%float in
  let r := algorithm_5 dgels_col (fun _ _ => 1%Z) dtrtri_1x1 qt 3 1 [1; 1; 1]%float
             [1; 2; 3]%float [1; 1; 1]%float 1%float 0.5%float 1%Z st in
  r = (WBACON_ERROR_OK, snd r) /\
  (1 <= a5_maxiter (snd r) <= a5_maxiter st)%Z /\
  (forall i, i < 3 -> nth i (a5_subset0 (snd r)) 0%Z = nth i (a5_subset1 (snd r)) 0%Z).
Proof.
  intros qt st r.
  assert (Hr : r = (WBACON_ERROR_OK, snd r)) by (vm_compute; reflexivity).
  split; [exact Hr|].
  exact (algorithm_5_converged dgels_col (fun _ _ => 1%Z) dtrtri_1x1 qt 3 1 [1; 1; 1]%float
           [1; 2; 3]%float [1; 1; 1]%float 1%float 0.5%float 1%Z st (snd r) Hr).
Defined.

(** [update_chol_xty_tracks_subset] observation 1 entering at [n = 2], [p = 1] *)
Lemma update_chol_xty_tracks_subset_witness :
  let x := [1%R; 2%R] in
  let y := [3%R; 4%R] in
  let weight := [1%R; 1%R] in
  let st := mk_chol_xty_state [1%R] [3%R] [0%R] [0%R; 0%R] [0%R] [0; 0] in
  let r := update_chol_xty 2 1 x y weight [1; 0]%Z [1; 1]%Z st in
  length (cx_xty st) = 1 /\ length (cx_iarray st) = 2 /\
  (forall i, i < 2 -> nth i [1; 0]%Z 0%Z = 0%Z \/ nth i [1; 0]%Z 0%Z = 1%Z) /\
  (forall i, i < 2 -> nth i [1; 1]%Z 0%Z = 0%Z \/ nth i [1; 1]%Z 0%Z = 1%Z) /\
  (forall j, j < 1 -> get (cx_xty st) j
     = sumR (fun i => if Z.eqb (nth i [1; 0]%Z 0%Z) 1 then xty_term 2 x y weight i j else 0%R) 2) /\
  r = (WBACON_ERROR_OK, snd r) /\
  (forall j, j < 1 -> get (cx_xty (snd r)) j
     = sumR (fun i => if Z.eqb (nth i [1; 1]%Z 0%Z) 1 then xty_term 2 x y weight i j else 0%R) 2).
Proof.
  intros x y weight st r.
  assert (H0 : forall i, i < 2 -> nth i [1; 0]%Z 0%Z = 0%Z \/ nth i [1; 0]%Z 0%Z = 1%Z).
  { intros [|[|i]] Hi; cbn; auto; lia. }
  assert (H1 : forall i, i < 2 -> nth i [1; 1]%Z 0%Z = 0%Z \/ nth i [1; 1]%Z 0%Z = 1%Z).
  { intros [|[|i]] Hi; cbn; auto; lia. }
  assert (Hinv : forall j, j < 1 -> get (cx_xty st) j
     = sumR (fun i => if Z.eqb (nth i [1; 0]%Z 0%Z) 1 then xty_term 2 x y weight i j else 0%R) 2).
  { intros [|j] Hj; [|lia]; subst x y weight st; unfold xty_term; cbn; ring. }
  assert (Hr : r = (WBACON_ERROR_OK, snd r)) by reflexivity.
  split; [reflexivity|]; split; [reflexivity|]; split; [exact H0|]; split; [exact H1|].
  split; [exact Hinv|]; split; [exact Hr|].
  exact (update_chol_xty_tracks_subset 2 1 x y weight [1; 0]%Z [1; 1]%Z st (snd r)
           eq_refl eq_refl H0 H1 Hinv Hr).
Defined.

(** [cholesky_reg_solves] at [p = 2] *)
Lemma cholesky_reg_solves_witness :
  length [1%R; 2%R] = 2 /\ length [0%R; 0%R] = 2 /\
  (forall i, i < 2 -> get [2%R; 1%R; 0%R; 3%R] (i + i * 2) <> 0%R) /\
  let beta' := cholesky_reg [2%R; 1%R; 0%R; 3%R] [0%R; 0%R] [1%R; 2%R] [0%R; 0%R] 2 2 in
  forall i, i < 2 ->
  sumR (fun l => get [2%R; 1%R; 0%R; 3%R] (i + l * 2) * upper_dot 2 [2%R; 1%R; 0%R; 3%R] beta' l)%R (S i)
  = get [1%R; 2%R] i.
Proof.
  assert (Hd : forall i, i < 2 -> get [2%R; 1%R; 0%R; 3%R] (i + i * 2) <> 0%R).
  { intros [|[|i]] Hi; cbn; [lra|lra|lia]. }
  split; [reflexivity|]; split; [reflexivity|]; split; [exact Hd|].
  exact (cholesky_reg_solves 2 2 [2%R; 1%R; 0%R; 3%R] [0%R; 0%R] [1%R; 2%R] [0%R; 0%R]
           eq_refl eq_refl Hd).
Defined.

(** [initial_reg_xty] at [n = p = 1] *)
Lemma initial_reg_xty_witness :
  let dtrtri := fun (_ : nat) (A : list R) => Some (map Rinv A) in
  let psort_array := fun (d : list R) (ia : list nat) (_ _ : nat) => (d, ia) in
  let st := mk_ir_state [1%Z] 0 (mk_fit_state [0%R] [0%R] [0%R] [0%R]) [0%R] [5%R]
              [0%R] [0] [0%R] [0%R] [0%R] in
  length (ir_xty st) = 1 /\
  let st' := snd (initial_reg dgels_1x1 (fun _ _ => 1%Z) dtrtri psort_array 1 1
                    [2%R] [3%R] [1%R] 1%R 0%Z st) in
  forall i, i < 1 -> get (ir_xty st') i
    = (get (ir_xty st) i + sumR (fun j => if Z.eqb (nth j (ir_subset st') 0%Z) 0 then 0%R
                                        else get [1%R] j * get [2%R] (j + i * 1) * get [3%R] j)%R 1)%R.
Proof.
  intros dtrtri psort_array st.
  split; [reflexivity|].
  exact (initial_reg_xty dgels_1x1 (fun _ _ => 1%Z) dtrtri psort_array 1 1
           [2%R] [3%R] [1%R] 1%R 0%Z st eq_refl).
Defined.

(** [algorithm_4_ok] a run in binary64 at [n = 3], [p = 1], [collect = 2] *)
Lemma algorithm_4_ok_witness :
  let cx := mk_chol_xty_state [PrimFloat.sqrt 2] [2%float] [0%float] [0; 0; 0]%float
              [0%float] [0; 1; 2] in
  let st := mk_a4_state [1; 1; 0]%Z [1; 1; 0]%Z 2 cx [0%float] [0; 0; 0]%float
              [0; 0; 0]%float [0; 0; 0]%float in
  let r := algorithm_4 dtrtri_1x1 3 1 2 [1; 1; 1]%float [1; 2; 3]%float [1; 1; 1]%float 1%float st in
  let st' := match r with Some (_, s) => s | None => st end in
  3 <= length (a4_subset1 st) /\ r = Some (WBACON_ERROR_OK, st') /\
  (a4_m st < a4_m st' /\ a4_m st' = 1 * 2 + 1 /\
   forall i, i < 3 -> nth i (a4_subset0 st') 0%Z = nth i (a4_subset1 st') 0%Z).
Proof.
  intros cx st r st'.
  assert (Hr : r = Some (WBACON_ERROR_OK, st')) by (vm_compute; reflexivity).
  split; [cbn; lia|]; split; [exact Hr|].
  exact (algorithm_4_ok dtrtri_1x1 3 1 2 [1; 1; 1]%float [1; 2; 3]%float [1; 1; 1]%float 1%float
           st st' ltac:(cbn; lia) Hr).
Defined.

(** [wbacon_reg_success] a successful run in binary64 at [n = 3], [p = 1], [collect = 2] *)
Lemma wbacon_reg_success_witness :
  let r := wbacon_reg dgels_col (fun _ _ => 1%Z) dtrtri_1x1 (fun _ _ _ _ => 1000%float)
             (fun d ia _ _ => (d, ia)) 1%float [1; 1; 1]%float [1; 2; 3]%float [1; 1; 1]%float
             [0; 0; 0]%float [0%float] [1; 1; 0]%Z [0; 0; 0]%float 3 1 2 2 0.0625%float 5%Z in
  let out := match r with Some o => o | None => mk_wbacon_out [] [] [] [] [] 0 0 0 end in
  r = Some out /\ wo_success out = 1%Z /\
  (1 < 1 * 2 /\ (1 <= wo_maxiter out <= 5)%Z).
Proof.
  intros r out.
  assert (Hr : r = Some out) by (vm_compute; reflexivity).
  assert (Hs : wo_success out = 1%Z) by (vm_compute; reflexivity).
  split; [exact Hr|]; split; [exact Hs|].
  exact (wbacon_reg_success dgels_col (fun _ _ => 1%Z) dtrtri_1x1 (fun _ _ _ _ => 1000%float)
           (fun d ia _ _ => (d, ia)) 1%float [1; 1; 1]%float [1; 2; 3]%float [1; 1; 1]%float
           [0; 0; 0]%float [0%float] [1; 1; 0]%Z [0; 0; 0]%float 3 1 2 2 0.0625%float 5%Z
           out Hr Hs).
Defined.
